(** * Custom-webapp component library: verification of the UI state logic

    A shallow embedding of [dist/index.esm.js]: the focus-trap stack
    ([useFocusTrap]), the stacked-modal backdrop coordinator
    ([useStackedModal]), the [GenericModal] handlers, the pagination
    arithmetic of [FooterPagination], the element measurement of
    [useMeasurePunchouts] and the clip-path of [TourTipBackdrop].

    Conventions of the embedding:
    - a DOM element is identified by a number (object identity, [===]);
    - React refs, [let] variables captured by closures and module-level
      arrays are fields of explicit state records that every operation
      takes and returns;
    - JavaScript numbers are IEEE 754 doubles. The embedding covers the
      integer-valued ones, as integers of [Z], next to [NaN] and the two
      infinities where a component can be handed them: sums, differences
      and products are rounded to the nearest double ([fl]), quotients
      likewise before [Math.trunc], and a number is printed as
      [Number.prototype.toString] prints it. Fractions, and integers
      beyond the largest double, are outside the embedding;
    - [undefined]/[null] is [None]; an unset inline style property is the
      empty string, as [element.style.prop] reads it. *)

From Stdlib Require Import ZArith Lia DecimalString DecimalZ DecimalPos.
From stdpp Require Import base option list strings gmap.

Local Open Scope Z_scope.

(** ** JavaScript helpers shared by the modules *)

(** [a || b] on strings: the empty string is falsy. *)
Definition js_or (a b : string) : string :=
  if bool_decide (a = "") then b else a.

(** Truthiness of a value that is either [null] or a string. *)
Definition truthy (r : option string) : bool :=
  match r with
  | Some s => negb (bool_decide (s = ""))
  | None => false
  end.

(** *** Numbers *)

(** [Number.MAX_SAFE_INTEGER] and [Number.MIN_SAFE_INTEGER]: 2^53 - 1 and
    its negative. *)
Definition MAX_SAFE_INTEGER : Z := 9007199254740991.
Definition MIN_SAFE_INTEGER : Z := -9007199254740991.

(** [Number.isSafeInteger] *)
Definition isSafeInteger (z : Z) : Prop :=
  MIN_SAFE_INTEGER ≤ z ≤ MAX_SAFE_INTEGER.

(** The double nearest to an integer: the integer itself when it has at
    most 53 significant bits, otherwise the nearest multiple of the
    spacing of the doubles at its magnitude, ties going to the even
    significand. *)
Definition fl (z : Z) : Z :=
  let a := Z.abs z in
  let bits := Z.log2 a + 1 in
  if bits <=? 53 then z
  else
    let sh := bits - 53 in
    let q := a / 2 ^ sh in
    let r := a mod 2 ^ sh in
    let half := 2 ^ (sh - 1) in
    let q' := if r <? half then q
              else if half <? r then q + 1
              else if Z.even q then q else q + 1 in
    Z.sgn z * (q' * 2 ^ sh).

(** [a + b], [a - b] and [a * b] *)
Definition jsAdd (a b : Z) : Z := fl (a + b).
Definition jsSub (a b : Z) : Z := fl (a - b).
Definition jsMul (a b : Z) : Z := fl (a * b).

(** [Math.trunc(a / k)] for [a >= 0] and [k > 0]: the integer part of
    the double nearest to the quotient. Below 2^53 the doubles around the
    quotient include the two integers next to it, and the quotient is
    rounded up to the upper one only if it lies within half a spacing of
    it; from 2^53 on the double is an integer itself. *)
Definition truncQuotient (a k : Z) : Z :=
  let q := a / k in
  let r := a mod k in
  if q =? 0 then (if (k - a) * 2 ^ 54 <=? k then 1 else 0)
  else
    let b := Z.log2 q + 1 in
    if b <=? 53 then
      let lhs := (k - r) * 2 ^ (54 - b) in
      if (lhs <? k) || ((lhs =? k) && ((b <? 53) || Z.odd q))
      then q + 1 else q
    else
      let sh := b - 53 in
      let m := a / (k * 2 ^ sh) in
      let rem := a mod (k * 2 ^ sh) in
      let m' := if 2 * rem <? k * 2 ^ sh then m
                else if k * 2 ^ sh <? 2 * rem then m + 1
                else if Z.even m then m else m + 1 in
      m' * 2 ^ sh.

(** [Math.trunc(a / k)] for a divisor other than 0. *)
Definition jsTruncDiv (a k : Z) : Z :=
  Z.sgn a * Z.sgn k * truncQuotient (Z.abs a) (Z.abs k).

(** The decimal digits of an integer. *)
Definition decimal (n : Z) : string := NilZero.string_of_int (Z.to_int n).

(** The exponent notation of [Number.prototype.toString] for a double
    [m >= 1e21]: the fewest digits [s] (there are [k] of them) for which
    [s * 10^(n - k)] is a number that rounds to [m], the nearest to [m]
    if there are several, printed as [d.ddd], [e+] and [n - 1]. *)
Definition candidates (m k : Z) : list (Z * Z) :=
  let d := Z.of_nat (String.length (decimal m)) in
  n ← [d; d + 1];
  let scale := 10 ^ (n - k) in
  s ← [m / scale; m / scale + 1];
  if (10 ^ (k - 1) <=? s) && (s <? 10 ^ k) && (fl (s * scale) =? m)
  then [(s, n)] else [].

Definition nearer (m k : Z) (c b : Z * Z) : bool :=
  let dc := Z.abs (c.1 * 10 ^ (c.2 - k) - m) in
  let db := Z.abs (b.1 * 10 ^ (b.2 - k) - m) in
  (dc <? db) || ((dc =? db) && Z.even c.1).

Definition closest (m k : Z) (cs : list (Z * Z)) : option (Z * Z) :=
  foldr (λ c best,
           match best with
           | None => Some c
           | Some b => if nearer m k c b then Some c else Some b
           end) None cs.

Fixpoint shortest (m k : Z) (fuel : nat) : option (Z * Z * Z) :=
  match fuel with
  | O => None
  | S fuel' =>
      match closest m k (candidates m k) with
      | Some (s, n) => Some (s, n, k)
      | None => shortest m (k + 1) fuel'
      end
  end.

Definition exponential (m : Z) : string :=
  match shortest m 1 17 with
  | Some (s, n, k) =>
      match decimal s with
      | String c rest =>
          String c (if k =? 1 then "" else "." +:+ rest)
            +:+ "e+" +:+ decimal (n - 1)
      | EmptyString => ""
      end
  | None => decimal m
  end.

(** [String(n)] / [`${n}`] for an integer-valued number: decimal digits
    below 1e21, exponent notation from there on. *)
Definition num_to_string (n : Z) : string :=
  if Z.abs n <? 10 ^ 21 then decimal n
  else if n <? 0 then "-" +:+ exponential (- n) else exponential n.

(** [`${n}px`] *)
Definition px (n : Z) : string := num_to_string n +:+ "px".

(** A number that a caller may pass for a prop: an integer, [NaN] or an
    infinity. *)
Inductive Number :=
| Int (z : Z)
| NaN
| Infinity (negative : bool).

(** [Boolean(n)]: 0 and [NaN] are the falsy numbers. *)
Definition truthyNumber (n : Number) : bool :=
  match n with
  | Int z => negb (z =? 0)
  | NaN => false
  | Infinity _ => true
  end.

(** [`${n}`] *)
Definition number_to_string (n : Number) : string :=
  match n with
  | Int z => num_to_string z
  | NaN => "NaN"
  | Infinity false => "Infinity"
  | Infinity true => "-Infinity"
  end.

(** ** useFocusTrap *)
Module FocusTrap.

(** A DOM element, by identity. *)
Definition Element := nat.

Record KeyboardEvent := {
  key : string;
  shiftKey : bool
}.

Record FocusTrapOptions := {
  initialFocus : bool;
  restoreFocus : bool;
  delayMs : option Z
}.

(** The default value of the [options] parameter. *)
Definition defaultOptions : FocusTrapOptions :=
  {| initialFocus := false; restoreFocus := false; delayMs := None |}.

(** What lives outside any one hook: the module-level array
    [activeFocusTraps], [document.activeElement], and the elements of the
    page that cannot take focus at the moment (disabled, hidden or
    detached ones), on which [focus()] has no effect. *)
Record Global := {
  activeFocusTraps : list Element;
  activeElement : option Element;
  unfocusable : gset Element
}.

(** One run of the effect of [useFocusTrap] that passed the guard of
    line 29: the captured [container], the closure variables
    [trapActive] and [timeoutId] (here: whether the timer is still
    pending) and the two refs of the hook. *)
Record Trap := {
  container : Element;
  options : FocusTrapOptions;
  trapActive : bool;
  timeoutId : bool;
  focusableElementsRef : list Element;
  previousFocusRef : option Element
}.

(** [el.focus()]: the element becomes [document.activeElement] if it
    can take focus; otherwise the call does nothing. *)
Definition focus (el : Element) (g : Global) : Global :=
  if bool_decide (el ∈ unfocusable g) then g
  else {| activeFocusTraps := activeFocusTraps g;
          activeElement := Some el;
          unfocusable := unfocusable g |}.
Arguments focus : simpl never.

(** [activeFocusTraps.push(container)] *)
Definition push (c : Element) (g : Global) : Global :=
  {| activeFocusTraps := activeFocusTraps g ++ [c];
     activeElement := activeElement g;
     unfocusable := unfocusable g |}.

(** [activeFocusTraps.indexOf(container)]: the first index, [None] for -1. *)
Fixpoint indexOf (c : Element) (l : list Element) : option nat :=
  match l with
  | [] => None
  | x :: r => if bool_decide (x = c) then Some 0%nat
              else S <$> indexOf c r
  end.

(** [activeFocusTraps.splice(index, 1)] *)
Definition splice1 (i : nat) (l : list Element) : list Element :=
  take i l ++ drop (S i) l.

(** [activateFocusTrap], lines 39-52. [found] is what
    [getFocusableElements(container)] returns at that moment. *)
Definition activateFocusTrap (found : list Element) (t : Trap) (g : Global)
  : Trap * Global :=
  let t' := {| container := container t; options := options t;
               trapActive := true; timeoutId := false;
               focusableElementsRef := found;
               previousFocusRef := previousFocusRef t |} in
  let g' := push (container t) g in
  match found with
  | [] => (t', g')
  | first :: _ =>
      if initialFocus (options t) then (t', focus first g') else (t', g')
  end.

(** [refreshFocusableElements] behind the guard of the MutationObserver
    callback, lines 94-99. *)
Definition onMutation (found : list Element) (t : Trap) : Trap :=
  if trapActive t then
    {| container := container t; options := options t;
       trapActive := trapActive t; timeoutId := timeoutId t;
       focusableElementsRef := found;
       previousFocusRef := previousFocusRef t |}
  else t.

(** The body of the effect, lines 28-64. [isActive] and [containerRef]
    are the hook's arguments, [prevElements] and [prevFocus] the current
    contents of its two refs. [None]: the effect returned at line 30 and
    registered nothing. *)
Definition effect (isActive : bool) (containerRef : option Element)
    (opts : FocusTrapOptions) (prevElements : list Element)
    (prevFocus : option Element) (found : list Element) (g : Global)
  : option Trap * Global :=
  match containerRef with
  | None => (None, g)
  | Some c =>
      if negb isActive then (None, g)
      else
        let t0 := {| container := c; options := opts;
                     trapActive := false; timeoutId := false;
                     focusableElementsRef := prevElements;
                     previousFocusRef :=
                       if restoreFocus opts then activeElement g
                       else prevFocus |} in
        match delayMs opts with
        | Some d =>
            if bool_decide (0 < d) then
              (Some {| container := c; options := opts;
                       trapActive := false; timeoutId := true;
                       focusableElementsRef := prevElements;
                       previousFocusRef := previousFocusRef t0 |}, g)
            else
              let '(t, g') := activateFocusTrap found t0 g in (Some t, g')
        | None =>
            let '(t, g') := activateFocusTrap found t0 g in (Some t, g')
        end
  end.

(** The timer callback: [activateFocusTrap] once the delay has elapsed. *)
Definition onTimeout (found : list Element) (t : Trap) (g : Global)
  : Trap * Global :=
  if timeoutId t then activateFocusTrap found t g else (t, g).

(** [handleKeyDown], lines 66-92. The boolean is whether
    [e.preventDefault()] was called. *)
Definition handleKeyDown (t : Trap) (e : KeyboardEvent) (g : Global)
  : Global * bool :=
  if negb (bool_decide (key e = "Tab")) then (g, false)
  else if negb (trapActive t)
          || negb (bool_decide (last (activeFocusTraps g) = Some (container t)))
  then (g, false)
  else
    let elements := focusableElementsRef t in
    match elements with
    | [] => (g, false)
    | firstElement :: _ =>
        let lastElement := List.last elements firstElement in
        if shiftKey e && bool_decide (activeElement g = Some firstElement)
        then (focus lastElement g, true)
        else if negb (shiftKey e)
                && bool_decide (activeElement g = Some lastElement)
        then (focus firstElement g, true)
        else (g, false)
    end.

(** The cleanup function of the effect, lines 110-129, as far as it
    touches the shared state. *)
Definition cleanup (t : Trap) (g : Global) : Global :=
  let g1 :=
    if trapActive t then
      match indexOf (container t) (activeFocusTraps g) with
      | Some index =>
          {| activeFocusTraps := splice1 index (activeFocusTraps g);
             activeElement := activeElement g;
             unfocusable := unfocusable g |}
      | None => g
      end
    else g in
  if restoreFocus (options t) then
    match previousFocusRef t with
    | Some el => focus el g1
    | None => g1
    end
  else g1.

(** *** The page: several hooks sharing [activeFocusTraps]

    Every mounted effect is listed with the hook it belongs to, in the
    order in which the [keydown] listeners were added to [document]. The
    two refs of a hook outlive its effects; [refs] keeps them between a
    cleanup and the next run of the effect. *)
Record System := {
  global : Global;
  traps : list (nat * Trap);
  refs : gmap nat (list Element * option Element)
}.

Definition init : System :=
  {| global := {| activeFocusTraps := []; activeElement := None;
                  unfocusable := ∅ |};
     traps := []; refs := ∅ |}.

Fixpoint lookupTrap (h : nat) (ts : list (nat * Trap)) : option Trap :=
  match ts with
  | [] => None
  | (h', t) :: r => if bool_decide (h' = h) then Some t else lookupTrap h r
  end.

Fixpoint updateTrap (h : nat) (t' : Trap) (ts : list (nat * Trap))
  : list (nat * Trap) :=
  match ts with
  | [] => []
  | (h', t) :: r =>
      if bool_decide (h' = h) then (h', t') :: r
      else (h', t) :: updateTrap h t' r
  end.

Fixpoint removeTrap (h : nat) (ts : list (nat * Trap)) : list (nat * Trap) :=
  match ts with
  | [] => []
  | (h', t) :: r =>
      if bool_decide (h' = h) then r else (h', t) :: removeTrap h r
  end.

(** A [keydown] event on [document]: every registered [handleKeyDown]
    runs, in registration order. *)
Fixpoint dispatch (ts : list (nat * Trap)) (e : KeyboardEvent) (g : Global)
  : Global * bool :=
  match ts with
  | [] => (g, false)
  | (_, t) :: r =>
      let '(g1, p1) := handleKeyDown t e g in
      let '(g2, p2) := dispatch r e g1 in
      (g2, p1 || p2)
  end.

(** What can happen on the page. [found] is the result of
    [getFocusableElements(container)] at the time of the event.
    [MoveFocus] is a move of focus that no hook makes: by the user, or by
    the browser when the focused element goes away. [DomChange] is a
    change of the page after which the given elements are the ones that
    cannot take focus. *)
Inductive Event :=
| RunEffect (h : nat) (isActive : bool) (containerRef : option Element)
    (opts : FocusTrapOptions) (found : list Element)
| Timeout (h : nat) (found : list Element)
| Mutation (h : nat) (found : list Element)
| KeyDown (e : KeyboardEvent)
| Cleanup (h : nat)
| MoveFocus (el : option Element)
| DomChange (nowUnfocusable : gset Element).

Definition exec (sys : System) (ev : Event) : System :=
  match ev with
  | RunEffect h isActive cref opts found =>
      let r := default ([], None) (refs sys !! h) in
      match effect isActive cref opts r.1 r.2 found (global sys) with
      | (Some t, g) =>
          {| global := g; traps := traps sys ++ [(h, t)]; refs := refs sys |}
      | (None, g) =>
          {| global := g; traps := traps sys; refs := refs sys |}
      end
  | Timeout h found =>
      match lookupTrap h (traps sys) with
      | Some t =>
          let '(t', g) := onTimeout found t (global sys) in
          {| global := g; traps := updateTrap h t' (traps sys);
             refs := refs sys |}
      | None => sys
      end
  | Mutation h found =>
      match lookupTrap h (traps sys) with
      | Some t =>
          {| global := global sys;
             traps := updateTrap h (onMutation found t) (traps sys);
             refs := refs sys |}
      | None => sys
      end
  | KeyDown e =>
      {| global := (dispatch (traps sys) e (global sys)).1;
         traps := traps sys; refs := refs sys |}
  | Cleanup h =>
      match lookupTrap h (traps sys) with
      | Some t =>
          {| global := cleanup t (global sys);
             traps := removeTrap h (traps sys);
             refs := <[h := (focusableElementsRef t, previousFocusRef t)]>
                       (refs sys) |}
      | None => sys
      end
  | MoveFocus el =>
      {| global := {| activeFocusTraps := activeFocusTraps (global sys);
                      activeElement := el;
                      unfocusable := unfocusable (global sys) |};
         traps := traps sys; refs := refs sys |}
  | DomChange nowUnfocusable =>
      {| global := {| activeFocusTraps := activeFocusTraps (global sys);
                      activeElement := activeElement (global sys);
                      unfocusable := nowUnfocusable |};
         traps := traps sys; refs := refs sys |}
  end.

Definition run (sys : System) (evs : list Event) : System :=
  foldl exec sys evs.

(** React runs the cleanup of a hook's effect before it runs the effect
    again, and every hook is given the ref of a container element of its
    own ([GenericModal] creates [containerRef] itself). *)
Definition wf_event (sys : System) (ev : Event) : bool :=
  match ev with
  | RunEffect h _ cref _ _ =>
      bool_decide (lookupTrap h (traps sys) = None)
      && match cref with
         | Some c => bool_decide (c ∉ (λ p, container p.2) <$> traps sys)
         | None => true
         end
  | _ => true
  end.

Fixpoint wf_trace (sys : System) (evs : list Event) : bool :=
  match evs with
  | [] => true
  | ev :: r => wf_event sys ev && wf_trace (exec sys ev) r
  end.

(** *** The stack as the specification words it

    "The containers of the activated traps in activation order", read off
    the effects' [trapActive] flags alone: a hook leaves the order when
    its trap is no longer activated and joins it at the end when its trap
    has become activated. *)
Definition isActivated (sys : System) (h : nat) : bool :=
  match lookupTrap h (traps sys) with
  | Some t => trapActive t
  | None => false
  end.

Definition orderStep (order : list nat) (sys' : System) : list nat :=
  let kept := filter (λ h, isActivated sys' h = true) order in
  kept ++ filter (λ h, isActivated sys' h = true ∧ h ∉ kept) (traps sys').*1.

Fixpoint activationOrder (sys : System) (order : list nat)
    (evs : list Event) : list nat :=
  match evs with
  | [] => order
  | ev :: r =>
      let sys' := exec sys ev in
      activationOrder sys' (orderStep order sys') r
  end.

Definition containersOf (sys : System) (order : list nat) : list Element :=
  omap (λ h, container <$> lookupTrap h (traps sys)) order.

(** What holds of every page that well-formed events lead to, next to
    the order [order] of the activated hooks. *)
Record Inv (sys : System) (order : list nat) : Prop := {
  inv_hooks : NoDup (traps sys).*1;
  inv_containers : ∀ h1 h2 t1 t2,
    lookupTrap h1 (traps sys) = Some t1 →
    lookupTrap h2 (traps sys) = Some t2 →
    container t1 = container t2 → h1 = h2;
  inv_pending : ∀ h t,
    lookupTrap h (traps sys) = Some t →
    timeoutId t = true → trapActive t = false;
  inv_order_NoDup : NoDup order;
  inv_order : ∀ h, h ∈ order ↔ isActivated sys h = true;
  inv_stack : activeFocusTraps (global sys) = containersOf sys order
}.

(** Sample pages. Two open modals: hook 0 traps focus in container 1 with
    the focusable elements 10 and 11, hook 1 in container 2 with 20 and
    21; focus is on element 11. *)
Definition tabKey : KeyboardEvent := {| key := "Tab"; shiftKey := false |}.

Definition twoModals : System :=
  run init [ RunEffect 0 true (Some 1%nat) defaultOptions [10; 11]%nat;
             RunEffect 1 true (Some 2%nat) defaultOptions [20; 21]%nat;
             MoveFocus (Some 11%nat) ].

(** The same with nothing focusable in the upper modal, and with a delay
    on a third. *)
Definition emptyOnTop : list Event :=
  [ RunEffect 0 true (Some 1%nat) defaultOptions [10; 11]%nat;
    RunEffect 1 true (Some 2%nat) defaultOptions [];
    MoveFocus (Some 11%nat) ].

Definition delayedThird : list Event :=
  [ RunEffect 0 true (Some 1%nat) defaultOptions [10; 11]%nat;
    RunEffect 1 true (Some 2%nat)
      {| initialFocus := true; restoreFocus := true; delayMs := Some 500 |}
      [20; 21]%nat;
    RunEffect 2 true (Some 3%nat) defaultOptions [30]%nat;
    Timeout 1 [20; 21]%nat;
    Cleanup 0;
    KeyDown tabKey ].

(** The two traps of [twoModals] and the stack they are on. *)
Definition lowerTrap : Trap :=
  {| container := 1%nat; options := defaultOptions; trapActive := true;
     timeoutId := false; focusableElementsRef := [10; 11]%nat;
     previousFocusRef := None |}.

Definition upperTrap : Trap :=
  {| container := 2%nat; options := defaultOptions; trapActive := true;
     timeoutId := false; focusableElementsRef := [20; 21]%nat;
     previousFocusRef := None |}.

Definition focusOn (el : Element) : Global :=
  {| activeFocusTraps := [1; 2]%nat; activeElement := Some el;
     unfocusable := ∅ |}.

(** The same stack with focus on element 21 while element 20, the first
    that the upper trap has cached, cannot take focus: a disabled button
    with a tabindex, say, which [getFocusableElements] returns. *)
Definition firstDisabled : Global :=
  {| activeFocusTraps := [1; 2]%nat; activeElement := Some 21%nat;
     unfocusable := {[ 20%nat ]} |}.

(** The options GenericModal passes at line 295:
    [{ delayMs: delayFocusTrap ? 500 : undefined }], so [initialFocus] and
    [restoreFocus] are absent. *)
Definition genericModalTrapOptions (delayFocusTrap : bool)
  : FocusTrapOptions :=
  {| initialFocus := false; restoreFocus := false;
     delayMs := if delayFocusTrap then Some 500 else None |}.

(** An event that is neither a key press, nor a move of focus by the user
    or the browser, nor a change of the page, and, when it runs an effect,
    runs it without [initialFocus] and [restoreFocus], as GenericModal
    does. *)
Definition modalLifecycle (ev : Event) : bool :=
  match ev with
  | RunEffect _ _ _ opts _ =>
      negb (initialFocus opts) && negb (restoreFocus opts)
  | Timeout _ _ | Mutation _ _ | Cleanup _ => true
  | KeyDown _ | MoveFocus _ | DomChange _ => false
  end.

(** The trap on top of the stack, if a mounted trap has that container. *)
Definition topTrap (sys : System) : option Trap :=
  match last (activeFocusTraps (global sys)) with
  | Some c =>
      snd <$> head (filter (λ p, container p.2 = c) (traps sys))
  | None => None
  end.

(** A mounted trap whose options ask neither for an initial focus nor for
    focus to be restored. *)
Definition noFocusOptions (p : nat * Trap) : Prop :=
  initialFocus (options p.2) = false ∧ restoreFocus (options p.2) = false.

(** Hook [h] has an effect mounted that is to restore focus to [el]. *)
Definition keepsPreviousFocus (h : nat) (el : Element) (sys : System)
  : Prop :=
  ∃ t, lookupTrap h (traps sys) = Some t
       ∧ previousFocusRef t = Some el ∧ restoreFocus (options t) = true.

(** Whether the event is the cleanup of hook [h]. *)
Definition isCleanupOf (h : nat) (ev : Event) : bool :=
  match ev with
  | Cleanup h' => bool_decide (h' = h)
  | _ => false
  end.

Definition enterKeyDown : KeyboardEvent :=
  {| key := "Enter"; shiftKey := false |}.

(** A page on which element 5 has focus and no modal is open. *)
Definition focusOnFive : System := run init [MoveFocus (Some 5%nat)].

(** A page with a pending delayed trap above an activated one. *)
Definition pendingSecond : list Event :=
  [ RunEffect 0 true (Some 1%nat) (genericModalTrapOptions false)
      [10; 11]%nat;
    RunEffect 1 true (Some 2%nat) (genericModalTrapOptions true)
      [20; 21]%nat ].

End FocusTrap.

(** ** getFocusableElements and isElementVisible *)
Module Focusable.

(** What [window.getComputedStyle] gives for the three properties read. *)
Record ComputedStyle := {
  display : string;
  visibility : string;
  pointerEvents : string
}.

(** An element as the two functions see it: its tag in lower case, its
    attributes, the size of its bounding client rectangle and its computed
    style. *)
Record Node := {
  tagName : string;
  attributes : gmap string string;
  rectWidth : Z;
  rectHeight : Z;
  computedStyle : ComputedStyle
}.

(** An element in its document: itself and the chain of its
    [parentElement]s, nearest first, up to the root. *)
Record Element := {
  ident : nat;
  self : Node;
  ancestors : list Node
}.

Definition hasAttribute (name : string) (n : Node) : bool :=
  bool_decide (is_Some (attributes n !! name)).

(** The condition of lines 166-169 for one element of the chain. *)
Definition hides (n : Node) : bool :=
  bool_decide (display (computedStyle n) = "none")
  || bool_decide (visibility (computedStyle n) = "hidden")
  || bool_decide (pointerEvents (computedStyle n) = "none")
  || hasAttribute "hidden" n.

(** The loop of lines 163-173 over [currentElement] and its parents. *)
Fixpoint walk (chain : list Node) : bool :=
  match chain with
  | [] => true
  | currentElement :: parents =>
      if hides currentElement then false else walk parents
  end.

(** [isElementVisible], lines 155-175. *)
Definition isElementVisible (element : Element) : bool :=
  if (rectWidth (self element) =? 0) && (rectHeight (self element) =? 0)
  then false
  else walk (self element :: ancestors element).

(** Whether an element matches one of the six selectors of lines
    139-144. *)
Definition matchesSelector (n : Node) : bool :=
  (bool_decide (tagName n = "a") && hasAttribute "href" n)
  || (bool_decide (tagName n = "button") && negb (hasAttribute "disabled" n))
  || (bool_decide (tagName n = "input") && negb (hasAttribute "disabled" n))
  || (bool_decide (tagName n = "select") && negb (hasAttribute "disabled" n))
  || (bool_decide (tagName n = "textarea")
      && negb (hasAttribute "disabled" n))
  || (hasAttribute "tabindex" n
      && negb (bool_decide (attributes n !! "tabindex" = Some "-1"))).

(** [container.querySelectorAll(selector)], given the descendants of the
    container in document order. *)
Definition querySelectorAll (descendants : list Element) : list Element :=
  filter (λ e, matchesSelector (self e) = true) descendants.

(** [getFocusableElements], lines 137-149. *)
Definition getFocusableElements (descendants : list Element)
  : list Element :=
  filter (λ e, isElementVisible e = true) (querySelectorAll descendants).

End Focusable.

(** ** useStackedModal *)
Module StackedModal.

Definition BASE_MODAL_Z_INDEX : Z := 1050.
Definition BASE_BACKDROP_Z_INDEX : Z := 1040.
Definition Z_INDEX_INCREMENT : Z := 10.

(** The inline style properties the hook reads or writes. *)
Record Style := {
  zIndex : string;
  opacity : string;
  transition : string
}.

Record Node := {
  className : list string;
  style : Style
}.

(** The elements of the page in document order; an element is known by
    its position, which the hook never changes. The operations below take
    an [option Document], where [None] stands for
    [typeof document === 'undefined']. *)
Definition Document := list Node.

Definition hasClass (cls : string) (doc : Document) (i : nat) : bool :=
  match doc !! i with
  | Some n => bool_decide (cls ∈ className n)
  | None => false
  end.

(** [document.querySelectorAll('.' + cls)] *)
Definition querySelectorAll (cls : string) (doc : Document) : list nat :=
  filter (λ i, hasClass cls doc i = true) (seq 0 (length doc)).

Definition setZIndex (v : string) (n : Node) : Node :=
  {| className := className n;
     style := {| zIndex := v; opacity := opacity (style n);
                 transition := transition (style n) |} |}.

Definition setOpacity (v : string) (n : Node) : Node :=
  {| className := className n;
     style := {| zIndex := zIndex (style n); opacity := v;
                 transition := transition (style n) |} |}.

Definition setTransition (v : string) (n : Node) : Node :=
  {| className := className n;
     style := {| zIndex := zIndex (style n); opacity := opacity (style n);
                 transition := v |} |}.

(** [el.style.prop = v] for the element at position [i]. *)
Definition write (i : nat) (f : Node → Node) (doc : Document) : Document :=
  match doc !! i with
  | Some n => <[i := f n]> doc
  | None => doc
  end.

(** The two pieces of state and the refs of the hook; [pendingCleanup]
    says whether the last run of the layout effect returned the cleanup
    function of lines 252-270. *)
Record Hook := {
  shouldRenderBackdrop : bool;
  zIndexes : Z * Z;
  backdropRef : option nat;
  originalBackdropZIndexRef : option string;
  originalBackdropOpacityRef : option string;
  pendingCleanup : bool
}.

(** The initial values of [useState] and [useRef], lines 190-203. *)
Definition initial (isStacked : bool) : Hook :=
  {| shouldRenderBackdrop := negb isStacked;
     zIndexes := (BASE_MODAL_Z_INDEX, BASE_BACKDROP_Z_INDEX);
     backdropRef := None;
     originalBackdropZIndexRef := None;
     originalBackdropOpacityRef := None;
     pendingCleanup := false |}.

(** [adjustBackdrop], lines 220-247. *)
Definition adjustBackdrop (h : Hook) (document : option Document)
  : Hook * option Document :=
  let stackedModalZIndex := BASE_MODAL_Z_INDEX + Z_INDEX_INCREMENT in
  let h1 := {| shouldRenderBackdrop := true;
               zIndexes := (stackedModalZIndex, stackedModalZIndex - 1);
               backdropRef := backdropRef h;
               originalBackdropZIndexRef := originalBackdropZIndexRef h;
               originalBackdropOpacityRef := originalBackdropOpacityRef h;
               pendingCleanup := pendingCleanup h |} in
  match document with
  | None => (h1, None)
  | Some doc =>
      let backdrops := querySelectorAll "modal-backdrop" doc in
      match last backdrops with
      | None => (h1, Some doc)
      | Some parentBackdrop =>
          match doc !! parentBackdrop with
          | None => (h1, Some doc)
          | Some n =>
              ({| shouldRenderBackdrop := true;
                  zIndexes := (stackedModalZIndex, stackedModalZIndex - 1);
                  backdropRef := Some parentBackdrop;
                  originalBackdropZIndexRef :=
                    Some (js_or (zIndex (style n))
                                (num_to_string BASE_BACKDROP_Z_INDEX));
                  originalBackdropOpacityRef :=
                    Some (js_or (opacity (style n)) "0.5");
                  pendingCleanup := pendingCleanup h |},
               Some (write parentBackdrop (setOpacity "0")
                       (write parentBackdrop
                          (setTransition "opacity 150ms ease-in-out") doc)))
          end
      end
  end.

(** The body of [useLayoutEffect], lines 204-271. *)
Definition layoutEffect (isStacked isOpen : bool) (h : Hook)
    (document : option Document) : Hook * option Document :=
  if negb isStacked then
    ({| shouldRenderBackdrop := shouldRenderBackdrop h;
        zIndexes := zIndexes h;
        backdropRef := backdropRef h;
        originalBackdropZIndexRef := originalBackdropZIndexRef h;
        originalBackdropOpacityRef := originalBackdropOpacityRef h;
        pendingCleanup := false |}, document)
  else if negb isOpen then
    ({| shouldRenderBackdrop := false;
        zIndexes := (BASE_MODAL_Z_INDEX, BASE_BACKDROP_Z_INDEX);
        backdropRef := backdropRef h;
        originalBackdropZIndexRef := originalBackdropZIndexRef h;
        originalBackdropOpacityRef := originalBackdropOpacityRef h;
        pendingCleanup := false |}, document)
  else
    let '(h', d') := adjustBackdrop h document in
    ({| shouldRenderBackdrop := shouldRenderBackdrop h';
        zIndexes := zIndexes h';
        backdropRef := backdropRef h';
        originalBackdropZIndexRef := originalBackdropZIndexRef h';
        originalBackdropOpacityRef := originalBackdropOpacityRef h';
        pendingCleanup := true |}, d').

(** The cleanup function, lines 252-270. *)
Definition cleanup (h : Hook) (document : option Document)
  : Hook * option Document :=
  match backdropRef h with
  | Some b =>
      let d1 :=
        match originalBackdropZIndexRef h with
        | Some z => if truthy (Some z) then write b (setZIndex z) <$> document
                    else document
        | None => document
        end in
      let d2 :=
        match originalBackdropOpacityRef h with
        | Some o =>
            if truthy (Some o) then
              write b (setOpacity o)
                <$> (write b (setTransition "opacity 150ms ease-in-out")
                       <$> d1)
            else d1
        | None => d1
        end in
      ({| shouldRenderBackdrop := shouldRenderBackdrop h;
          zIndexes := zIndexes h;
          backdropRef := None;
          originalBackdropZIndexRef := None;
          originalBackdropOpacityRef := None;
          pendingCleanup := pendingCleanup h |}, d2)
  | None => (h, document)
  end.

(** What React does around the effect: the cleanup of the previous run,
    if that run returned one, precedes the next run and the unmount. *)
Definition runCleanup (h : Hook) (document : option Document)
  : Hook * option Document :=
  if pendingCleanup h then cleanup h document else (h, document).

Definition mount (isStacked isOpen : bool) (document : option Document)
  : Hook * option Document :=
  layoutEffect isStacked isOpen (initial isStacked) document.

(** A render at which [isOpen] or [isStacked] has changed, the two
    dependencies of the effect: React runs the pending cleanup and then
    the effect. At a render that changes neither React runs nothing, and
    the hook stays as it is. *)
Definition update (isStacked isOpen : bool) (h : Hook)
    (document : option Document) : Hook * option Document :=
  let '(h1, d1) := runCleanup h document in
  layoutEffect isStacked isOpen h1 d1.

Definition unmount (h : Hook) (document : option Document)
  : option Document :=
  (runCleanup h document).2.

(** The value the hook returns at a render; [modalStyle] is the
    [zIndex] of the style object, [None] for the empty object. *)
Record StackedModalResult := {
  res_shouldRenderBackdrop : bool;
  modalStyle : option Z
}.

Definition useStackedModal (isStacked : bool) (h : Hook)
  : StackedModalResult :=
  {| res_shouldRenderBackdrop := shouldRenderBackdrop h;
     modalStyle := if isStacked then Some (zIndexes h).1 else None |}.

(** The prop documentation of [isStacked] in the declaration file of
    GenericModal: "When true, the modal will not render its own
    backdrop". *)
Definition documented_rendersOwnBackdrop (isStacked : bool) : bool :=
  negb isStacked.

(** A page with one open modal: the dialog and, after it in document
    order, the backdrop, which Bootstrap renders without inline styles. *)
Definition unstyled : Style :=
  {| zIndex := ""; opacity := ""; transition := "" |}.


(** A page on which no modal is open yet. *)
Definition pageWithoutBackdrop : Document :=
  [ {| className := ["app"]; style := unstyled |};
    {| className := ["modal"]; style := unstyled |} ].

(** One full life of a stacked modal over a page: it opens and is
    unmounted. *)
Definition openAndClose (document : option Document) : option Document :=
  unmount (mount true true document).1 (mount true true document).2.

(** The hook of one modal through a series of renders at which the
    effect runs again, with the given values of [isOpen]. *)
Definition rerenders (isStacked : bool) (opens : list bool) (h : Hook)
    (document : option Document) : Hook * option Document :=
  foldl (λ hd isOpen, update isStacked isOpen hd.1 hd.2) (h, document) opens.

End StackedModal.

(** ** FooterPagination *)
Module Pagination.

(** What the component renders from its numbers: the three values of the
    legend, absent when [Boolean(total)] is false, and the [disabled]
    attribute of the two buttons. *)
Record View := {
  legend : option (Z * Z * Z);
  prevDisabled : bool;
  nextDisabled : bool
}.

Definition startCount (page itemsPerPage : Z) : Z := jsMul page itemsPerPage.

Definition endCount (page total itemsPerPage : Z) : Z :=
  Z.min (jsAdd (startCount page itemsPerPage) itemsPerPage) total.

(** What a division can give: a number, or, when the divisor is 0, an
    infinity or [NaN]. *)
Inductive Quotient :=
| Finite (n : Z)
| PlusInfinity
| MinusInfinity
| NotANumber.

(** [Math.trunc((total - 1) / itemsPerPage)]: the quotient rounded
    towards zero. *)
Definition totalPages (total itemsPerPage : Z) : Quotient :=
  let dividend := jsSub total 1 in
  if itemsPerPage =? 0 then
    if 0 <? dividend then PlusInfinity
    else if dividend <? 0 then MinusInfinity
    else NotANumber
  else Finite (jsTruncDiv dividend itemsPerPage).

(** [page >= totalPages] *)
Definition atLeast (page : Z) (pages : Quotient) : bool :=
  match pages with
  | Finite n => page >=? n
  | PlusInfinity => false
  | MinusInfinity => true
  | NotANumber => false
  end.

Definition FooterPagination (page total itemsPerPage : Z) : View :=
  {| legend :=
       if bool_decide (total ≠ 0) then
         Some (jsAdd (startCount page itemsPerPage) 1,
               endCount page total itemsPerPage, total)
       else None;
     prevDisabled := page <=? 0;
     nextDisabled := atLeast page (totalPages total itemsPerPage) |}.

End Pagination.

(** ** useMeasurePunchouts *)
Module Punchouts.

(** What [getBoundingClientRect()] returns. *)
Module DOMRect.
Record t := { x : Z; y : Z; width : Z; height : Z }.
End DOMRect.

Module PunchOutOffset.
Record t := { x : Z; y : Z; width : Z; height : Z }.
End PunchOutOffset.

(** The type [Props] of the declaration file: [x] and [y] are optional
    strings, [width] and [height] strings. *)
Module Props.
Record t := {
  x : option string;
  y : option string;
  width : string;
  height : string
}.
End Props.

(** The four [let] variables of the memo callback. *)
Record Bounds := { minX : Z; minY : Z; maxX : Z; maxY : Z }.

Definition start : Bounds :=
  {| minX := MAX_SAFE_INTEGER; minY := MAX_SAFE_INTEGER;
     maxX := MIN_SAFE_INTEGER; maxY := MIN_SAFE_INTEGER |}.

(** One turn of the loop body after the guard, lines 643-654. *)
Definition extend (b : Bounds) (rectangle : DOMRect.t) : Bounds :=
  {| minX := if DOMRect.x rectangle <? minX b
             then DOMRect.x rectangle else minX b;
     minY := if DOMRect.y rectangle <? minY b
             then DOMRect.y rectangle else minY b;
     maxX := if jsAdd (DOMRect.x rectangle) (DOMRect.width rectangle)
                >? maxX b
             then jsAdd (DOMRect.x rectangle) (DOMRect.width rectangle)
             else maxX b;
     maxY := if jsAdd (DOMRect.y rectangle) (DOMRect.height rectangle)
                >? maxY b
             then jsAdd (DOMRect.y rectangle) (DOMRect.height rectangle)
             else maxY b |}.

(** The loop of lines 638-655. The document maps the id of an element
    to its client rectangle; [None] is the [return null] of line 641. *)
Fixpoint scan (document : gmap string DOMRect.t) (elementIds : list string)
    (b : Bounds) : option Bounds :=
  match elementIds with
  | [] => Some b
  | id :: rest =>
      match document !! id with
      | None => None
      | Some rectangle => scan document rest (extend b rectangle)
      end
  end.

(** The memo callback [channelPunchout], lines 633-662, at a render at
    which React runs it: what the hook returns for the document of that
    moment. *)
Definition useMeasurePunchouts (document : gmap string DOMRect.t)
    (elementIds : list string) (offset : option PunchOutOffset.t)
  : option Props.t :=
  match scan document elementIds start with
  | None => None
  | Some b =>
      Some {|
        Props.x := Some (px (jsAdd (minX b)
          match offset with Some o => PunchOutOffset.x o | None => 0 end));
        Props.y := Some (px (jsAdd (minY b)
          match offset with Some o => PunchOutOffset.y o | None => 0 end));
        Props.width := px (jsAdd (jsSub (maxX b) (minX b))
          match offset with Some o => PunchOutOffset.width o | None => 0 end);
        Props.height := px (jsAdd (jsSub (maxY b) (minY b))
          match offset with Some o => PunchOutOffset.height o | None => 0 end)
      |}
  end.

(** *** The bounding box as the specification words it

    Here sums and differences are those of arithmetic, and a number is
    printed by its decimal digits. *)

Definition right (r : DOMRect.t) : Z := DOMRect.x r + DOMRect.width r.
Definition bottom (r : DOMRect.t) : Z := DOMRect.y r + DOMRect.height r.

(** Minimum and maximum of a non-empty list of numbers. *)
Definition minimum (first : Z) (rest : list Z) : Z := foldl Z.min first rest.
Definition maximum (first : Z) (rest : list Z) : Z := foldl Z.max first rest.

(** The smallest axis-aligned box that covers the rectangles, shifted by
    the offset, each number as a pixel string. *)
Definition boundingBox (first : DOMRect.t) (rest : list DOMRect.t)
    (ox oy ow oh : Z) : Props.t :=
  let left := minimum (DOMRect.x first) (DOMRect.x <$> rest) in
  let top := minimum (DOMRect.y first) (DOMRect.y <$> rest) in
  {| Props.x := Some (decimal (left + ox) +:+ "px");
     Props.y := Some (decimal (top + oy) +:+ "px");
     Props.width :=
       decimal ((maximum (right first) (right <$> rest) - left) + ow)
       +:+ "px";
     Props.height :=
       decimal ((maximum (bottom first) (bottom <$> rest) - top) + oh)
       +:+ "px"
  |}.

(** [rectangle.x + rectangle.width] and [rectangle.y + rectangle.height]
    as the loop computes them at lines 649-654. *)
Definition rightEdge (rectangle : DOMRect.t) : Z :=
  jsAdd (DOMRect.x rectangle) (DOMRect.width rectangle).
Definition bottomEdge (rectangle : DOMRect.t) : Z :=
  jsAdd (DOMRect.y rectangle) (DOMRect.height rectangle).

(** A rectangle whose four edges are safe integers. *)
Definition safeRectangle (r : DOMRect.t) : Prop :=
  isSafeInteger (DOMRect.x r) ∧ isSafeInteger (DOMRect.y r)
  ∧ isSafeInteger (right r) ∧ isSafeInteger (bottom r).

(** The extent of the bounding box and its four numbers, shifted by the
    offset, are safe integers. *)
Definition safeBox (first : DOMRect.t) (rest : list DOMRect.t)
    (ox oy ow oh : Z) : Prop :=
  let left := minimum (DOMRect.x first) (DOMRect.x <$> rest) in
  let top := minimum (DOMRect.y first) (DOMRect.y <$> rest) in
  let boxWidth := maximum (right first) (right <$> rest) - left in
  let boxHeight := maximum (bottom first) (bottom <$> rest) - top in
  isSafeInteger boxWidth ∧ isSafeInteger boxHeight
  ∧ isSafeInteger (left + ox) ∧ isSafeInteger (top + oy)
  ∧ isSafeInteger (boxWidth + ow) ∧ isSafeInteger (boxHeight + oh).

(** [offset ? offset.f : 0] *)
Definition offsetOr0 (offset : option PunchOutOffset.t)
    (f : PunchOutOffset.t → Z) : Z :=
  match offset with Some o => f o | None => 0 end.

(** Two elements, the second up and to the left of the first, and an
    offset. *)
Definition twoRects : gmap string DOMRect.t :=
  {[ "channel" := {| DOMRect.x := 40; DOMRect.y := 60;
                     DOMRect.width := 100; DOMRect.height := 20 |};
     "sidebar" := {| DOMRect.x := 0; DOMRect.y := 10;
                     DOMRect.width := 30; DOMRect.height := 200 |} ]}.

(** An element in the corner of the page and an offset whose x is 2^53,
    one beyond [MAX_SAFE_INTEGER]. *)
Definition cornerRect : DOMRect.t :=
  {| DOMRect.x := 1; DOMRect.y := 1;
     DOMRect.width := 2; DOMRect.height := 3 |}.

Definition farOffset : PunchOutOffset.t :=
  {| PunchOutOffset.x := 9007199254740992; PunchOutOffset.y := 0;
     PunchOutOffset.width := 0; PunchOutOffset.height := 0 |}.

(** An element at x = 2^53 that is one pixel wide. *)
Definition farRect : DOMRect.t :=
  {| DOMRect.x := 9007199254740992; DOMRect.y := 1;
     DOMRect.width := 1; DOMRect.height := 3 |}.

(** The rectangles of the listed elements are laid out within half of
    the safe range, so that each edge and each distance between two edges
    is a safe integer. *)
Definition LAYOUT_LIMIT : Z := 4503599627370495.

Definition withinLayout (r : DOMRect.t) : Prop :=
  - LAYOUT_LIMIT ≤ DOMRect.x r ≤ LAYOUT_LIMIT
  ∧ - LAYOUT_LIMIT ≤ DOMRect.y r ≤ LAYOUT_LIMIT
  ∧ - LAYOUT_LIMIT ≤ right r ≤ LAYOUT_LIMIT
  ∧ - LAYOUT_LIMIT ≤ bottom r ≤ LAYOUT_LIMIT.

End Punchouts.

(** ** TourTipBackdrop *)
Module TourTipBackdrop.
Import Punchouts.

(** A template literal prints an absent value as [undefined]. *)
Definition tpl (v : option string) : string := default "undefined" v.

(** The array [vertices], lines 495-513. *)
Definition vertices (overlayPunchOut : option Props.t) : list string :=
  match overlayPunchOut with
  | None => []
  | Some p =>
      let x := tpl (Props.x p) in
      let y := tpl (Props.y p) in
      let width := Props.width p in
      let height := Props.height p in
      [ "0% 0%"; "0% 100%"; "100% 100%"; "100% 0%";
        x +:+ " 0%";
        x +:+ " " +:+ y;
        "calc(" +:+ x +:+ " + " +:+ width +:+ ") " +:+ y;
        "calc(" +:+ x +:+ " + " +:+ width +:+ ") calc(" +:+ y +:+ " + "
          +:+ height +:+ ")";
        x +:+ " calc(" +:+ y +:+ " + " +:+ height +:+ ")";
        x +:+ " " +:+ y;
        x +:+ " 0%";
        "0% 0%" ]
  end.

(** The [clipPath] of the style of the backdrop element, line 515;
    [None] is [undefined]. *)
Definition clipPath (overlayPunchOut : option Props.t) : option string :=
  let vs := vertices overlayPunchOut in
  if bool_decide (length vs = 0%nat) then None
  else Some ("polygon(" +:+ String.concat ", " vs +:+ ")").

(** *** What the polygon means

    The browser reads each vertex as two coordinates. A coordinate of the
    vertices above is a percentage of the extent of the backdrop's box, a
    length, or the [calc] sum of two lengths. *)
Inductive Coord :=
| Percent (p : Z)
| Length (s : string)
| CalcSum (a b : string).

Definition renderCoord (c : Coord) : string :=
  match c with
  | Percent p => num_to_string p +:+ "%"
  | Length s => s
  | CalcSum a b => "calc(" +:+ a +:+ " + " +:+ b +:+ ")"
  end.

Definition renderVertex (v : Coord * Coord) : string :=
  renderCoord v.1 +:+ " " +:+ renderCoord v.2.

(** The vertices of [vertices] before they are printed. *)
Definition vertexTree (p : Props.t) : list (Coord * Coord) :=
  let x := tpl (Props.x p) in
  let y := tpl (Props.y p) in
  let width := Props.width p in
  let height := Props.height p in
  [ (Percent 0, Percent 0); (Percent 0, Percent 100);
    (Percent 100, Percent 100); (Percent 100, Percent 0);
    (Length x, Percent 0);
    (Length x, Length y);
    (CalcSum x width, Length y);
    (CalcSum x width, CalcSum y height);
    (Length x, CalcSum y height);
    (Length x, Length y);
    (Length x, Percent 0);
    (Percent 0, Percent 0) ].

Definition Point : Type := Z * Z.

Section Geometry.
(** How the browser resolves a length to a number of pixels. *)
Variable resolve : string → option Z.

Definition evalCoord (extent : Z) (c : Coord) : option Z :=
  match c with
  | Percent p => Some (p * extent / 100)
  | Length s => resolve s
  | CalcSum a b =>
      match resolve a, resolve b with
      | Some u, Some v => Some (u + v)
      | _, _ => None
      end
  end.

(** A vertex in a box of [w] by [h] pixels. *)
Definition evalVertex (w h : Z) (v : Coord * Coord) : option Point :=
  match evalCoord w v.1, evalCoord h v.2 with
  | Some a, Some b => Some (a, b)
  | _, _ => None
  end.

Definition evalPolygon (w h : Z) (vs : list (Coord * Coord))
  : option (list Point) :=
  mapM (evalVertex w h) vs.
End Geometry.

(** Twice the signed area of the triangle [a], [b], [p]: positive when
    [p] lies to the left of the line from [a] to [b]. *)
Definition isLeft (a b p : Point) : Z :=
  (b.1 - a.1) * (p.2 - a.2) - (p.1 - a.1) * (b.2 - a.2).

(** The contribution of the edge from [a] to [b] to the winding number
    of the polygon around [p]. *)
Definition crossing (p a b : Point) : Z :=
  if a.2 <=? p.2 then
    if (p.2 <? b.2) && (0 <? isLeft a b p) then 1 else 0
  else
    if (b.2 <=? p.2) && (isLeft a b p <? 0) then -1 else 0.

Fixpoint windingFrom (p first : Point) (vs : list Point) : Z :=
  match vs with
  | [] => 0
  | a :: rest =>
      match rest with
      | [] => crossing p a first
      | b :: _ => crossing p a b + windingFrom p first rest
      end
  end.

Definition windingNumber (p : Point) (vs : list Point) : Z :=
  match vs with
  | [] => 0
  | first :: _ => windingFrom p first vs
  end.

Definition double (p : Point) : Point := (2 * p.1, 2 * p.2).

(** The pixel in column [i] and row [j] lies in the polygon, by the
    non-zero fill rule, which is the default of [polygon()]; the pixel
    is sampled at its centre. *)
Definition inPolygon (vs : list Point) (i j : Z) : bool :=
  negb (windingNumber (2 * i + 1, 2 * j + 1) (double <$> vs) =? 0).

(** Which pixels of the backdrop's box of [w] by [h] pixels are painted:
    all of the box without a clip path, the inside of the polygon with
    one. *)
Definition darkened (w h : Z) (clip : option (list Point)) (i j : Z)
  : bool :=
  (0 <=? i) && (i <? w) && (0 <=? j) && (j <? h)
  && match clip with
     | None => true
     | Some vs => inPolygon vs i j
     end.

(** The pixel lies in the rectangle from [(x, y)] to
    [(x + width, y + height)]. *)
Definition inRectangle (x y width height i j : Z) : bool :=
  (x <=? i) && (i <? x + width) && (y <=? j) && (j <? y + height).

(** A resolver for pixel lengths, the only ones [useMeasurePunchouts]
    produces: an integer followed by [px]. *)
Fixpoint stripPx (s : string) : option string :=
  match s with
  | EmptyString => None
  | String c r =>
      if bool_decide (s = "px") then Some EmptyString
      else String c <$> stripPx r
  end.

Definition parsePx (s : string) : option Z :=
  match stripPx s with
  | Some digits => Z.of_int <$> NilZero.int_of_string digits
  | None => None
  end.

(** The region the backdrop is clipped to in a box of [w] by [h] pixels:
    the polygon of the clip path, none without a punch-out. *)
Definition backdropClip (resolve : string → option Z) (w h : Z)
    (overlayPunchOut : option Props.t) : option (list Point) :=
  match overlayPunchOut with
  | Some p => evalPolygon resolve w h (vertexTree p)
  | None => None
  end.

Definition samplePunchOut : Props.t :=
  {| Props.x := Some "10px"; Props.y := Some "20px";
     Props.width := "30px"; Props.height := "5px" |}.

(** A punch-out whose width is negative, so that it reaches from
    [(40, 20)] back to [(10, 25)], and one without [x] and [y], which the
    type [Props] allows. *)
Definition leftwardPunchOut : Props.t :=
  {| Props.x := Some "40px"; Props.y := Some "20px";
     Props.width := "-30px"; Props.height := "5px" |}.

Definition unplacedPunchOut : Props.t :=
  {| Props.x := None; Props.y := None;
     Props.width := "30px"; Props.height := "5px" |}.

End TourTipBackdrop.

(** ** The handlers of GenericModal and TourTip *)
Module GenericModal.

(** How a handler ends: it returns, or a [TypeError] is thrown because
    something that is not a function was called. *)
Inductive Outcome (A : Type) :=
| Returned (a : A)
| Thrown (error : string).
Arguments Returned {A} a.
Arguments Thrown {A} error.

Record KeyEvent := {
  key : string;
  isComposing : bool
}.

Section Handlers.
(** Whatever the callbacks of the embedding application act on. The
    state of the modal itself is out of their reach: [showState] is
    changed through [setShowState] only. *)
Context {World : Type}.

Definition Callback : Type := World → World.

(** [showState] of the component, whether [preventDefault()] was
    called on the event being handled, and the application's state. *)
Record State := {
  showState : bool;
  defaultPrevented : bool;
  world : World
}.

Definition M (A : Type) : Type := State → Outcome (A * State).

#[global] Instance M_ret : MRet M := λ A a s, Returned (a, s).

#[global] Instance M_bind : MBind M := λ A B k m s,
  match m s with
  | Returned (a, s') => k a s'
  | Thrown e => Thrown e
  end.

(** [f()] for a value [f] that may be [undefined]. *)
Definition call (f : option Callback) : M unit :=
  λ s, match f with
       | Some cb =>
           Returned (tt, {| showState := showState s;
                            defaultPrevented := defaultPrevented s;
                            world := cb (world s) |})
       | None => Thrown "TypeError: f is not a function"
       end.

(** [f?.()]: the call behind the absence check. *)
Definition callIfPresent (f : option Callback) : M unit :=
  match f with
  | None => mret tt
  | Some _ => call f
  end.

Definition setShowState (v : bool) : M unit :=
  λ s, Returned (tt, {| showState := v;
                        defaultPrevented := defaultPrevented s;
                        world := world s |}).

Definition preventDefault : M unit :=
  λ s, Returned (tt, {| showState := showState s;
                        defaultPrevented := true;
                        world := world s |}).

Definition when (b : bool) (m : M unit) : M unit :=
  if b then m else mret tt.

(** The props of GenericModal that the handlers read. The two
    [autoClose] props default to [true]. *)
Record Props := {
  autoCloseOnCancelButton : bool;
  autoCloseOnConfirmButton : bool;
  onHide : option Callback;
  handleCancel : option Callback;
  handleConfirm : option Callback;
  handleEnterKeyPress : option Callback;
  handleKeydown : option (KeyEvent → Callback)
}.

(** Lines 290-293. *)
Definition onHideCallback (p : Props) : M unit :=
  setShowState false ;;
  callIfPresent (onHide p).

(** Lines 304-310. *)
Definition handleCancelCallback (p : Props) : M unit :=
  preventDefault ;;
  when (autoCloseOnCancelButton p) (onHideCallback p) ;;
  callIfPresent (handleCancel p).

(** Lines 311-317. *)
Definition handleConfirmCallback (p : Props) : M unit :=
  preventDefault ;;
  when (autoCloseOnConfirmButton p) (onHideCallback p) ;;
  callIfPresent (handleConfirm p).

(** Lines 318-329; the [return] of line 321 leaves the handler. *)
Definition onEnterKeyDown (p : Props) (event : KeyEvent) : M unit :=
  if bool_decide (key event = "Enter") then
    if isComposing event then mret tt
    else
      when (bool_decide (is_Some (handleConfirm p))
            && autoCloseOnConfirmButton p) (onHideCallback p) ;;
      callIfPresent (handleEnterKeyPress p) ;;
      callIfPresent ((λ f, f event) <$> handleKeydown p)
  else
    callIfPresent ((λ f, f event) <$> handleKeydown p).

(** [onJump] of TourTip, lines 549-551: [handleJump] receives the
    event and the step. *)
Definition onJump (handleJump : option (KeyEvent → nat → Callback))
    (event : KeyEvent) (jumpToStep : nat) : M unit :=
  callIfPresent ((λ f, f event jumpToStep) <$> handleJump).

(** The part of the state that belongs to the modal and the event,
    not to the application. *)
Definition modalPart (o : Outcome (unit * State)) : option (bool * bool) :=
  match o with
  | Returned (_, s) => Some (showState s, defaultPrevented s)
  | Thrown _ => None
  end.

Definition completes (o : Outcome (unit * State)) : bool :=
  match o with
  | Returned _ => true
  | Thrown _ => false
  end.

(** Two sets of props that differ in nothing but which callbacks are
    present. *)
Definition sameSettings (p q : Props) : Prop :=
  autoCloseOnCancelButton p = autoCloseOnCancelButton q
  ∧ autoCloseOnConfirmButton p = autoCloseOnConfirmButton q.

(** Whether the Enter key closes the modal: it takes the confirm callback
    as well as the setting. *)
Definition closesOnEnter (p : Props) (event : KeyEvent) : bool :=
  bool_decide (key event = "Enter") && negb (isComposing event)
  && bool_decide (is_Some (handleConfirm p)) && autoCloseOnConfirmButton p.

(** What an optional callback does to the application when it is
    invoked behind its absence check. *)
Definition runIfPresent (f : option Callback) (w : World) : World :=
  match f with
  | Some cb => cb w
  | None => w
  end.

End Handlers.

(** The state [showState] next to the value of [show] that the effect of
    lines 301-303 last ran for: its dependency list is [[show]], so it
    runs after the first render and after a render with another [show]. *)
Record Visibility := {
  lastShow : bool;
  shownState : bool
}.

Definition firstRender (show : bool) : Visibility :=
  {| lastShow := show; shownState := show |}.

Definition render (v : Visibility) (show : bool) : Visibility :=
  if bool_decide (show = lastShow v) then v
  else {| lastShow := show; shownState := show |}.

(** [setShowState(false)] of [onHideCallback]. *)
Definition hide (v : Visibility) : Visibility :=
  {| lastShow := lastShow v; shownState := false |}.

Arguments State : clear implicits.
Arguments Props : clear implicits.
Arguments Callback : clear implicits.

(** An application that only records which callbacks were invoked. *)
Definition logged (name : string) : Callback (list string) :=
  λ w, w ++ [name].

Definition allPresent : Props (list string) :=
  {| autoCloseOnCancelButton := true;
     autoCloseOnConfirmButton := true;
     onHide := Some (logged "onHide");
     handleCancel := Some (logged "handleCancel");
     handleConfirm := Some (logged "handleConfirm");
     handleEnterKeyPress := Some (logged "handleEnterKeyPress");
     handleKeydown := Some (λ _, logged "handleKeydown") |}.

Definition noneProvided : Props (list string) :=
  {| autoCloseOnCancelButton := true;
     autoCloseOnConfirmButton := true;
     onHide := None;
     handleCancel := None;
     handleConfirm := None;
     handleEnterKeyPress := None;
     handleKeydown := None |}.

Definition enterKey : KeyEvent := {| key := "Enter"; isComposing := false |}.

Definition shown : State (list string) :=
  {| showState := true; defaultPrevented := false; world := [] |}.

End GenericModal.

(** ** The skeleton loaders *)
Module Skeleton.

(** A prop that is a number, a string or absent. *)
Inductive Size :=
| SizeNumber (n : Number)
| SizeString (s : string)
| SizeAbsent.

(** [if (size)]: zero, [NaN], the empty string and [undefined] are
    falsy. *)
Definition truthySize (size : Size) : bool :=
  match size with
  | SizeNumber n => truthyNumber n
  | SizeString s => negb (bool_decide (s = ""))
  | SizeAbsent => false
  end.

(** [getCorrectSizeDimension], lines 485-490; [None] is [null]. *)
Definition getCorrectSizeDimension (size : Size) (fallback : option string)
  : option string :=
  match size with
  | SizeString s => if truthySize size then Some s else fallback
  | SizeNumber n =>
      if truthySize size then Some (number_to_string n +:+ "px")
      else fallback
  | SizeAbsent => fallback
  end.

Record RectangleSkeletonLoaderProps := {
  height : Size;
  width : Size;
  borderRadius : option Number;
  margin : option string;
  flex : option string
}.

(** The five interpolations of [RectangleSkeletonLoader], lines
    478-484. *)
Record RectangleCss := {
  css_height : option string;
  css_width : option string;
  css_borderRadius : string;
  css_margin : option string;
  css_flex : option string
}.

Definition RectangleSkeletonLoader (props : RectangleSkeletonLoaderProps)
  : RectangleCss :=
  {| css_height := getCorrectSizeDimension (height props) None;
     css_width := getCorrectSizeDimension (width props) (Some "100%");
     css_borderRadius :=
       number_to_string (default (Int 8) (borderRadius props)) +:+ "px";
     css_margin := margin props;
     css_flex := flex props |}.

End Skeleton.

(** ** The step dots and buttons of TourTip *)
Module TourTip.

(** A dot of the footer: the step its click jumps to and whether it
    carries the classes of the active dot. *)
Record Dot := {
  dataScreen : Z;
  active : bool
}.

(** The body of the loop of lines 556-565 for one value of [dot]. *)
Definition makeDot (step : Z) (dot : Z) : Dot :=
  {| dataScreen := dot; active := bool_decide (dot = step) |}.

(** The loop itself: [count] more turns from [dot] on. *)
Fixpoint dotsFrom (step : Z) (dot : Z) (count : nat) : list Dot :=
  match count with
  | O => []
  | S rest => makeDot step dot :: dotsFrom step (dot + 1) rest
  end.

(** The array [dots], lines 554-566. [tourSteps] is the object of steps,
    given by its values; the loop runs while
    [dot < Object.values(tourSteps).length - 1]. *)
Definition dots (singleTip : bool) (tourSteps : option (list Z)) (step : Z)
  : list Dot :=
  match tourSteps with
  | Some values =>
      if negb singleTip
      then dotsFrom step 0 (Z.to_nat (Z.of_nat (length values) - 1))
      else []
  | None => []
  end.

(** Which parts of the footer are rendered, lines 575-584; the three
    arguments say whether [nextBtn], [prevBtn] are given and the value of
    [showOptOut]. *)
Record Footer := {
  previousButton : bool;
  nextButton : bool;
  optOut : bool
}.

Definition footer (nextBtn prevBtn showOptOut : bool) (step : Z)
  : option Footer :=
  if nextBtn || prevBtn || showOptOut then
    Some {| previousButton := negb (bool_decide (step = 0)) && prevBtn;
            nextButton := nextBtn;
            optOut := showOptOut |}
  else None.

End TourTip.

(** ** useElementAvailable *)
Module ElementAvailable.

(** The state [available] and the ref [checkAvailableInterval], here
    whether an interval is running. *)
Record Hook := {
  available : bool;
  checkAvailableInterval : bool
}.

Definition initial : Hook :=
  {| available := false; checkAvailableInterval := false |}.

(** The body of the effect, lines 598-618, up to the registration of the
    interval. Its dependency list is empty: it runs once, after the first
    render, and returns no cleanup. *)
Definition effect (h : Hook) : Hook :=
  if available h then
    {| available := available h; checkAvailableInterval := false |}
  else if checkAvailableInterval h then h
  else {| available := available h; checkAvailableInterval := true |}.

(** [elementIds.every((x) => document.getElementById(x))], the document
    given by the set of ids it has elements for. *)
Definition allPresent (elementIds : list string) (document : gset string)
  : bool :=
  forallb (λ x, bool_decide (x ∈ document)) elementIds.

(** The callback of the interval, lines 609-617. *)
Definition onInterval (elementIds : list string) (document : gset string)
    (h : Hook) : Hook :=
  if allPresent elementIds document then
    {| available := true; checkAvailableInterval := false |}
  else h.

(** One period of the timer: the callback runs if the interval is still
    registered. *)
Definition tick (elementIds : list string) (h : Hook)
    (document : gset string) : Hook :=
  if checkAvailableInterval h then onInterval elementIds document h else h.

(** The hook after its first render and one period for each of the given
    states of the document. *)
Definition useElementAvailable (elementIds : list string)
    (documents : list (gset string)) : Hook :=
  foldl (tick elementIds) (effect initial) documents.

End ElementAvailable.

(** * Properties *)

(** ** Numbers *)
Module NumberFacts.

(** Safe integers are doubles, and arithmetic that stays among them is
    exact. *)
Lemma fl_exact (z : Z) : isSafeInteger z → fl z = z.
Proof.
  intros [Hlo Hhi]. unfold fl.
  destruct (Z.eq_dec z 0) as [->|Hz]; [reflexivity|].
  assert (Z.log2 (Z.abs z) < 53) as Hlog.
  { apply Z.log2_lt_pow2; [lia|].
    unfold MIN_SAFE_INTEGER, MAX_SAFE_INTEGER in *. lia. }
  destruct (Z.leb_spec (Z.log2 (Z.abs z) + 1) 53); [reflexivity|lia].
Qed.

(** Rounding does not bring a number that is beyond the safe integers
    back among them. *)
Lemma fl_large (z : Z) : MAX_SAFE_INTEGER < z → MAX_SAFE_INTEGER < fl z.
Proof.
  intros Hz. unfold fl. unfold MAX_SAFE_INTEGER in *.
  rewrite Z.abs_eq by lia. rewrite Z.sgn_pos by lia.
  assert (53 ≤ Z.log2 z) as Hlog.
  { apply Z.log2_le_pow2; [lia|].
    change (2 ^ 53) with 9007199254740992. lia. }
  destruct (Z.leb_spec (Z.log2 z + 1) 53) as [Hb|Hb]; [lia|].
  set (sh := Z.log2 z + 1 - 53).
  assert (0 < sh) as Hsh by (unfold sh; lia).
  pose proof (Z.log2_spec z ltac:(lia)) as [Hlo _].
  assert (2 ^ Z.log2 z = 2 ^ 52 * 2 ^ sh) as Hpow.
  { rewrite <- Z.pow_add_r by lia. f_equal. unfold sh. lia. }
  assert (0 < 2 ^ sh) as Hp by (apply Z.pow_pos_nonneg; lia).
  change (2 ^ 52) with 4503599627370496 in *.
  assert (4503599627370496 ≤ z / 2 ^ sh) as Hq.
  { apply Z.div_le_lower_bound; lia. }
  assert (2 ≤ 2 ^ sh) as Hbig.
  { change 2 with (2 ^ 1) at 1. apply Z.pow_le_mono_r; lia. }
  assert (∀ q', z / 2 ^ sh ≤ q' → 9007199254740991 < 1 * (q' * 2 ^ sh))
    as Hres by (intros q' Hq'; nia).
  repeat match goal with
  | |- context [if ?c then _ else _] => destruct c
  end; apply Hres; lia.
Qed.

Lemma truncQuotient_nonneg (a k : Z) :
  0 ≤ a → 0 < k → 0 ≤ truncQuotient a k.
Proof.
  intros Ha Hk. unfold truncQuotient.
  pose proof (Z.div_pos a k Ha Hk) as Hq.
  destruct (Z.eqb_spec (a / k) 0); [by destruct (_ <=? _)|].
  destruct (Z.leb_spec (Z.log2 (a / k) + 1) 53).
  - destruct (_ || _); lia.
  - set (sh := Z.log2 (a / k) + 1 - 53).
    assert (0 < 2 ^ sh) as Hp by (apply Z.pow_pos_nonneg; unfold sh; lia).
    pose proof (Z.div_pos a (k * 2 ^ sh) Ha ltac:(lia)) as Hm.
    repeat match goal with
    | |- context [if ?c then _ else _] => destruct c
    end; nia.
Qed.

(** The quotient of a safe integer is rounded to a double short of the
    next integer, so that [Math.trunc] gives the integer quotient. *)
Lemma truncQuotient_exact (a k : Z) :
  0 ≤ a ≤ MAX_SAFE_INTEGER → 0 < k → truncQuotient a k = a / k.
Proof.
  intros [Ha Hsafe] Hk. unfold truncQuotient, MAX_SAFE_INTEGER in *.
  pose proof (Z.div_pos a k Ha Hk) as Hq.
  pose proof (Z.div_mod a k ltac:(lia)) as Hdm.
  pose proof (Z.mod_pos_bound a k Hk) as Hr.
  destruct (Z.eqb_spec (a / k) 0) as [H0|H0].
  - rewrite H0.
    destruct (Z.leb_spec ((k - a) * 2 ^ 54) k) as [Hle|]; [|done].
    exfalso. rewrite H0 in Hdm.
    assert (a < k) by lia.
    change (2 ^ 54) with 18014398509481984 in Hle. nia.
  - set (q := a / k) in *.
    assert (Z.log2 q < 53) as Hlog.
    { apply Z.log2_lt_pow2; [lia|].
      change (2 ^ 53) with 9007199254740992. nia. }
    destruct (Z.leb_spec (Z.log2 q + 1) 53) as [_|]; [|lia].
    set (b := Z.log2 q + 1) in *.
    pose proof (Z.log2_spec q ltac:(lia)) as [Hlo _].
    pose proof (Z.log2_nonneg q) as Hnn.
    assert (2 ^ Z.log2 q * 2 ^ (54 - b) = 2 ^ 53) as Hpow.
    { rewrite <- Z.pow_add_r by lia. f_equal. lia. }
    assert (0 < 2 ^ (54 - b)) as Hp by (apply Z.pow_pos_nonneg; lia).
    assert (0 < 2 ^ Z.log2 q) as Hp' by (apply Z.pow_pos_nonneg; lia).
    change (2 ^ 53) with 9007199254740992 in Hpow.
    assert (k < 2 ^ (54 - b)) as Hkb by nia.
    assert (k < (k - a `mod` k) * 2 ^ (54 - b)) as Hlhs by nia.
    destruct (Z.ltb_spec ((k - a `mod` k) * 2 ^ (54 - b)) k); [lia|].
    destruct (Z.eqb_spec ((k - a `mod` k) * 2 ^ (54 - b)) k); [lia|].
    reflexivity.
Qed.

Lemma jsTruncDiv_quot (a k : Z) :
  isSafeInteger a → k ≠ 0 → jsTruncDiv a k = a `quot` k.
Proof.
  intros [Hlo Hhi] Hk. unfold jsTruncDiv.
  rewrite truncQuotient_exact
    by (unfold MIN_SAFE_INTEGER, MAX_SAFE_INTEGER in *; lia).
  symmetry. by apply Z.quot_div.
Qed.

Lemma jsTruncDiv_sign (a k : Z) : a ≤ 0 → 0 < k → jsTruncDiv a k ≤ 0.
Proof.
  intros Ha Hk. unfold jsTruncDiv.
  pose proof (truncQuotient_nonneg (Z.abs a) (Z.abs k) ltac:(lia) ltac:(lia)).
  rewrite (Z.sgn_pos k) by lia.
  destruct (Z.eq_dec a 0) as [->|Hne]; [done|].
  rewrite Z.sgn_neg by lia. lia.
Qed.

Lemma num_to_string_decimal (n : Z) :
  Z.abs n < 10 ^ 21 → num_to_string n = decimal n.
Proof.
  intros Hn. unfold num_to_string.
  by destruct (Z.ltb_spec (Z.abs n) (10 ^ 21)); [|lia].
Qed.

Lemma num_to_string_safe (n : Z) :
  isSafeInteger n → num_to_string n = decimal n.
Proof.
  intros [Hlo Hhi]. apply num_to_string_decimal.
  unfold MIN_SAFE_INTEGER, MAX_SAFE_INTEGER in *.
  change (10 ^ 21) with 1000000000000000000000. lia.
Qed.

Lemma jsAdd_exact (a b : Z) : isSafeInteger (a + b) → jsAdd a b = a + b.
Proof. apply fl_exact. Qed.

Lemma jsSub_exact (a b : Z) : isSafeInteger (a - b) → jsSub a b = a - b.
Proof. apply fl_exact. Qed.

Lemma jsMul_exact (a b : Z) : isSafeInteger (a * b) → jsMul a b = a * b.
Proof. apply fl_exact. Qed.

End NumberFacts.

(** ** FooterPagination *)
Module PaginationFacts.
Import Pagination NumberFacts.

(** For a total that is a safe integer and a positive page size, the last
    page index is the integer quotient, rounded down. *)
Lemma totalPages_floor (total itemsPerPage : Z) :
  1 ≤ total ≤ MAX_SAFE_INTEGER → 1 ≤ itemsPerPage →
  totalPages total itemsPerPage = Finite ((total - 1) / itemsPerPage).
Proof.
  intros Ht Hk. unfold totalPages.
  assert (isSafeInteger (total - 1)) as Hsafe.
  { unfold isSafeInteger, MIN_SAFE_INTEGER, MAX_SAFE_INTEGER in *. lia. }
  rewrite jsSub_exact by done.
  destruct (Z.eqb_spec itemsPerPage 0); [lia|].
  rewrite jsTruncDiv_quot by (done || lia).
  f_equal. apply Z.quot_div_nonneg; lia.
Qed.

(** The last page index is the greatest page whose first item exists. *)
Lemma last_page_first_item (page total itemsPerPage : Z) :
  0 ≤ page → 1 ≤ total → 1 ≤ itemsPerPage →
  page ≤ (total - 1) / itemsPerPage ↔ page * itemsPerPage + 1 ≤ total.
Proof.
  intros Hp Ht Hk. split; intros H.
  - assert (page * itemsPerPage ≤ (total - 1) / itemsPerPage * itemsPerPage)
      by nia.
    pose proof (Z.mul_div_le (total - 1) itemsPerPage ltac:(lia)). lia.
  - apply Z.div_le_lower_bound; lia.
Qed.

Lemma startCount_exact (page itemsPerPage : Z) :
  isSafeInteger (page * itemsPerPage) →
  startCount page itemsPerPage = page * itemsPerPage.
Proof. apply jsMul_exact. Qed.

(** The end of the range is exact as soon as its start and the total
    are: a sum beyond the safe integers stays above the total. *)
Lemma endCount_exact (page total itemsPerPage : Z) :
  0 ≤ page * itemsPerPage ≤ MAX_SAFE_INTEGER → 1 ≤ itemsPerPage →
  total ≤ MAX_SAFE_INTEGER →
  endCount page total itemsPerPage
  = Z.min (page * itemsPerPage + itemsPerPage) total.
Proof.
  intros Hs Hk Ht. unfold endCount.
  rewrite startCount_exact
    by (unfold isSafeInteger, MIN_SAFE_INTEGER, MAX_SAFE_INTEGER in *; lia).
  destruct (Z.le_gt_cases (page * itemsPerPage + itemsPerPage)
              MAX_SAFE_INTEGER) as [Hle|Hgt].
  - rewrite jsAdd_exact; [done|].
    unfold isSafeInteger, MIN_SAFE_INTEGER, MAX_SAFE_INTEGER in *. lia.
  - pose proof (fl_large _ Hgt) as Hfl. unfold jsAdd. lia.
Qed.

(** C4, as the code has it: for integers page p >= 0, total t >= 1 and
    itemsPerPage k >= 1 with t and p*k + k at most MAX_SAFE_INTEGER the
    legend shows the range p*k + 1 to min(p*k + k, t) of t, the last page
    index is trunc((t - 1) / k), Previous is disabled exactly when
    p <= 0 and Next exactly when p >= trunc((t - 1) / k). *)
Theorem pagination_math (p t k : Z) :
  0 ≤ p → 1 ≤ t ≤ MAX_SAFE_INTEGER → 1 ≤ k →
  p * k + k ≤ MAX_SAFE_INTEGER →
  legend (FooterPagination p t k) = Some (p * k + 1, Z.min (p * k + k) t, t)
  ∧ totalPages t k = Finite ((t - 1) `quot` k)
  ∧ (prevDisabled (FooterPagination p t k) = true ↔ p ≤ 0)
  ∧ (nextDisabled (FooterPagination p t k) = true ↔ p >= (t - 1) `quot` k).
Proof.
  intros Hp Ht Hk Hsafe.
  assert (0 ≤ p * k) as Hpk by nia.
  assert (totalPages t k = Finite ((t - 1) `quot` k)) as Hpages.
  { rewrite totalPages_floor by done. f_equal.
    symmetry. apply Z.quot_div_nonneg; lia. }
  unfold FooterPagination; simpl.
  split; [|split; [done|split]].
  - rewrite bool_decide_true by lia.
    rewrite endCount_exact by lia.
    rewrite startCount_exact
      by (unfold isSafeInteger, MIN_SAFE_INTEGER, MAX_SAFE_INTEGER in *;
          lia).
    rewrite jsAdd_exact; [done|].
    unfold isSafeInteger, MIN_SAFE_INTEGER, MAX_SAFE_INTEGER in *. lia.
  - apply Z.leb_le.
  - rewrite Hpages. simpl. rewrite Z.geb_leb, Z.leb_le. lia.
Qed.

Lemma pagination_math_witness :
  legend (FooterPagination 2 25 10) = Some (21, 25, 25)
  ∧ totalPages 25 10 = Finite 2
  ∧ nextDisabled (FooterPagination 2 25 10) = true.
Proof.
  destruct (pagination_math 2 25 10) as (Hl & Ht & _ & Hn);
    [lia|unfold MAX_SAFE_INTEGER; lia|lia|unfold MAX_SAFE_INTEGER; lia|].
  split; [exact Hl|]. split; [exact Ht|].
  apply Hn. vm_compute. discriminate.
Defined.

(** C4 as stated fails: page, total and itemsPerPage are doubles, and
    beyond 2^53 the sums of the component are rounded. On page 2^53 of
    2^53 items, one per page, the legend starts at 2^53 and not at
    p*k + 1; and with 2^53 + 2 items Next is disabled on page 2^53
    although that page is below trunc((t - 1) / k) = 2^53 + 1. *)
Lemma pagination_counterexample :
  fl 9007199254740992 = 9007199254740992
  ∧ fl 9007199254740994 = 9007199254740994
  ∧ legend (FooterPagination 9007199254740992 9007199254740992 1)
    = Some (9007199254740992, 9007199254740992, 9007199254740992)
  ∧ 9007199254740992 * 1 + 1 = 9007199254740993
  ∧ nextDisabled (FooterPagination 9007199254740992 9007199254740994 1)
    = true
  ∧ (9007199254740994 - 1) `quot` 1 = 9007199254740993
  ∧ ¬ 9007199254740992 >= (9007199254740994 - 1) `quot` 1.
Proof.
  do 6 (split; [vm_compute; reflexivity|]).
  vm_compute. intros H. by apply H.
Qed.

End PaginationFacts.

(** ** useMeasurePunchouts *)
Module PunchoutsFacts.
Import Punchouts NumberFacts.

(** The loop returns [null] as soon as an id is missing, whatever the
    bounds collected so far. *)
Lemma scan_None (document : gmap string DOMRect.t) (ids : list string)
    (b : Bounds) :
  scan document ids b = None ↔ ∃ id, id ∈ ids ∧ document !! id = None.
Proof.
  revert b. induction ids as [|id ids IH]; intros b; simpl.
  - split; [discriminate|]. intros (id & Hin & _). inversion Hin.
  - destruct (document !! id) as [r|] eqn:Hid.
    + rewrite IH. split.
      * intros (i & Hi & Hn). exists i. split; [by right|done].
      * intros (i & Hi & Hn). apply elem_of_cons in Hi as [->|Hi].
        -- congruence.
        -- by exists i.
    + split; [|done]. intros _. exists id. split; [by left|done].
Qed.

(** When every id is found, the loop folds [extend] over the
    rectangles. *)
Lemma scan_found (document : gmap string DOMRect.t) (ids : list string)
    (rs : list DOMRect.t) (b : Bounds) :
  mapM (λ id, document !! id) ids = Some rs →
  scan document ids b = Some (foldl extend b rs).
Proof.
  revert rs b. induction ids as [|id ids IH]; intros rs b H;
    apply mapM_Some in H.
  - by inversion H.
  - inversion H as [|? r ? rs' Hr Hrs]; subst. simpl.
    rewrite Hr. apply IH. by apply mapM_Some.
Qed.

Lemma extend_fold (b : Bounds) (rs : list DOMRect.t) :
  minX (foldl extend b rs) = foldl Z.min (minX b) (DOMRect.x <$> rs)
  ∧ minY (foldl extend b rs) = foldl Z.min (minY b) (DOMRect.y <$> rs)
  ∧ maxX (foldl extend b rs) = foldl Z.max (maxX b) (rightEdge <$> rs)
  ∧ maxY (foldl extend b rs) = foldl Z.max (maxY b) (bottomEdge <$> rs).
Proof.
  revert b. induction rs as [|r rs IH]; intros b; simpl; [done|].
  destruct (IH (extend b r)) as (-> & -> & -> & ->).
  unfold extend, rightEdge, bottomEdge; simpl.
  repeat split; f_equal.
  - destruct (Z.ltb_spec (DOMRect.x r) (minX b)); lia.
  - destruct (Z.ltb_spec (DOMRect.y r) (minY b)); lia.
  - rewrite Z.gtb_ltb.
    destruct (Z.ltb_spec (maxX b) (jsAdd (DOMRect.x r) (DOMRect.width r)));
      lia.
  - rewrite Z.gtb_ltb.
    destruct (Z.ltb_spec (maxY b) (jsAdd (DOMRect.y r) (DOMRect.height r)));
      lia.
Qed.

Lemma foldl_min_start (m a : Z) (l : list Z) :
  foldl Z.min (Z.min m a) l = Z.min m (foldl Z.min a l).
Proof.
  revert a. induction l as [|c l IH]; intros a; simpl; [done|].
  rewrite <- IH. f_equal. lia.
Qed.

Lemma foldl_max_start (m a : Z) (l : list Z) :
  foldl Z.max (Z.max m a) l = Z.max m (foldl Z.max a l).
Proof.
  revert a. induction l as [|c l IH]; intros a; simpl; [done|].
  rewrite <- IH. f_equal. lia.
Qed.

Lemma foldl_min_le (a : Z) (l : list Z) : foldl Z.min a l ≤ a.
Proof.
  revert a. induction l as [|c l IH]; intros a; simpl; [lia|].
  pose proof (IH (Z.min a c)). lia.
Qed.

Lemma foldl_max_ge (a : Z) (l : list Z) : a ≤ foldl Z.max a l.
Proof.
  revert a. induction l as [|c l IH]; intros a; simpl; [lia|].
  pose proof (IH (Z.max a c)). lia.
Qed.

(** What the sentinels do to the result: the collected minimum never
    exceeds [MAX_SAFE_INTEGER], the maximum never falls below
    [MIN_SAFE_INTEGER]. *)
Lemma start_fold (r : DOMRect.t) (rs : list DOMRect.t) :
  let b := foldl extend start (r :: rs) in
  minX b = Z.min MAX_SAFE_INTEGER (minimum (DOMRect.x r) (DOMRect.x <$> rs))
  ∧ minY b = Z.min MAX_SAFE_INTEGER (minimum (DOMRect.y r) (DOMRect.y <$> rs))
  ∧ maxX b
    = Z.max MIN_SAFE_INTEGER (maximum (rightEdge r) (rightEdge <$> rs))
  ∧ maxY b
    = Z.max MIN_SAFE_INTEGER (maximum (bottomEdge r) (bottomEdge <$> rs)).
Proof.
  intros b. subst b.
  destruct (extend_fold start (r :: rs)) as (-> & -> & -> & ->).
  unfold minimum, maximum. simpl.
  rewrite <- !foldl_min_start, <- !foldl_max_start. done.
Qed.

(** The edges of a rectangle with safe edges are computed exactly. *)
Lemma safe_edges (r : DOMRect.t) :
  safeRectangle r → rightEdge r = right r ∧ bottomEdge r = bottom r.
Proof.
  intros (_ & _ & Hr & Hb). unfold rightEdge, bottomEdge.
  by rewrite !jsAdd_exact.
Qed.

Lemma safe_edges_all (rs : list DOMRect.t) :
  Forall safeRectangle rs →
  rightEdge <$> rs = right <$> rs ∧ bottomEdge <$> rs = bottom <$> rs.
Proof.
  induction 1 as [|r rs Hr _ [IH1 IH2]]; [done|].
  destruct (safe_edges r Hr) as [H1 H2].
  cbn [fmap list_fmap]. split; f_equal; done.
Qed.

(** C5, as the code has it: for a non-empty list of ids that are all in
    the document, rectangles whose edges are safe integers and a bounding
    box whose extent and whose four numbers, shifted by the offset, are
    safe integers, the hook returns the bounding box of the rectangles
    shifted by the offset, as pixel strings; without an offset the four
    offset terms are 0. *)
Theorem bounding_box_in_safe_range (document : gmap string DOMRect.t)
    (id : string) (ids : list string) (r : DOMRect.t)
    (rs : list DOMRect.t) (offset : option PunchOutOffset.t) :
  document !! id = Some r →
  mapM (λ i, document !! i) ids = Some rs →
  Forall safeRectangle (r :: rs) →
  safeBox r rs
    (offsetOr0 offset PunchOutOffset.x) (offsetOr0 offset PunchOutOffset.y)
    (offsetOr0 offset PunchOutOffset.width)
    (offsetOr0 offset PunchOutOffset.height) →
  useMeasurePunchouts document (id :: ids) offset
  = Some (boundingBox r rs
            (offsetOr0 offset PunchOutOffset.x)
            (offsetOr0 offset PunchOutOffset.y)
            (offsetOr0 offset PunchOutOffset.width)
            (offsetOr0 offset PunchOutOffset.height))
  ∧ offsetOr0 None PunchOutOffset.x = 0
  ∧ offsetOr0 None PunchOutOffset.y = 0
  ∧ offsetOr0 None PunchOutOffset.width = 0
  ∧ offsetOr0 None PunchOutOffset.height = 0.
Proof.
  intros Hr Hrs Hsafe Hbox.
  split; [|done].
  unfold useMeasurePunchouts.
  rewrite (scan_found document (id :: ids) (r :: rs)).
  2:{ apply mapM_Some. constructor; [done|]. by apply mapM_Some. }
  destruct (start_fold r rs) as (-> & -> & -> & ->).
  apply Forall_cons in Hsafe as [Hfirst Hrest].
  destruct (safe_edges r Hfirst) as [-> ->].
  destruct (safe_edges_all rs Hrest) as [-> ->].
  destruct Hfirst as (Hx & Hy & Hright & Hbottom).
  pose proof (foldl_min_le (DOMRect.x r) (DOMRect.x <$> rs)) as Hminx.
  pose proof (foldl_min_le (DOMRect.y r) (DOMRect.y <$> rs)) as Hminy.
  pose proof (foldl_max_ge (right r) (right <$> rs)) as Hmaxx.
  pose proof (foldl_max_ge (bottom r) (bottom <$> rs)) as Hmaxy.
  fold (minimum (DOMRect.x r) (DOMRect.x <$> rs)) in Hminx.
  fold (minimum (DOMRect.y r) (DOMRect.y <$> rs)) in Hminy.
  fold (maximum (right r) (right <$> rs)) in Hmaxx.
  fold (maximum (bottom r) (bottom <$> rs)) in Hmaxy.
  rewrite !Z.min_r, !Z.max_r by (unfold isSafeInteger in *; lia).
  destruct Hbox as (Hw & Hh & Hox & Hoy & How & Hoh).
  unfold boundingBox, px.
  fold (offsetOr0 offset PunchOutOffset.x) (offsetOr0 offset PunchOutOffset.y)
    (offsetOr0 offset PunchOutOffset.width)
    (offsetOr0 offset PunchOutOffset.height).
  rewrite (jsSub_exact _ _ Hw), (jsSub_exact _ _ Hh).
  rewrite (jsAdd_exact _ _ Hox), (jsAdd_exact _ _ Hoy),
    (jsAdd_exact _ _ How), (jsAdd_exact _ _ Hoh).
  by rewrite !num_to_string_safe.
Qed.

Lemma bounding_box_in_safe_range_witness :
  useMeasurePunchouts twoRects ["channel"; "sidebar"]
    (Some {| PunchOutOffset.x := -2; PunchOutOffset.y := 3;
             PunchOutOffset.width := 4; PunchOutOffset.height := 5 |})
  = Some {| Props.x := Some "-2px"; Props.y := Some "13px";
            Props.width := "144px"; Props.height := "205px" |}.
Proof.
  destruct (bounding_box_in_safe_range twoRects "channel" ["sidebar"]
    {| DOMRect.x := 40; DOMRect.y := 60;
       DOMRect.width := 100; DOMRect.height := 20 |}
    [{| DOMRect.x := 0; DOMRect.y := 10;
        DOMRect.width := 30; DOMRect.height := 200 |}]
    (Some {| PunchOutOffset.x := -2; PunchOutOffset.y := 3;
             PunchOutOffset.width := 4; PunchOutOffset.height := 5 |}))
    as [H _]; [reflexivity|reflexivity| |vm_compute; intuition discriminate|].
  - repeat constructor; vm_compute; discriminate.
  - rewrite H. vm_compute. reflexivity.
Defined.

(** C5 as stated fails: the offset is a number of the caller's, and
    with an x offset of 2^53 the x returned for an element at x = 1 is
    the double nearest to the sum, '9007199254740992px', and not the
    sum. *)
Lemma bounding_box_counterexample :
  ({[ "corner" := cornerRect ]} : gmap string DOMRect.t) !! "corner"
  = Some cornerRect
  ∧ fl (PunchOutOffset.x farOffset) = PunchOutOffset.x farOffset
  ∧ useMeasurePunchouts {[ "corner" := cornerRect ]} ["corner"]
      (Some farOffset)
    = Some {| Props.x := Some "9007199254740992px"; Props.y := Some "1px";
              Props.width := "2px"; Props.height := "3px" |}
  ∧ boundingBox cornerRect [] (PunchOutOffset.x farOffset)
      (PunchOutOffset.y farOffset) (PunchOutOffset.width farOffset)
      (PunchOutOffset.height farOffset)
    = {| Props.x := Some "9007199254740993px"; Props.y := Some "1px";
         Props.width := "2px"; Props.height := "3px" |}
  ∧ useMeasurePunchouts {[ "corner" := cornerRect ]} ["corner"]
      (Some farOffset)
    ≠ Some (boundingBox cornerRect [] (PunchOutOffset.x farOffset)
              (PunchOutOffset.y farOffset) (PunchOutOffset.width farOffset)
              (PunchOutOffset.height farOffset)).
Proof.
  split; [reflexivity|]. do 3 (split; [vm_compute; reflexivity|]).
  vm_compute. discriminate.
Qed.

(** C6: the hook returns null exactly when some id of [elementIds] has
    no element in the document; a result, when there is one, is
    complete. *)
Theorem null_iff_missing (document : gmap string DOMRect.t)
    (elementIds : list string) (offset : option PunchOutOffset.t) :
  (useMeasurePunchouts document elementIds offset = None
   ↔ ∃ id, id ∈ elementIds ∧ document !! id = None)
  ∧ (∀ p, useMeasurePunchouts document elementIds offset = Some p →
       is_Some (Props.x p) ∧ is_Some (Props.y p)
       ∧ ∀ id, id ∈ elementIds → is_Some (document !! id)).
Proof.
  split.
  - rewrite <- (scan_None document elementIds start).
    unfold useMeasurePunchouts.
    destruct (scan document elementIds start); split; done.
  - intros p Hp.
    assert (scan document elementIds start ≠ None) as Hs.
    { unfold useMeasurePunchouts in Hp. intros Hn. by rewrite Hn in Hp. }
    unfold useMeasurePunchouts in Hp.
    destruct (scan document elementIds start) as [b|] eqn:Hb; [|done].
    injection Hp as <-. simpl. split; [by eexists|]. split; [by eexists|].
    intros id Hin. destruct (document !! id) eqn:Hid; [by eexists|].
    exfalso. rewrite <- Hb in Hs. apply Hs. apply scan_None. by exists id.
Qed.

End PunchoutsFacts.

(** ** useStackedModal *)
Module StackedModalFacts.
Import StackedModal.

Lemma write_lookup (i : nat) (f : Node → Node) (doc : Document) :
  write i f doc !! i = f <$> doc !! i.
Proof.
  unfold write. destruct (doc !! i) as [n|] eqn:Hn; simpl.
  - apply list_lookup_insert_eq. by eapply lookup_lt_Some.
  - done.
Qed.

Lemma write_lookup_ne (i j : nat) (f : Node → Node) (doc : Document) :
  j ≠ i → write i f doc !! j = doc !! j.
Proof.
  intros Hne. unfold write. destruct (doc !! i); [|done].
  by apply list_lookup_insert_ne.
Qed.

(** The value saved by [a || b] is never the empty string, so the two
    guards of the cleanup always pass. *)
Lemma js_or_nonempty (a b : string) : b ≠ "" → js_or a b ≠ "".
Proof. intros Hb. unfold js_or. by case_bool_decide. Qed.

(** What opening a stacked modal leaves behind when the page has a
    backdrop at position [b]. *)
Lemma open_with_backdrop (doc : Document) (b : nat) (n : Node) (h : Hook) :
  last (querySelectorAll "modal-backdrop" doc) = Some b →
  doc !! b = Some n →
  layoutEffect true true h (Some doc)
  = ({| shouldRenderBackdrop := true; zIndexes := (1060, 1059);
        backdropRef := Some b;
        originalBackdropZIndexRef := Some (js_or (zIndex (style n)) "1040");
        originalBackdropOpacityRef := Some (js_or (opacity (style n)) "0.5");
        pendingCleanup := true |},
     Some (write b (setOpacity "0")
             (write b (setTransition "opacity 150ms ease-in-out") doc))).
Proof.
  intros Hlast Hn. unfold layoutEffect, adjustBackdrop. simpl.
  rewrite Hlast, Hn. reflexivity.
Qed.




(** What the layout effect of a stacked modal leaves in
    [shouldRenderBackdrop]: the value of [isOpen]. *)
Lemma layoutEffect_backdrop (h : Hook) (document : option Document)
    (isOpen : bool) :
  shouldRenderBackdrop (layoutEffect true isOpen h document).1 = isOpen.
Proof.
  destruct isOpen; unfold layoutEffect; simpl; [|done].
  unfold adjustBackdrop. destruct document as [doc|]; [|done].
  destruct (last _) as [pb|]; [|done].
  by destruct (doc !! pb).
Qed.

Lemma update_backdrop (h : Hook) (document : option Document)
    (isOpen : bool) :
  shouldRenderBackdrop (update true isOpen h document).1 = isOpen.
Proof.
  unfold update. destruct (runCleanup h document) as [h1 d1].
  apply layoutEffect_backdrop.
Qed.

(** C9: once the layout effect of a stacked modal has run,
    [shouldRenderBackdrop] is true when the modal is open and false when
    it is closed, on mount, on every later run of the effect and at the
    end of every series of such runs; before the effect has run it is
    false. For an open stacked modal this is the opposite of what the
    prop documentation of [isStacked] says. *)
Theorem stacked_backdrop_follows_open (h : Hook)
    (document : option Document) (opens : list bool) :
  res_shouldRenderBackdrop
    (useStackedModal true (mount true true document).1) = true
  ∧ res_shouldRenderBackdrop
      (useStackedModal true (mount true false document).1) = false
  ∧ res_shouldRenderBackdrop
      (useStackedModal true (update true true h document).1) = true
  ∧ res_shouldRenderBackdrop
      (useStackedModal true (update true false h document).1) = false
  ∧ (∀ isOpen,
       res_shouldRenderBackdrop
         (useStackedModal true
            (rerenders true (opens ++ [isOpen]) h document).1) = isOpen)
  ∧ res_shouldRenderBackdrop (useStackedModal true (initial true)) = false
  ∧ res_shouldRenderBackdrop
      (useStackedModal true (mount true true document).1)
    ≠ documented_rendersOwnBackdrop true.
Proof.
  unfold mount. simpl. rewrite !layoutEffect_backdrop, !update_backdrop.
  repeat split; try done.
  intros isOpen. unfold rerenders. rewrite foldl_app. simpl.
  apply update_backdrop.
Qed.

End StackedModalFacts.


(** ** The handlers of GenericModal and TourTip *)
Module GenericModalFacts.
Import GenericModal.

Section Guards.
Context {World : Type}.
Implicit Types (p q : Props World) (s : State World) (event : KeyEvent).

(** A call behind the absence check always returns, and an absent
    callback leaves everything as it is. *)
Lemma callIfPresent_returns (f : option (Callback World)) s :
  callIfPresent f s
  = Returned (tt, {| showState := showState s;
                     defaultPrevented := defaultPrevented s;
                     world := runIfPresent f (world s) |}).
Proof. destruct f, s; reflexivity. Qed.

Lemma onHideCallback_returns p s :
  onHideCallback p s
  = Returned (tt, {| showState := false;
                     defaultPrevented := defaultPrevented s;
                     world := runIfPresent (onHide p) (world s) |}).
Proof.
  unfold onHideCallback, mbind, M_bind, setShowState.
  by rewrite callIfPresent_returns.
Qed.

Lemma handleCancelCallback_returns p s :
  handleCancelCallback p s
  = Returned (tt, {|
      showState := if autoCloseOnCancelButton p then false else showState s;
      defaultPrevented := true;
      world := runIfPresent (handleCancel p)
                 (if autoCloseOnCancelButton p
                  then runIfPresent (onHide p) (world s) else world s) |}).
Proof.
  unfold handleCancelCallback, mbind, M_bind, preventDefault, when.
  destruct (autoCloseOnCancelButton p).
  - by rewrite onHideCallback_returns, callIfPresent_returns.
  - unfold mret, M_ret. by rewrite callIfPresent_returns.
Qed.

Lemma handleConfirmCallback_returns p s :
  handleConfirmCallback p s
  = Returned (tt, {|
      showState := if autoCloseOnConfirmButton p then false else showState s;
      defaultPrevented := true;
      world := runIfPresent (handleConfirm p)
                 (if autoCloseOnConfirmButton p
                  then runIfPresent (onHide p) (world s) else world s) |}).
Proof.
  unfold handleConfirmCallback, mbind, M_bind, preventDefault, when.
  destruct (autoCloseOnConfirmButton p).
  - by rewrite onHideCallback_returns, callIfPresent_returns.
  - unfold mret, M_ret. by rewrite callIfPresent_returns.
Qed.

Lemma onEnterKeyDown_returns p event s :
  onEnterKeyDown p event s
  = Returned (tt, {|
      showState := if closesOnEnter p event then false else showState s;
      defaultPrevented := defaultPrevented s;
      world :=
        if bool_decide (key event = "Enter") then
          if isComposing event then world s
          else
            runIfPresent ((λ f, f event) <$> handleKeydown p)
              (runIfPresent (handleEnterKeyPress p)
                 (if closesOnEnter p event
                  then runIfPresent (onHide p) (world s) else world s))
        else runIfPresent ((λ f, f event) <$> handleKeydown p) (world s) |}).
Proof.
  unfold onEnterKeyDown, closesOnEnter.
  case_bool_decide as Hk; simpl.
  - destruct (isComposing event); simpl.
    { destruct s; reflexivity. }
    unfold mbind, M_bind, when.
    destruct (bool_decide (is_Some (handleConfirm p))
              && autoCloseOnConfirmButton p) eqn:Hc; rewrite ?Hc.
    + by rewrite onHideCallback_returns, !callIfPresent_returns.
    + unfold mret, M_ret. by rewrite !callIfPresent_returns.
  - rewrite callIfPresent_returns. reflexivity.
Qed.

(** C8, as the code has it: whichever optional callbacks are absent, the
    handlers of GenericModal and [onJump] of TourTip return without an
    error. Each of them does exactly what its present callbacks do to the
    application, in the order of the source, an absent callback
    contributing nothing: [onHide] runs when the handler closes the
    modal, then the handler's own callback, whether or not the other is
    there. What the handlers do to the modal (closing it, preventing the
    default) is the same for any two sets of props with equal settings,
    with one exception: the Enter key closes the modal only when
    [handleConfirm] is present, so for [onEnterKeyDown] the two sets of
    props must agree on the presence of [handleConfirm]. *)
Theorem absent_callbacks_guarded p q event s
    (handleJump handleJump' : option (KeyEvent → nat → Callback World))
    (jumpToStep : nat) :
  sameSettings p q →
  (onHideCallback p s
   = Returned (tt, {| showState := false;
                      defaultPrevented := defaultPrevented s;
                      world := runIfPresent (onHide p) (world s) |})
   ∧ handleCancelCallback p s
     = Returned (tt, {|
         showState :=
           if autoCloseOnCancelButton p then false else showState s;
         defaultPrevented := true;
         world := runIfPresent (handleCancel p)
                    (if autoCloseOnCancelButton p
                     then runIfPresent (onHide p) (world s) else world s) |})
   ∧ handleConfirmCallback p s
     = Returned (tt, {|
         showState :=
           if autoCloseOnConfirmButton p then false else showState s;
         defaultPrevented := true;
         world := runIfPresent (handleConfirm p)
                    (if autoCloseOnConfirmButton p
                     then runIfPresent (onHide p) (world s) else world s) |})
   ∧ onEnterKeyDown p event s
     = Returned (tt, {|
         showState := if closesOnEnter p event then false else showState s;
         defaultPrevented := defaultPrevented s;
         world :=
           if bool_decide (key event = "Enter") then
             if isComposing event then world s
             else
               runIfPresent ((λ f, f event) <$> handleKeydown p)
                 (runIfPresent (handleEnterKeyPress p)
                    (if closesOnEnter p event
                     then runIfPresent (onHide p) (world s) else world s))
           else
             runIfPresent ((λ f, f event) <$> handleKeydown p) (world s) |})
   ∧ onJump handleJump event jumpToStep s
     = Returned (tt, {|
         showState := showState s;
         defaultPrevented := defaultPrevented s;
         world := runIfPresent ((λ f, f event jumpToStep) <$> handleJump)
                    (world s) |})
   ∧ (∀ w : World, runIfPresent None w = w)
   ∧ (∀ (cb : Callback World) w, runIfPresent (Some cb) w = cb w))
  ∧ (completes (onHideCallback p s) = true
     ∧ completes (handleCancelCallback p s) = true
     ∧ completes (handleConfirmCallback p s) = true
     ∧ completes (onEnterKeyDown p event s) = true
     ∧ completes (onJump handleJump event jumpToStep s) = true)
  ∧ (modalPart (onHideCallback p s) = modalPart (onHideCallback q s)
     ∧ modalPart (handleCancelCallback p s)
       = modalPart (handleCancelCallback q s)
     ∧ modalPart (handleConfirmCallback p s)
       = modalPart (handleConfirmCallback q s)
     ∧ ((is_Some (handleConfirm p) ↔ is_Some (handleConfirm q)) →
        modalPart (onEnterKeyDown p event s)
        = modalPart (onEnterKeyDown q event s))
     ∧ modalPart (onEnterKeyDown p event s)
       = Some (if closesOnEnter p event then false else showState s,
               defaultPrevented s)
     ∧ modalPart (onJump handleJump event jumpToStep s)
       = modalPart (onJump handleJump' event jumpToStep s))
  ∧ (autoCloseOnCancelButton p = true →
     modalPart (handleCancelCallback p s) = Some (false, true))
  ∧ (autoCloseOnConfirmButton p = true →
     modalPart (handleConfirmCallback p s) = Some (false, true)).
Proof.
  intros [Hcancel Hconfirm].
  split.
  { unfold onJump.
    rewrite onHideCallback_returns, handleCancelCallback_returns,
      handleConfirmCallback_returns, onEnterKeyDown_returns,
      callIfPresent_returns.
    repeat split. }
  unfold onJump.
  rewrite !onHideCallback_returns, !handleCancelCallback_returns,
    !handleConfirmCallback_returns, !onEnterKeyDown_returns,
    !callIfPresent_returns.
  simpl. rewrite <- Hcancel, <- Hconfirm.
  repeat split.
  - intros Hpresent.
    assert (closesOnEnter p event = closesOnEnter q event) as ->; [|done].
    unfold closesOnEnter. rewrite Hconfirm. do 2 f_equal.
    apply bool_decide_ext, Hpresent.
  - by intros ->.
  - by intros ->.
Qed.

End Guards.

(** With no callback given, Enter and Cancel return, Cancel closes the
    modal, and the application sees nothing. *)
Lemma absent_callbacks_guarded_witness :
  completes (onEnterKeyDown noneProvided enterKey shown) = true
  ∧ modalPart (handleCancelCallback noneProvided shown) = Some (false, true)
  ∧ modalPart (handleCancelCallback allPresent shown) = Some (false, true)
  ∧ handleCancelCallback noneProvided shown
    = Returned (tt, {| showState := false; defaultPrevented := true;
                       world := [] |}).
Proof.
  assert (sameSettings noneProvided allPresent) as Hsame by (by split).
  destruct (absent_callbacks_guarded noneProvided
              {| autoCloseOnCancelButton := true;
                 autoCloseOnConfirmButton := true;
                 onHide := Some (logged "onHide");
                 handleCancel := Some (logged "handleCancel");
                 handleConfirm := None;
                 handleEnterKeyPress := Some (logged "handleEnterKeyPress");
                 handleKeydown := Some (λ _, logged "handleKeydown") |}
              enterKey shown None None 0%nat)
    as ((_ & Hfull & _) & (_ & _ & _ & Hc & _) & _ & Hclose & _).
  - by split.
  - split; [exact Hc|]. split; [by apply Hclose|].
    split; [reflexivity|exact Hfull].
Defined.

(** C8 as stated fails: with [autoCloseOnConfirmButton] set in both, the
    Enter key closes the modal when [handleConfirm] is present and leaves
    it open when it is absent. *)
Lemma enter_close_counterexample :
  sameSettings allPresent noneProvided
  ∧ modalPart (onEnterKeyDown allPresent enterKey shown)
    = Some (false, false)
  ∧ modalPart (onEnterKeyDown noneProvided enterKey shown)
    = Some (true, false)
  ∧ modalPart
      (onEnterKeyDown
         {| autoCloseOnCancelButton := true;
            autoCloseOnConfirmButton := true;
            onHide := Some (logged "onHide");
            handleCancel := Some (logged "handleCancel");
            handleConfirm := None;
            handleEnterKeyPress := Some (logged "handleEnterKeyPress");
            handleKeydown := Some (λ _, logged "handleKeydown") |}
         enterKey shown)
    = Some (true, false).
Proof. repeat split. Qed.

End GenericModalFacts.

(** ** useFocusTrap *)
Module FocusTrapFacts.
Import FocusTrap.

(** *** Lists of mounted effects *)

Lemma lookupTrap_fst (h : nat) (ts : list (nat * Trap)) :
  is_Some (lookupTrap h ts) ↔ h ∈ ts.*1.
Proof.
  induction ts as [|[h' t] ts IH]; simpl.
  - split; [by intros [? ?]|by intros ?%elem_of_nil].
  - case_bool_decide as Hh.
    + subst. split; [intros _; by left|by eexists].
    + rewrite IH. split; [by right|].
      intros [?|?]%elem_of_cons; [congruence|done].
Qed.

Lemma lookupTrap_containers (h : nat) (ts : list (nat * Trap)) (t : Trap) :
  lookupTrap h ts = Some t → container t ∈ (λ p, container p.2) <$> ts.
Proof.
  induction ts as [|[h' t'] ts IH]; simpl; [done|].
  case_bool_decide.
  - intros [= ->]. by left.
  - intros Hl. right. by apply IH.
Qed.

Lemma lookupTrap_app (h h' : nat) (t' : Trap) (ts : list (nat * Trap)) :
  lookupTrap h (ts ++ [(h', t')])
  = match lookupTrap h ts with
    | Some t => Some t
    | None => if bool_decide (h' = h) then Some t' else None
    end.
Proof.
  induction ts as [|[h0 t0] ts IH]; simpl.
  - reflexivity.
  - destruct (bool_decide (h0 = h)); [done|apply IH].
Qed.

Lemma lookupTrap_update (h h' : nat) (t' : Trap) (ts : list (nat * Trap)) :
  lookupTrap h' (updateTrap h t' ts)
  = if bool_decide (h' = h) then (λ _, t') <$> lookupTrap h ts
    else lookupTrap h' ts.
Proof.
  induction ts as [|[h0 t0] ts IH]; simpl.
  - by destruct (bool_decide (h' = h)).
  - destruct (decide (h0 = h)) as [->|Hne];
      [rewrite (bool_decide_true (h = h)) by done
      |rewrite (bool_decide_false (h0 = h)) by done];
      simpl; rewrite ?IH; repeat case_bool_decide; simplify_eq; done.
Qed.

Lemma updateTrap_fst (h : nat) (t' : Trap) (ts : list (nat * Trap)) :
  (updateTrap h t' ts).*1 = ts.*1.
Proof.
  induction ts as [|[h0 t0] ts IH]; simpl; [done|].
  case_bool_decide; simpl; [done|by f_equal].
Qed.

Lemma removeTrap_fst_elem (h h' : nat) (ts : list (nat * Trap)) :
  h' ∈ (removeTrap h ts).*1 → h' ∈ ts.*1.
Proof.
  induction ts as [|[h0 t0] ts IH]; simpl; [done|].
  case_bool_decide; simpl.
  - by right.
  - intros [->|?]%elem_of_cons; [by left|right; by apply IH].
Qed.

Lemma removeTrap_fst_NoDup (h : nat) (ts : list (nat * Trap)) :
  NoDup ts.*1 → NoDup (removeTrap h ts).*1.
Proof.
  induction ts as [|[h0 t0] ts IH]; simpl; [done|].
  intros [Hnin Hnd]%NoDup_cons. case_bool_decide; simpl; [done|].
  apply NoDup_cons. split; [|by apply IH].
  intros Hin. by apply Hnin, (removeTrap_fst_elem h).
Qed.

Lemma lookupTrap_remove (h h' : nat) (ts : list (nat * Trap)) :
  NoDup ts.*1 →
  lookupTrap h' (removeTrap h ts)
  = if bool_decide (h' = h) then None else lookupTrap h' ts.
Proof.
  induction ts as [|[h0 t0] ts IH]; simpl.
  - by destruct (bool_decide (h' = h)).
  - intros [Hnin Hnd]%NoDup_cons.
    destruct (decide (h0 = h)) as [->|Hne];
      [rewrite (bool_decide_true (h = h)) by done
      |rewrite (bool_decide_false (h0 = h)) by done];
      simpl; rewrite ?IH by done; repeat case_bool_decide; simplify_eq;
      try done.
    destruct (lookupTrap h ts) eqn:Hl; [|done].
    exfalso. apply Hnin, lookupTrap_fst. by eexists.
Qed.

(** *** Filters *)

Lemma filter_all {A} (P : A → Prop) `{∀ x, Decision (P x)} (l : list A) :
  (∀ x, x ∈ l → P x) → filter P l = l.
Proof.
  induction l as [|a l IH]; intros Hall; [done|].
  rewrite filter_cons_True by (apply Hall; by left).
  f_equal. apply IH. intros x Hx. apply Hall. by right.
Qed.

Lemma filter_none {A} (P : A → Prop) `{∀ x, Decision (P x)} (l : list A) :
  (∀ x, x ∈ l → ¬ P x) → filter P l = [].
Proof.
  induction l as [|a l IH]; intros Hall; [done|].
  rewrite filter_cons_False by (apply Hall; by left).
  apply IH. intros x Hx. apply Hall. by right.
Qed.

Lemma filter_only {A} (P : A → Prop) `{∀ x, Decision (P x)} (l : list A)
    (a : A) :
  NoDup l → a ∈ l → (∀ x, x ∈ l → P x ↔ x = a) → filter P l = [a].
Proof.
  induction l as [|b l IH]; intros Hnd Hin HP; [by apply elem_of_nil in Hin|].
  apply NoDup_cons in Hnd as [Hnin Hnd].
  destruct (decide (P b)) as [HPb|HPb].
  - assert (b = a) as -> by (apply HP; [by left|done]).
    rewrite filter_cons_True by done.
    f_equal. apply filter_none. intros x Hx HPx.
    apply HP in HPx; [|by right]. by subst.
  - rewrite filter_cons_False by done.
    assert (b ≠ a) as Hne.
    { intros ->. apply HPb, HP; [by left|done]. }
    apply IH; [done| |].
    + by apply elem_of_cons in Hin as [->|?].
    + intros x Hx. apply HP. by right.
Qed.

Lemma filter_ext_in {A} (P Q : A → Prop) `{∀ x, Decision (P x)}
    `{∀ x, Decision (Q x)} (l : list A) :
  (∀ x, x ∈ l → P x ↔ Q x) → filter P l = filter Q l.
Proof.
  induction l as [|a l IH]; intros Hext; [done|].
  assert (filter P l = filter Q l) as Hl.
  { apply IH. intros x Hx. apply Hext. by right. }
  destruct (decide (P a)) as [HP|HP].
  - rewrite !filter_cons_True; [by rewrite Hl| |done].
    apply Hext; [by left|done].
  - rewrite !filter_cons_False; [done| |done].
    intros HQ. apply HP, Hext; [by left|done].
Qed.

(** *** The order of the activated hooks *)

Lemma isActivated_mounted (sys : System) (h : nat) :
  isActivated sys h = true → h ∈ (traps sys).*1.
Proof.
  unfold isActivated. intros Ha. apply lookupTrap_fst.
  destruct (lookupTrap h (traps sys)); [by eexists|done].
Qed.

Lemma orderStep_filter (order : list nat) (sys' : System) :
  (∀ h, isActivated sys' h = true → h ∈ order) →
  orderStep order sys' = filter (λ h, isActivated sys' h = true) order.
Proof.
  intros Hsub. unfold orderStep.
  rewrite (filter_none _ (traps sys').*1); [by rewrite app_nil_r|].
  intros h _ [Ha Hnin]. apply Hnin, list_elem_of_filter. auto.
Qed.

Lemma orderStep_same (order : list nat) (sys' : System) :
  (∀ h, h ∈ order ↔ isActivated sys' h = true) →
  orderStep order sys' = order.
Proof.
  intros Hiff. rewrite orderStep_filter by (intros h; apply Hiff).
  apply filter_all. intros h. apply Hiff.
Qed.

Lemma orderStep_push (order : list nat) (sys' : System) (h : nat) :
  NoDup (traps sys').*1 → h ∉ order →
  (∀ h', isActivated sys' h' = true ↔ h' ∈ order ∨ h' = h) →
  orderStep order sys' = order ++ [h].
Proof.
  intros Hnd Hnin Hiff. unfold orderStep.
  rewrite (filter_all _ order) by (intros x Hx; apply Hiff; by left).
  f_equal. apply filter_only; [done| |].
  - apply isActivated_mounted, Hiff. by right.
  - intros x _. rewrite Hiff. split.
    + intros [[?| ->] ?]; done.
    + intros ->. split; [by right|done].
Qed.

Lemma orderStep_drop (order : list nat) (sys' : System) (h : nat) :
  (∀ h', isActivated sys' h' = true ↔ h' ∈ order ∧ h' ≠ h) →
  orderStep order sys' = filter (λ h', h' ≠ h) order.
Proof.
  intros Hiff. rewrite orderStep_filter by (intros h' ?%Hiff; tauto).
  apply filter_ext_in. intros x Hx. rewrite Hiff. tauto.
Qed.

(** *** The containers of a list of hooks *)

Lemma containersOf_ext (sys sys' : System) (order : list nat) :
  (∀ h, h ∈ order →
     container <$> lookupTrap h (traps sys')
     = container <$> lookupTrap h (traps sys)) →
  containersOf sys' order = containersOf sys order.
Proof.
  unfold containersOf. induction order as [|a order IH]; intros Hext; [done|].
  assert (omap (λ h, container <$> lookupTrap h (traps sys')) order
          = omap (λ h, container <$> lookupTrap h (traps sys)) order) as IH'.
  { apply IH. intros h Hh. apply Hext. by right. }
  simpl. rewrite (Hext a) by (by left).
  destruct (container <$> lookupTrap a (traps sys)); [f_equal|]; exact IH'.
Qed.

Lemma containersOf_snoc (sys : System) (order : list nat) (h : nat)
    (t : Trap) :
  lookupTrap h (traps sys) = Some t →
  containersOf sys (order ++ [h]) = containersOf sys order ++ [container t].
Proof.
  intros Hl. unfold containersOf. rewrite omap_app. simpl. by rewrite Hl.
Qed.

Lemma omap_cons_eq {A B} (f : A → option B) (a : A) (l : list A) :
  omap f (a :: l)
  = match f a with Some y => y :: omap f l | None => omap f l end.
Proof. reflexivity. Qed.

Lemma indexOf_cons (c x : Element) (l : list Element) :
  indexOf c (x :: l)
  = if bool_decide (x = c) then Some 0%nat else S <$> indexOf c l.
Proof. reflexivity. Qed.

(** Taking the first occurrence of the container of [h] out of the stack
    is taking [h] out of the order, as long as no two hooks of the order
    share a container. *)
Lemma containersOf_remove (sys : System) (order : list nat) (h : nat)
    (t : Trap) :
  NoDup order →
  (∀ h', h' ∈ order → is_Some (lookupTrap h' (traps sys))) →
  (∀ h1 h2 t1 t2,
     lookupTrap h1 (traps sys) = Some t1 →
     lookupTrap h2 (traps sys) = Some t2 →
     container t1 = container t2 → h1 = h2) →
  lookupTrap h (traps sys) = Some t →
  match indexOf (container t) (containersOf sys order) with
  | Some index => splice1 index (containersOf sys order)
  | None => containersOf sys order
  end = containersOf sys (filter (λ h', h' ≠ h) order).
Proof.
  intros Hnd Hm Hinj Hl. unfold containersOf.
  induction order as [|a order IH]; [done|].
  apply NoDup_cons in Hnd as [Hnin Hnd].
  destruct (Hm a) as [ta Hta]; [by left|].
  destruct (decide (a = h)) as [->|Hne].
  - assert (ta = t) as -> by congruence.
    rewrite filter_cons_False by (intros ?; done).
    rewrite filter_all by (intros x Hx ->; done).
    rewrite omap_cons_eq, Hta. cbn [fmap option_fmap option_map].
    by rewrite indexOf_cons, bool_decide_true.
  - rewrite filter_cons_True by done.
    assert (∀ h', h' ∈ order → is_Some (lookupTrap h' (traps sys))) as Hm'
      by (intros h' Hh'; apply Hm; by right).
    specialize (IH Hnd Hm').
    rewrite !omap_cons_eq, Hta. cbn [fmap option_fmap option_map].
    rewrite indexOf_cons, bool_decide_false.
    2:{ intros Heq. apply Hne. by eapply Hinj. }
    rewrite <- IH.
    by destruct (indexOf (container t) _).
Qed.

(** *** What the operations do to the stack *)

(** [focus()] moves focus to the element if it can take focus and does
    nothing otherwise; the stack and the page are not its business. *)
Lemma focus_stack (el : Element) (g : Global) :
  activeFocusTraps (focus el g) = activeFocusTraps g.
Proof. unfold focus. by case_bool_decide. Qed.

Lemma focus_unfocusable (el : Element) (g : Global) :
  unfocusable (focus el g) = unfocusable g.
Proof. unfold focus. by case_bool_decide. Qed.

Lemma focus_activeElement (el : Element) (g : Global) :
  activeElement (focus el g)
  = if bool_decide (el ∈ unfocusable g) then activeElement g else Some el.
Proof. unfold focus. by case_bool_decide. Qed.

Lemma activateFocusTrap_spec (found : list Element) (t : Trap) (g : Global) :
  container (activateFocusTrap found t g).1 = container t
  ∧ trapActive (activateFocusTrap found t g).1 = true
  ∧ timeoutId (activateFocusTrap found t g).1 = false
  ∧ focusableElementsRef (activateFocusTrap found t g).1 = found
  ∧ activeFocusTraps (activateFocusTrap found t g).2
    = activeFocusTraps g ++ [container t].
Proof.
  unfold activateFocusTrap.
  destruct found as [|first rest]; [done|].
  destruct (initialFocus (options t)); [|done].
  simpl. by rewrite focus_stack.
Qed.

Lemma handleKeyDown_stack (t : Trap) (e : KeyboardEvent) (g : Global) :
  activeFocusTraps (handleKeyDown t e g).1 = activeFocusTraps g.
Proof.
  unfold handleKeyDown.
  destruct (negb (bool_decide (key e = "Tab"))); [done|].
  destruct (_ || _); [done|].
  destruct (focusableElementsRef t) as [|firstElement rest]; [done|].
  destruct (_ && _); [apply focus_stack|].
  destruct (_ && _); [apply focus_stack|done].
Qed.

Lemma dispatch_stack (ts : list (nat * Trap)) (e : KeyboardEvent)
    (g : Global) :
  activeFocusTraps (dispatch ts e g).1 = activeFocusTraps g.
Proof.
  revert g. induction ts as [|[h t] ts IH]; intros g; simpl; [done|].
  pose proof (handleKeyDown_stack t e g) as Hk.
  destruct (handleKeyDown t e g) as [g1 p1]. simpl in Hk.
  specialize (IH g1). destruct (dispatch ts e g1) as [g2 p2].
  simpl in *. congruence.
Qed.

Lemma cleanup_stack (t : Trap) (g : Global) :
  activeFocusTraps (cleanup t g)
  = if trapActive t then
      match indexOf (container t) (activeFocusTraps g) with
      | Some index => splice1 index (activeFocusTraps g)
      | None => activeFocusTraps g
      end
    else activeFocusTraps g.
Proof.
  unfold cleanup.
  destruct (trapActive t), (indexOf (container t) (activeFocusTraps g)),
    (restoreFocus (options t)), (previousFocusRef t);
    rewrite ?focus_stack; reflexivity.
Qed.

(** The three ways in which the body of the effect ends. *)
Lemma effect_cases (isActive : bool) (containerRef : option Element)
    (opts : FocusTrapOptions) (pe : list Element) (pf : option Element)
    (found : list Element) (g : Global) :
  effect isActive containerRef opts pe pf found g = (None, g)
  ∨ (∃ t, effect isActive containerRef opts pe pf found g = (Some t, g)
       ∧ containerRef = Some (container t)
       ∧ trapActive t = false)
  ∨ (∃ t g', effect isActive containerRef opts pe pf found g = (Some t, g')
       ∧ containerRef = Some (container t)
       ∧ trapActive t = true ∧ timeoutId t = false
       ∧ activeFocusTraps g' = activeFocusTraps g ++ [container t]).
Proof.
  unfold effect. destruct containerRef as [c|]; [|by left].
  destruct isActive; simpl; [|by left].
  set (t0 := {| container := c; options := opts; trapActive := false;
                timeoutId := false; focusableElementsRef := pe;
                previousFocusRef := _ |}).
  assert (∃ t g', activateFocusTrap found t0 g = (t, g')
            ∧ Some c = Some (container t)
            ∧ trapActive t = true ∧ timeoutId t = false
            ∧ activeFocusTraps g' = activeFocusTraps g ++ [container t])
    as (t & g' & Hact & Hspec).
  { destruct (activateFocusTrap_spec found t0 g) as (Hc & Ha & Ht & _ & Hs).
    destruct (activateFocusTrap found t0 g) as [t g']. simpl in *.
    exists t, g'. rewrite Hc. done. }
  destruct (delayMs opts) as [d|].
  - case_bool_decide.
    + right; left. eexists. split; [reflexivity|]. done.
    + right; right. rewrite Hact. by exists t, g'.
  - right; right. rewrite Hact. by exists t, g'.
Qed.

(** *** The invariant *)

Lemma isActivated_Some (sys : System) (h : nat) :
  isActivated sys h = true
  ↔ ∃ t, lookupTrap h (traps sys) = Some t ∧ trapActive t = true.
Proof.
  unfold isActivated. destruct (lookupTrap h (traps sys)) as [t|].
  - split; [by exists t|]. by intros (? & [= <-] & ?).
  - split; [done|]. by intros (? & ? & ?).
Qed.

(** A step that activates and deactivates nothing. Hooks keep their
    container and their flags; at most the hook [hnew] is new, with a trap
    that is not activated and a container no other hook has. *)
Lemma Inv_quiet (sys sys' : System) (order : list nat) (hnew : nat) :
  Inv sys order →
  NoDup (traps sys').*1 →
  (∀ h t', lookupTrap h (traps sys') = Some t' →
     (∃ t, lookupTrap h (traps sys) = Some t
           ∧ container t = container t' ∧ trapActive t = trapActive t'
           ∧ timeoutId t = timeoutId t')
     ∨ (h = hnew ∧ lookupTrap h (traps sys) = None
        ∧ trapActive t' = false
        ∧ ∀ h0 t0, lookupTrap h0 (traps sys) = Some t0 →
                   container t0 ≠ container t')) →
  (∀ h t, lookupTrap h (traps sys) = Some t → trapActive t = true →
          is_Some (lookupTrap h (traps sys'))) →
  activeFocusTraps (global sys') = activeFocusTraps (global sys) →
  Inv sys' (orderStep order sys').
Proof.
  intros [Hhooks Hinj Hpend Hnd Hord Hstack] Hhooks' Hlook Hkeep Hst.
  assert (∀ h, isActivated sys' h = true ↔ isActivated sys h = true) as Hact.
  { intros h. rewrite !isActivated_Some. split.
    - intros (t' & Ht' & Ha').
      destruct (Hlook h t' Ht') as [(t & Ht & _ & Ha & _)|(_ & _ & Hf & _)];
        [|congruence].
      exists t. split; [done|congruence].
    - intros (t & Ht & Ha).
      destruct (Hkeep h t Ht Ha) as [t' Ht'].
      destruct (Hlook h t' Ht') as [(t0 & Ht0 & _ & Ha0 & _)|(_ & Hn & _)];
        [|congruence].
      exists t'. split; [done|]. congruence. }
  assert (orderStep order sys' = order) as ->.
  { apply orderStep_same. intros h. by rewrite Hact. }
  split; [done| | |done| |].
  - intros h1 h2 t1 t2 H1 H2 Hc.
    destruct (Hlook h1 t1 H1) as [(u1 & Hu1 & Hc1 & _)|(-> & _ & _ & Hf1)],
      (Hlook h2 t2 H2) as [(u2 & Hu2 & Hc2 & _)|(-> & _ & _ & Hf2)].
    + apply (Hinj h1 h2 u1 u2); [done..|congruence].
    + destruct (Hf2 h1 u1 Hu1). congruence.
    + destruct (Hf1 h2 u2 Hu2). congruence.
    + done.
  - intros h t' Ht' Htm.
    destruct (Hlook h t' Ht') as [(t & Ht & _ & Ha & Htm')|(_ & _ & Hf & _)];
      [|done].
    rewrite <- Ha. apply (Hpend h t Ht). congruence.
  - intros h. by rewrite Hact.
  - rewrite Hst, Hstack. symmetry. apply containersOf_ext.
    intros h Hh. apply Hord, isActivated_Some in Hh as (t & Ht & Ha).
    destruct (Hkeep h t Ht Ha) as [t' Ht'].
    destruct (Hlook h t' Ht') as [(t0 & Ht0 & Hc & _)|(_ & Hn & _)];
      [|congruence].
    rewrite Ht', Ht0. simpl. by rewrite Hc.
Qed.

(** A step that activates the trap of hook [h]. *)
Lemma Inv_activate (sys sys' : System) (order : list nat) (h : nat)
    (t' : Trap) :
  Inv sys order →
  isActivated sys h = false →
  NoDup (traps sys').*1 →
  lookupTrap h (traps sys') = Some t' →
  trapActive t' = true → timeoutId t' = false →
  (∀ h0, h0 ≠ h → lookupTrap h0 (traps sys') = lookupTrap h0 (traps sys)) →
  (∀ h0 t0, lookupTrap h0 (traps sys) = Some t0 → h0 ≠ h →
            container t0 ≠ container t') →
  activeFocusTraps (global sys')
  = activeFocusTraps (global sys) ++ [container t'] →
  Inv sys' (orderStep order sys').
Proof.
  intros [Hhooks Hinj Hpend Hnd Hord Hstack] Hoff Hhooks' Ht' Ha' Htm'
    Hothers Hfresh Hst.
  assert (h ∉ order) as Hnin.
  { intros Hin. apply Hord in Hin. congruence. }
  assert (∀ h0, isActivated sys' h0 = true ↔ h0 ∈ order ∨ h0 = h) as Hact.
  { intros h0. destruct (decide (h0 = h)) as [->|Hne].
    - rewrite isActivated_Some. split; [by right|]. intros _. by exists t'.
    - rewrite Hord. unfold isActivated. rewrite Hothers by done.
      split; [by left|]. by intros [?|?]. }
  rewrite (orderStep_push order sys' h) by done.
  split; [done| | | | |].
  - intros h1 h2 t1 t2 H1 H2 Hc.
    destruct (decide (h1 = h)) as [->|Hne1], (decide (h2 = h)) as [->|Hne2];
      [done| | |].
    + rewrite Hothers in H2 by done. assert (t1 = t') as -> by congruence.
      by destruct (Hfresh h2 t2 H2 Hne2).
    + rewrite Hothers in H1 by done. assert (t2 = t') as -> by congruence.
      by destruct (Hfresh h1 t1 H1 Hne1).
    + rewrite Hothers in H1, H2 by done. by apply (Hinj h1 h2 t1 t2).
  - intros h0 t0 H0 Htm. destruct (decide (h0 = h)) as [->|Hne].
    + congruence.
    + rewrite Hothers in H0 by done. by apply (Hpend h0 t0).
  - apply NoDup_app. split; [done|]. split; [|apply NoDup_singleton].
    intros x Hx ->%list_elem_of_singleton. done.
  - intros h0. rewrite Hact, elem_of_app, list_elem_of_singleton. done.
  - rewrite Hst, Hstack, (containersOf_snoc sys' order h t' Ht').
    f_equal. symmetry. apply containersOf_ext.
    intros h0 Hh0. rewrite Hothers; [done|]. by intros ->.
Qed.

(** A step that cleans up the activated trap of hook [h]. *)
Lemma Inv_deactivate (sys sys' : System) (order : list nat) (h : nat)
    (t : Trap) :
  Inv sys order →
  lookupTrap h (traps sys) = Some t →
  trapActive t = true →
  traps sys' = removeTrap h (traps sys) →
  activeFocusTraps (global sys')
  = match indexOf (container t) (activeFocusTraps (global sys)) with
    | Some index => splice1 index (activeFocusTraps (global sys))
    | None => activeFocusTraps (global sys)
    end →
  Inv sys' (orderStep order sys').
Proof.
  intros [Hhooks Hinj Hpend Hnd Hord Hstack] Ht Ha Htraps Hst.
  assert (∀ h0, lookupTrap h0 (traps sys')
                = if bool_decide (h0 = h) then None
                  else lookupTrap h0 (traps sys)) as Hlook.
  { intros h0. rewrite Htraps. by apply lookupTrap_remove. }
  assert (∀ h0 t0, lookupTrap h0 (traps sys') = Some t0 →
            h0 ≠ h ∧ lookupTrap h0 (traps sys) = Some t0) as Hold.
  { intros h0 t0. rewrite Hlook. by case_bool_decide. }
  assert (∀ h0, isActivated sys' h0 = true ↔ h0 ∈ order ∧ h0 ≠ h) as Hact.
  { intros h0. rewrite Hord. unfold isActivated. rewrite Hlook.
    case_bool_decide; [|tauto]. split; [done|tauto]. }
  rewrite (orderStep_drop order sys' h) by done.
  split.
  - rewrite Htraps. by apply removeTrap_fst_NoDup.
  - intros h1 h2 t1 t2 [_ H1]%Hold [_ H2]%Hold.
    by apply (Hinj h1 h2 t1 t2).
  - intros h0 t0 [_ H0]%Hold. by apply (Hpend h0 t0).
  - by apply NoDup_filter.
  - intros h0. rewrite list_elem_of_filter, Hact. tauto.
  - rewrite Hst, Hstack.
    rewrite (containersOf_remove sys order h t); [|done| |done..].
    + symmetry. apply containersOf_ext.
      intros h0 [Hne _]%list_elem_of_filter.
      by rewrite Hlook, bool_decide_false.
    + intros h0 Hh0. apply Hord, isActivated_Some in Hh0 as (t0 & -> & _).
      by eexists.
Qed.

Lemma Inv_same (sys : System) (order : list nat) :
  Inv sys order → Inv sys (orderStep order sys).
Proof.
  intros HI. apply (Inv_quiet sys sys order 0%nat); [done|apply HI| | |done].
  - intros h t' Ht'. left. by exists t'.
  - intros h t Ht _. by eexists.
Qed.

Lemma fresh_hook_NoDup (ts : list (nat * Trap)) (h : nat) (t : Trap) :
  NoDup ts.*1 → lookupTrap h ts = None → NoDup (ts ++ [(h, t)]).*1.
Proof.
  intros Hnd Hn. rewrite fmap_app. apply NoDup_app.
  split; [done|]. split; [|apply NoDup_singleton].
  intros x Hx ->%list_elem_of_singleton.
  apply lookupTrap_fst in Hx as [? ?]. simpl in *. congruence.
Qed.

(** Every event that React can deliver keeps the invariant. *)
Lemma Inv_step (sys : System) (order : list nat) (ev : Event) :
  Inv sys order → wf_event sys ev = true →
  Inv (exec sys ev) (orderStep order (exec sys ev)).
Proof.
  intros HI Hwf. pose proof HI as [Hhooks Hinj Hpend Hnd Hord Hstack].
  destruct ev as [h isActive cref opts found|h found|h found|e|h|el|dom];
    simpl.
  - (* the effect runs *)
    apply andb_prop in Hwf as [Hfree Hc].
    apply bool_decide_eq_true in Hfree.
    set (r := default ([], None) (refs sys !! h)).
    destruct (effect_cases isActive cref opts r.1 r.2 found (global sys))
      as [->|[(t & -> & -> & Hoff)|(t & g' & -> & -> & Hon & Htm & Hst)]].
    + apply (Inv_quiet sys _ order 0%nat); simpl; [done..| | |done].
      * intros h0 t' Ht'. left. by exists t'.
      * intros h0 t0 Ht0 _. by eexists.
    + apply bool_decide_eq_true in Hc.
      apply (Inv_quiet sys _ order h); simpl; [done| | | |done].
      * by apply fresh_hook_NoDup.
      * intros h0 t'. rewrite lookupTrap_app.
        destruct (lookupTrap h0 (traps sys)) as [t0|] eqn:Ht0.
        -- intros [= <-]. left. by exists t0.
        -- case_bool_decide; [|done]. intros [= <-]. subst h0. right.
           repeat split; [done..|]. intros h1 t1 H1 Heq.
           apply Hc. rewrite <- Heq. by eapply lookupTrap_containers.
      * intros h0 t0 Ht0 _. rewrite lookupTrap_app, Ht0. by eexists.
    + apply bool_decide_eq_true in Hc.
      apply (Inv_activate sys _ order h t); simpl; [done| | | |done..| | |done].
      * unfold isActivated. by rewrite Hfree.
      * by apply fresh_hook_NoDup.
      * by rewrite lookupTrap_app, Hfree, bool_decide_true.
      * intros h0 Hne. rewrite lookupTrap_app.
        destruct (lookupTrap h0 (traps sys)); [done|].
        by rewrite bool_decide_false.
      * intros h0 t0 H0 _ Heq.
        apply Hc. rewrite <- Heq. by eapply lookupTrap_containers.
  - (* the timer fires *)
    destruct (lookupTrap h (traps sys)) as [t|] eqn:Ht; [|by apply Inv_same].
    unfold onTimeout. destruct (timeoutId t) eqn:Htm.
    + destruct (activateFocusTrap_spec found t (global sys))
        as (Hc & Ha & Htm' & _ & Hst).
      destruct (activateFocusTrap found t (global sys)) as [t' g'].
      simpl in *.
      apply (Inv_activate sys _ order h t'); simpl;
        [done| | | |done..| | |by rewrite Hc].
      * unfold isActivated. rewrite Ht. by apply (Hpend h t).
      * by rewrite updateTrap_fst.
      * by rewrite lookupTrap_update, bool_decide_true, Ht.
      * intros h0 Hne. by rewrite lookupTrap_update, bool_decide_false.
      * intros h0 t0 H0 Hne Heq. apply Hne.
        apply (Hinj h0 h t0 t); [done..|congruence].
    + apply (Inv_quiet sys _ order 0%nat); simpl; [done| | | |done].
      * by rewrite updateTrap_fst.
      * intros h0 t'. rewrite lookupTrap_update. case_bool_decide.
        -- subst h0. rewrite Ht. intros [= <-]. left. by exists t.
        -- intros Ht'. left. by exists t'.
      * intros h0 t0 H0 _. rewrite lookupTrap_update. case_bool_decide.
        -- subst h0. rewrite Ht. by eexists.
        -- by eexists.
  - (* the subtree of the container changes *)
    destruct (lookupTrap h (traps sys)) as [t|] eqn:Ht; [|by apply Inv_same].
    apply (Inv_quiet sys _ order 0%nat); simpl; [done| | | |done].
    + by rewrite updateTrap_fst.
    + intros h0 t'. rewrite lookupTrap_update. case_bool_decide.
      * subst h0. rewrite Ht. intros [= <-]. left. exists t.
        unfold onMutation. by destruct (trapActive t) eqn:Ha.
      * intros Ht'. left. by exists t'.
    + intros h0 t0 H0 _. rewrite lookupTrap_update. case_bool_decide.
      * subst h0. rewrite Ht. by eexists.
      * by eexists.
  - (* a key goes down *)
    apply (Inv_quiet sys _ order 0%nat); simpl; [done..| | |].
    + intros h0 t' Ht'. left. by exists t'.
    + intros h0 t0 H0 _. by eexists.
    + apply dispatch_stack.
  - (* the cleanup runs *)
    destruct (lookupTrap h (traps sys)) as [t|] eqn:Ht; [|by apply Inv_same].
    destruct (trapActive t) eqn:Ha.
    + apply (Inv_deactivate sys _ order h t); simpl; [done..|].
      by rewrite cleanup_stack, Ha.
    + apply (Inv_quiet sys _ order 0%nat); simpl; [done| | | |].
      * by apply removeTrap_fst_NoDup.
      * intros h0 t'. rewrite lookupTrap_remove by done.
        case_bool_decide; [done|]. intros Ht'. left. by exists t'.
      * intros h0 t0 H0 Ha0. rewrite lookupTrap_remove by done.
        case_bool_decide; [|by eexists]. subst h0. congruence.
      * by rewrite cleanup_stack, Ha.
  - (* focus moves *)
    apply (Inv_quiet sys _ order 0%nat); simpl; [done..| | |done].
    + intros h0 t' Ht'. left. by exists t'.
    + intros h0 t0 H0 _. by eexists.
  - (* the page changes *)
    apply (Inv_quiet sys _ order 0%nat); simpl; [done..| | |done].
    + intros h0 t' Ht'. left. by exists t'.
    + intros h0 t0 H0 _. by eexists.
Qed.

Lemma Inv_init : Inv init [].
Proof.
  split; simpl; try done.
  - apply NoDup_nil_2.
  - apply NoDup_nil_2.
  - intros h. split; [by intros ?%elem_of_nil|done].
Qed.

Lemma Inv_run (sys : System) (order : list nat) (evs : list Event) :
  Inv sys order → wf_trace sys evs = true →
  Inv (run sys evs) (activationOrder sys order evs).
Proof.
  revert sys order. induction evs as [|ev evs IH]; intros sys order HI Hwf;
    simpl in *; [done|].
  apply andb_prop in Hwf as [Hev Hwf].
  apply IH; [|done]. by apply Inv_step.
Qed.

Lemma containersOf_Forall2 (sys : System) (order : list nat) :
  (∀ h, h ∈ order → isActivated sys h = true) →
  Forall2 (λ c h, ∃ t, lookupTrap h (traps sys) = Some t
                       ∧ trapActive t = true ∧ container t = c)
    (containersOf sys order) order.
Proof.
  unfold containersOf. induction order as [|a order IH]; intros Hact.
  - constructor.
  - destruct (proj1 (isActivated_Some sys a)) as (t & Ht & Ha);
      [apply Hact; by left|].
    rewrite omap_cons_eq, Ht. simpl. constructor.
    + by exists t.
    + apply IH. intros h Hh. apply Hact. by right.
Qed.

Lemma containersOf_elem (sys : System) (order : list nat) (c : Element) :
  c ∈ containersOf sys order
  → ∃ h t, h ∈ order ∧ lookupTrap h (traps sys) = Some t ∧ container t = c.
Proof.
  unfold containersOf. rewrite list_elem_of_omap.
  intros (h & Hh & Hc). destruct (lookupTrap h (traps sys)) as [t|] eqn:Ht;
    [|done].
  injection Hc as <-. by exists h, t.
Qed.

(** A handler whose container is not on top of the stack returns at
    line 74. *)
Lemma handleKeyDown_not_top (t : Trap) (e : KeyboardEvent) (g : Global) :
  last (activeFocusTraps g) ≠ Some (container t) →
  handleKeyDown t e g = (g, false).
Proof.
  intros Hne. unfold handleKeyDown.
  destruct (negb (bool_decide (key e = "Tab"))); [done|].
  rewrite (bool_decide_false _ Hne). simpl.
  by rewrite orb_true_r.
Qed.

(** A handler with nothing cached returns at line 79 at the latest. *)
Lemma handleKeyDown_empty (t : Trap) (e : KeyboardEvent) (g : Global) :
  focusableElementsRef t = [] →
  handleKeyDown t e g = (g, false).
Proof.
  intros He. unfold handleKeyDown. rewrite He.
  destruct (negb (bool_decide (key e = "Tab"))); [done|].
  by destruct (_ || _).
Qed.

Lemma last_default (l : list Element) (x d : Element) :
  last l = Some x → List.last l d = x.
Proof.
  induction l as [|a l IH]; [done|].
  destruct l as [|b l].
  - by intros [= ->].
  - intros Hl. apply IH. exact Hl.
Qed.

(** C2: on every page that events lead to, [activeFocusTraps] holds
    exactly the containers of the activated traps, in the order of their
    activation; activating a trap pushes its container, cleaning up an
    activated trap takes its container out and leaves the others in order,
    and the handler of every trap whose container is not the last element
    of the stack returns without any effect. The hooks have a container
    each, as those of GenericModal do. *)
Theorem stack_is_activation_order (evs : list Event) :
  wf_trace init evs = true →
  let sys := run init evs in
  let order := activationOrder init [] evs in
  Forall2 (λ c h, ∃ t, lookupTrap h (traps sys) = Some t
                       ∧ trapActive t = true ∧ container t = c)
    (activeFocusTraps (global sys)) order
  ∧ NoDup order
  ∧ (∀ h, h ∈ order ↔ isActivated sys h = true)
  ∧ (∀ found t,
       activeFocusTraps (activateFocusTrap found t (global sys)).2
       = activeFocusTraps (global sys) ++ [container t])
  ∧ (∀ h t, lookupTrap h (traps sys) = Some t → trapActive t = true →
       activeFocusTraps (cleanup t (global sys))
       = containersOf sys (filter (λ h', h' ≠ h) order)
       ∧ container t ∉ activeFocusTraps (cleanup t (global sys)))
  ∧ (∀ h t e, lookupTrap h (traps sys) = Some t →
       last (activeFocusTraps (global sys)) ≠ Some (container t) →
       handleKeyDown t e (global sys) = (global sys, false)).
Proof.
  intros Hwf sys order.
  pose proof (Inv_run init [] evs Inv_init Hwf) as HI.
  fold sys order in HI.
  pose proof HI as [Hhooks Hinj Hpend Hnd Hord Hstack].
  split; [|split; [done|split; [done|split; [|split]]]].
  - rewrite Hstack. apply containersOf_Forall2. intros h. apply Hord.
  - intros found t. apply activateFocusTrap_spec.
  - intros h t Ht Ha.
    assert (activeFocusTraps (cleanup t (global sys))
            = containersOf sys (filter (λ h', h' ≠ h) order)) as Hcl.
    { rewrite cleanup_stack, Ha, Hstack.
      apply containersOf_remove; [done| |done..].
      intros h0 Hh0. apply Hord, isActivated_Some in Hh0 as (t0 & -> & _).
      by eexists. }
    split; [done|]. rewrite Hcl.
    intros (h0 & t0 & [Hne _]%list_elem_of_filter & Ht0 & Hc)%containersOf_elem.
    apply Hne. by apply (Hinj h0 h t0 t).
  - intros h t e _ Hne. by apply handleKeyDown_not_top.
Qed.

(** C1, as the code has it: for an activated trap with at least one
    cached focusable element whose container is the top of
    [activeFocusTraps], Tab on the last cached element prevents the default
    and calls [focus()] on the first, Shift+Tab on the first prevents the
    default and calls [focus()] on the last, and any other Tab is left to
    the browser. The call moves focus to the element if it can take
    focus, and otherwise leaves focus where it is; in both cases focus is
    on a cached element afterwards. *)
Theorem tab_cycles_in_top_trap (t : Trap) (e : KeyboardEvent) (g : Global)
    (firstElement lastElement : Element) :
  trapActive t = true →
  head (focusableElementsRef t) = Some firstElement →
  last (focusableElementsRef t) = Some lastElement →
  last (activeFocusTraps g) = Some (container t) →
  key e = "Tab" →
  (shiftKey e = false → activeElement g = Some lastElement →
   handleKeyDown t e g = (focus firstElement g, true)
   ∧ (firstElement ∉ unfocusable g →
      activeElement (handleKeyDown t e g).1 = Some firstElement)
   ∧ (firstElement ∈ unfocusable g →
      activeElement (handleKeyDown t e g).1 = Some lastElement))
  ∧ (shiftKey e = true → activeElement g = Some firstElement →
     handleKeyDown t e g = (focus lastElement g, true)
     ∧ (lastElement ∉ unfocusable g →
        activeElement (handleKeyDown t e g).1 = Some lastElement)
     ∧ (lastElement ∈ unfocusable g →
        activeElement (handleKeyDown t e g).1 = Some firstElement))
  ∧ ((shiftKey e = false → activeElement g ≠ Some lastElement) →
     (shiftKey e = true → activeElement g ≠ Some firstElement) →
     handleKeyDown t e g = (g, false))
  ∧ (∀ el, el ∉ unfocusable g →
       focus el g = {| activeFocusTraps := activeFocusTraps g;
                       activeElement := Some el;
                       unfocusable := unfocusable g |})
  ∧ (∀ el, el ∈ unfocusable g → focus el g = g).
Proof.
  intros Ha Hfirst Hlast Htop Hkey.
  assert (∀ el target, activeElement g = Some el →
            (target ∉ unfocusable g →
             activeElement (focus target g) = Some target)
            ∧ (target ∈ unfocusable g →
               activeElement (focus target g) = Some el)) as Hfocus.
  { intros el target Hel. rewrite focus_activeElement.
    split; intros Hin.
    - by rewrite bool_decide_false.
    - by rewrite bool_decide_true. }
  split; [|split; [|split; [|split]]].
  4:{ intros el Hel. unfold focus. by rewrite bool_decide_false. }
  4:{ intros el Hel. unfold focus. by rewrite bool_decide_true. }
  all: unfold handleKeyDown;
    rewrite Ha, (bool_decide_true _ Hkey), (bool_decide_true _ Htop);
    cbn [negb orb];
    destruct (focusableElementsRef t) as [|x l] eqn:Hel; [done|];
    injection Hfirst as ->;
    rewrite (last_default (firstElement :: l) lastElement firstElement Hlast).
  - intros Hs Hact. rewrite Hs, (bool_decide_true _ Hact). cbn [andb negb fst].
    split; [done|]. by apply Hfocus.
  - intros Hs Hact. rewrite Hs, (bool_decide_true _ Hact). cbn [andb negb fst].
    split; [done|]. by apply Hfocus.
  - intros Hl Hf. destruct (shiftKey e); cbn [andb negb].
    + by rewrite bool_decide_false by auto.
    + by rewrite bool_decide_false by auto.
Qed.

Lemma dispatch_nothing (ts : list (nat * Trap)) (e : KeyboardEvent)
    (g : Global) :
  (∀ h t, (h, t) ∈ ts → handleKeyDown t e g = (g, false)) →
  dispatch ts e g = (g, false).
Proof.
  induction ts as [|[h t] ts IH]; intros Hall; simpl; [done|].
  rewrite (Hall h t) by (by left).
  rewrite IH; [done|]. intros h' t' Hin. apply (Hall h' t'). by right.
Qed.

(** C10: when the trap on top of the stack has nothing cached, a keydown
    is handled by no trap: the handler of the top trap returns on the empty
    list, the handlers of the others because their container is not on
    top, the default is not prevented and focus stays where it is; and a
    trap activated with nothing focusable is pushed all the same. *)
Theorem empty_top_trap_handles_nothing (sys : System) (e : KeyboardEvent) :
  Forall (λ p, last (activeFocusTraps (global sys)) = Some (container p.2) →
               focusableElementsRef p.2 = []) (traps sys) →
  (∀ h t, (h, t) ∈ traps sys →
          handleKeyDown t e (global sys) = (global sys, false))
  ∧ dispatch (traps sys) e (global sys) = (global sys, false)
  ∧ activeElement (global (exec sys (KeyDown e))) = activeElement (global sys)
  ∧ (∀ t g,
       let r := activateFocusTrap [] t g in
       last (activeFocusTraps r.2) = Some (container t)
       ∧ trapActive r.1 = true ∧ focusableElementsRef r.1 = []).
Proof.
  intros Hempty.
  assert (∀ h t, (h, t) ∈ traps sys →
            handleKeyDown t e (global sys) = (global sys, false)) as Hall.
  { intros h t Hin.
    destruct (decide (last (activeFocusTraps (global sys))
                      = Some (container t))) as [Htop|Hlow].
    - apply handleKeyDown_empty.
      rewrite Forall_forall in Hempty. by apply (Hempty (h, t)).
    - by apply handleKeyDown_not_top. }
  split; [done|]. split; [by apply dispatch_nothing|].
  split; [simpl; by rewrite dispatch_nothing|].
  intros t g. simpl. split; [|done]. apply last_snoc.
Qed.

Lemma stack_is_activation_order_witness :
  Forall2 (λ c h, ∃ t, lookupTrap h (traps (run init delayedThird)) = Some t
                       ∧ trapActive t = true ∧ container t = c)
    [3; 2]%nat [2; 1]%nat.
Proof.
  exact (proj1 (stack_is_activation_order delayedThird eq_refl)).
Defined.

Lemma tab_cycles_in_top_trap_witness :
  handleKeyDown upperTrap tabKey (focusOn 21%nat)
  = (focusOn 20%nat, true)
  ∧ activeElement (handleKeyDown upperTrap tabKey (focusOn 21%nat)).1
    = Some 20%nat.
Proof.
  destruct (tab_cycles_in_top_trap upperTrap tabKey (focusOn 21%nat)
              20%nat 21%nat) as (Htab & _); [reflexivity..|].
  destruct Htab as (Hcall & Hmoves & _); [reflexivity..|].
  split; [rewrite Hcall; reflexivity|].
  apply Hmoves. intros Hin. vm_compute in Hin. discriminate.
Defined.

(** C1 as stated fails: the lower of two activated traps has two cached
    elements and focus is on the last of them, yet Tab is neither
    prevented nor answered with a move to the first, by its own handler or
    by any other. And in the upper trap, when the first cached element
    cannot take focus, Tab on the last is prevented but focus does not
    move. *)
Lemma lower_trap_counterexample :
  lookupTrap 0 (traps twoModals) = Some lowerTrap
  ∧ trapActive lowerTrap = true
  ∧ focusableElementsRef lowerTrap = [10; 11]%nat
  ∧ activeElement (global twoModals) = Some 11%nat
  ∧ handleKeyDown lowerTrap tabKey (global twoModals)
    = (global twoModals, false)
  ∧ handleKeyDown lowerTrap tabKey (global twoModals)
    ≠ (focusOn 10%nat, true)
  ∧ dispatch (traps twoModals) tabKey (global twoModals)
    = (global twoModals, false)
  ∧ lookupTrap 1 (traps twoModals) = Some upperTrap
  ∧ activeElement firstDisabled = Some 21%nat
  ∧ handleKeyDown upperTrap tabKey firstDisabled = (firstDisabled, true).
Proof. repeat split; vm_compute; (reflexivity || discriminate). Qed.

Lemma empty_top_trap_handles_nothing_witness :
  dispatch (traps (run init emptyOnTop)) tabKey (global (run init emptyOnTop))
  = (global (run init emptyOnTop), false).
Proof.
  apply (empty_top_trap_handles_nothing (run init emptyOnTop) tabKey).
  repeat constructor; done.
Defined.

End FocusTrapFacts.

(** ** TourTipBackdrop *)
Module TourTipBackdropFacts.
Import Punchouts TourTipBackdrop.

Lemma crossing_horizontal (p a b : Point) :
  a.2 = b.2 → crossing p a b = 0.
Proof.
  intros Heq. unfold crossing. rewrite <- Heq.
  destruct (Z.leb_spec a.2 p.2) as [Hle|Hlt].
  - destruct (Z.ltb_spec p.2 a.2); [lia|done].
  - destruct (Z.leb_spec a.2 p.2); [lia|done].
Qed.

Lemma crossing_vertical (p a b : Point) :
  a.1 = b.1 →
  crossing p a b
  = if p.1 <? a.1 then
      if (a.2 <=? p.2) && (p.2 <? b.2) then 1
      else if (b.2 <=? p.2) && (p.2 <? a.2) then -1 else 0
    else 0.
Proof.
  intros Heq. unfold crossing, isLeft. rewrite <- Heq.
  replace ((a.1 - a.1) * (p.2 - a.2) - (p.1 - a.1) * (b.2 - a.2))
    with ((a.1 - p.1) * (b.2 - a.2)) by lia.
  destruct (Z.ltb_spec p.1 a.1) as [Hx|Hx];
    destruct (Z.leb_spec a.2 p.2) as [Ha|Ha];
    destruct (Z.ltb_spec p.2 b.2) as [Hb|Hb];
    destruct (Z.leb_spec b.2 p.2) as [Hb'|Hb'];
    destruct (Z.ltb_spec p.2 a.2) as [Ha'|Ha']; simpl; try lia;
    repeat match goal with
    | |- context [?u <? ?v] => destruct (Z.ltb_spec u v)
    end; try reflexivity; nia.
Qed.

Lemma winding_punch_out (X Y w h x y width height : Z) :
  0 ≤ X < w → 0 ≤ Y < h → 0 ≤ width → 0 ≤ height →
  windingNumber (X, Y)
    [ (0, 0); (0, h); (w, h); (w, 0); (x, 0); (x, y); (x + width, y);
      (x + width, y + height); (x, y + height); (x, y); (x, 0); (0, 0) ]
  = if inRectangle x y width height X Y then 0 else -1.
Proof.
  intros HX HY Hw Hh. unfold windingNumber. cbn [windingFrom].
  rewrite (crossing_horizontal _ (0, h) (w, h)),
    (crossing_horizontal _ (w, 0) (x, 0)),
    (crossing_horizontal _ (x, y) (x + width, y)),
    (crossing_horizontal _ (x + width, y + height) (x, y + height)),
    (crossing_horizontal _ (x, 0) (0, 0)),
    (crossing_horizontal _ (0, 0) (0, 0)) by reflexivity.
  rewrite (crossing_vertical _ (0, 0) (0, h)),
    (crossing_vertical _ (w, h) (w, 0)),
    (crossing_vertical _ (x, 0) (x, y)),
    (crossing_vertical _ (x + width, y) (x + width, y + height)),
    (crossing_vertical _ (x, y + height) (x, y)),
    (crossing_vertical _ (x, y) (x, 0)) by reflexivity.
  unfold inRectangle. cbn [fst snd].
  repeat match goal with
  | |- context [?u <? ?v] => destruct (Z.ltb_spec u v)
  | |- context [?u <=? ?v] => destruct (Z.leb_spec u v)
  end; simpl; lia.
Qed.

Lemma append_cons (ch : Ascii.ascii) (a b : string) :
  String ch a +:+ b = String ch (a +:+ b).
Proof. reflexivity. Qed.

Lemma append_assoc (a b c : string) : (a +:+ b) +:+ c = a +:+ (b +:+ c).
Proof.
  induction a as [|ch a IH]; [reflexivity|].
  by rewrite !append_cons, IH.
Qed.

Lemma vertices_render (p : Props.t) :
  vertices (Some p) = renderVertex <$> vertexTree p.
Proof.
  unfold vertices, vertexTree, renderVertex, renderCoord.
  cbn [fmap list_fmap fst snd].
  repeat (apply (f_equal2 cons); [rewrite ?append_assoc; reflexivity|]).
  reflexivity.
Qed.

Lemma inRectangle_double (x y width height i j : Z) :
  inRectangle (2 * x) (2 * y) (2 * width) (2 * height) (2 * i + 1) (2 * j + 1)
  = inRectangle x y width height i j.
Proof.
  unfold inRectangle.
  repeat match goal with
  | |- context [?u <? ?v] => destruct (Z.ltb_spec u v)
  | |- context [?u <=? ?v] => destruct (Z.leb_spec u v)
  end; simpl; lia.
Qed.

Lemma evalPolygon_resolved (resolve : string → option Z) (p : Props.t)
    (x y width height w h : Z) :
  resolve (tpl (Props.x p)) = Some x →
  resolve (tpl (Props.y p)) = Some y →
  resolve (Props.width p) = Some width →
  resolve (Props.height p) = Some height →
  evalPolygon resolve w h (vertexTree p)
  = Some [ (0, 0); (0, h); (w, h); (w, 0); (x, 0); (x, y); (x + width, y);
           (x + width, y + height); (x, y + height); (x, y); (x, 0); (0, 0) ].
Proof.
  intros Hx Hy Hw Hh.
  unfold evalPolygon, vertexTree, evalVertex, evalCoord.
  cbn [mapM fst snd]. rewrite Hx, Hy, Hw, Hh.
  cbn [mbind option_bind mret option_ret].
  rewrite !Z.mul_0_l, !Zdiv_0_l.
  rewrite !(Z.mul_comm 100), !Z.div_mul by done.
  reflexivity.
Qed.

(** C7, as the code has it: with a punch-out whose four lengths the
    browser resolves, of
    non-negative width and height, the backdrop gets a clip path that is
    the polygon of exactly 12 vertices, and of the pixels of the backdrop's
    box exactly those outside the rectangle from (x, y) to
    (x + width, y + height) stay darkened; without a punch-out there is no
    clip path and every pixel of the box is darkened. *)
Theorem punch_out_polygon (resolve : string → option Z) (p : Props.t)
    (x y width height w h : Z) :
  resolve (tpl (Props.x p)) = Some x →
  resolve (tpl (Props.y p)) = Some y →
  resolve (Props.width p) = Some width →
  resolve (Props.height p) = Some height →
  0 ≤ width → 0 ≤ height →
  length (vertices (Some p)) = 12%nat
  ∧ clipPath (Some p)
    = Some ("polygon(" +:+ String.concat ", " (renderVertex <$> vertexTree p)
            +:+ ")")
  ∧ (∀ i j, 0 ≤ i < w → 0 ≤ j < h →
       darkened w h (backdropClip resolve w h (Some p)) i j
       = negb (inRectangle x y width height i j))
  ∧ (∀ i j, darkened w h (backdropClip resolve w h (Some p)) i j = true →
       0 ≤ i < w ∧ 0 ≤ j < h)
  ∧ clipPath None = None
  ∧ (∀ i j, 0 ≤ i < w → 0 ≤ j < h →
       darkened w h (backdropClip resolve w h None) i j = true).
Proof.
  intros Hx Hy Hw Hh Hwidth Hheight.
  assert (∀ i j, darkened w h (backdropClip resolve w h (Some p)) i j = true →
            0 ≤ i < w ∧ 0 ≤ j < h) as Hbox.
  { intros i j. unfold darkened.
    destruct (Z.leb_spec 0 i), (Z.ltb_spec i w), (Z.leb_spec 0 j),
      (Z.ltb_spec j h); simpl; (done || lia). }
  split; [reflexivity|]. split; [by rewrite <- vertices_render|].
  split; [|split; [done|split; [reflexivity|]]].
  - intros i j Hi Hj. unfold darkened, backdropClip.
    rewrite (evalPolygon_resolved resolve p x y width height w h) by done.
    destruct (Z.leb_spec 0 i), (Z.ltb_spec i w), (Z.leb_spec 0 j),
      (Z.ltb_spec j h); try lia. simpl.
    unfold inPolygon, double. cbn [fmap list_fmap fst snd].
    rewrite !Z.mul_0_r, !Z.mul_add_distr_l.
    rewrite winding_punch_out by lia.
    rewrite inRectangle_double.
    by destruct (inRectangle x y width height i j).
  - intros i j Hi Hj. unfold darkened, backdropClip.
    destruct (Z.leb_spec 0 i), (Z.ltb_spec i w), (Z.leb_spec 0 j),
      (Z.ltb_spec j h); (done || lia).
Qed.

Lemma punch_out_polygon_witness :
  clipPath (Some samplePunchOut)
  = Some "polygon(0% 0%, 0% 100%, 100% 100%, 100% 0%, 10px 0%, 10px 20px, calc(10px + 30px) 20px, calc(10px + 30px) calc(20px + 5px), 10px calc(20px + 5px), 10px 20px, 10px 0%, 0% 0%)"
  ∧ darkened 100 50 (backdropClip parsePx 100 50 (Some samplePunchOut)) 15 22
    = false
  ∧ darkened 100 50 (backdropClip parsePx 100 50 (Some samplePunchOut)) 50 22
    = true.
Proof.
  destruct (punch_out_polygon parsePx samplePunchOut 10 20 30 5 100 50)
    as (_ & Hclip & Hd & _); [reflexivity..|lia|lia|].
  split; [rewrite Hclip; reflexivity|].
  split; rewrite Hd by lia; reflexivity.
Defined.

(** C7 as stated fails: a punch-out of negative width gets the polygon
    of 12 vertices, yet the pixel (20, 22) between its corners (40, 20)
    and (10, 25) stays darkened, the inner loop of the polygon running the
    same way round as the outer one; and a punch-out without x and y
    gets a polygon with the vertex [undefined 0%], which is no polygon to
    the browser, so nothing is excluded. *)
Lemma punch_out_counterexample :
  length (vertices (Some leftwardPunchOut)) = 12%nat
  ∧ clipPath (Some leftwardPunchOut)
    = Some "polygon(0% 0%, 0% 100%, 100% 100%, 100% 0%, 40px 0%, 40px 20px, calc(40px + -30px) 20px, calc(40px + -30px) calc(20px + 5px), 40px calc(20px + 5px), 40px 20px, 40px 0%, 0% 0%)"
  ∧ parsePx "40px" = Some 40 ∧ parsePx "-30px" = Some (-30)
  ∧ parsePx "20px" = Some 20 ∧ parsePx "5px" = Some 5
  ∧ (40 + -30 ≤ 20 < 40 ∧ 20 ≤ 22 < 20 + 5)
  ∧ darkened 100 50 (backdropClip parsePx 100 50 (Some leftwardPunchOut))
      20 22 = true
  ∧ clipPath (Some unplacedPunchOut)
    = Some "polygon(0% 0%, 0% 100%, 100% 100%, 100% 0%, undefined 0%, undefined undefined, calc(undefined + 30px) undefined, calc(undefined + 30px) calc(undefined + 5px), undefined calc(undefined + 5px), undefined undefined, undefined 0%, 0% 0%)"
  ∧ backdropClip parsePx 100 50 (Some unplacedPunchOut) = None
  ∧ (∀ i j, 0 ≤ i < 100 → 0 ≤ j < 50 →
       darkened 100 50 (backdropClip parsePx 100 50 (Some unplacedPunchOut))
         i j = true).
Proof.
  assert (backdropClip parsePx 100 50 (Some unplacedPunchOut) = None)
    as Hnone by (vm_compute; reflexivity).
  do 6 (split; [vm_compute; reflexivity|]).
  split; [lia|].
  do 2 (split; [vm_compute; reflexivity|]).
  split; [exact Hnone|].
  intros i j Hi Hj. rewrite Hnone. unfold darkened.
  destruct (Z.leb_spec 0 i), (Z.ltb_spec i 100), (Z.leb_spec 0 j),
    (Z.ltb_spec j 50); (done || lia).
Qed.

(** The pixel strings of [useMeasurePunchouts] resolve to the numbers
    they were printed from. *)
Lemma stripPx_app (s : string) : stripPx (s +:+ "px") = Some s.
Proof.
  induction s as [|c s IH]; [reflexivity|].
  rewrite append_cons. cbn [stripPx]. rewrite bool_decide_false.
  - by rewrite IH.
  - intros [= -> Hs]. destruct s as [|? [|? ?]]; discriminate.
Qed.

Lemma parsePx_decimal (n : Z) : parsePx (decimal n +:+ "px") = Some n.
Proof.
  unfold parsePx, decimal. rewrite stripPx_app, NilZero.isi.
  - simpl. f_equal. apply DecimalZ.of_to.
  - destruct n; [done| |done]. simpl. intros [= Hn].
    by apply DecimalPos.Unsigned.to_uint_nonnil in Hn.
  - destruct n; [done|done|]. simpl. intros [= Hn].
    by apply DecimalPos.Unsigned.to_uint_nonnil in Hn.
Qed.

Lemma parsePx_px (n : Z) : Z.abs n < 10 ^ 21 → parsePx (px n) = Some n.
Proof.
  intros Hn. unfold px.
  rewrite NumberFacts.num_to_string_decimal by done.
  apply parsePx_decimal.
Qed.

End TourTipBackdropFacts.


(** * Further properties of the code *)

(** ** useFocusTrap *)
Module FocusTrapMore.
Import FocusTrap FocusTrapFacts.

(** X1: an effect that runs with a positive [delayMs] registers its trap
    without pushing the container; until the timer fires its handler
    ignores every keydown, and when the timer fires the container is
    pushed and the focusable elements are cached. *)
Theorem delayed_trap_waits (c : Element) (opts : FocusTrapOptions)
    (pe : list Element) (pf : option Element) (found : list Element)
    (g : Global) (d : Z) :
  delayMs opts = Some d → 0 < d →
  ∃ t, effect true (Some c) opts pe pf found g = (Some t, g)
       ∧ container t = c ∧ trapActive t = false ∧ timeoutId t = true
       ∧ (∀ e g', handleKeyDown t e g' = (g', false))
       ∧ (∀ found' g',
            activeFocusTraps (onTimeout found' t g').2
            = activeFocusTraps g' ++ [c]
            ∧ trapActive (onTimeout found' t g').1 = true
            ∧ focusableElementsRef (onTimeout found' t g').1 = found').
Proof.
  intros Hd Hpos. unfold effect. simpl. rewrite Hd, bool_decide_true by done.
  eexists. split; [reflexivity|]. simpl.
  split; [done|]. split; [done|]. split; [done|]. split.
  - intros e g'. unfold handleKeyDown. simpl.
    by destruct (negb (bool_decide (key e = "Tab"))).
  - intros found' g'. unfold onTimeout. simpl.
    match goal with
    | |- context [activateFocusTrap found' ?T g'] =>
        destruct (activateFocusTrap_spec found' T g')
          as (_ & Ha & _ & Hf & Hs)
    end.
    done.
Qed.

Lemma removeTrap_app_fresh (h : nat) (t : Trap) (ts : list (nat * Trap)) :
  lookupTrap h ts = None → removeTrap h (ts ++ [(h, t)]) = ts.
Proof.
  induction ts as [|[h0 t0] ts IH]; simpl.
  - by rewrite bool_decide_true.
  - case_bool_decide; [done|]. intros Hn. by rewrite IH.
Qed.

(** X2: when the cleanup of a delayed trap runs before its timer, the
    stack, the focus and the other traps are as they were before the
    effect, and a timer that fires afterwards finds nothing to activate. *)
Theorem cleanup_cancels_delay (sys : System) (h : nat) (c : Element)
    (opts : FocusTrapOptions) (found found' : list Element) (d : Z) :
  lookupTrap h (traps sys) = None →
  delayMs opts = Some d → 0 < d →
  let sys' := run sys [ RunEffect h true (Some c) opts found;
                        Cleanup h; Timeout h found' ] in
  global sys' = global sys ∧ traps sys' = traps sys.
Proof.
  intros Hfree Hd Hpos. unfold run. simpl.
  unfold effect. simpl. rewrite Hd, bool_decide_true by done. simpl.
  rewrite lookupTrap_app, Hfree, bool_decide_true by done. simpl.
  rewrite removeTrap_app_fresh by done. rewrite Hfree. simpl.
  split; [|done]. unfold cleanup. simpl.
  destruct (global sys) as [stack [el|] dom]; destruct (restoreFocus opts);
    simpl; try done.
  unfold focus. simpl. by case_bool_decide.
Qed.

Lemma indexOf_None (c : Element) (l : list Element) :
  indexOf c l = None ↔ c ∉ l.
Proof.
  induction l as [|x l IH]; simpl.
  - split; [intros _; apply not_elem_of_nil|done].
  - case_bool_decide as Hx.
    + subst. split; [done|]. intros Hn. destruct Hn. by left.
    + rewrite not_elem_of_cons, <- IH.
      destruct (indexOf c l) as [i|]; simpl.
      * split; [done|]. by intros [_ ?].
      * split; [by intros _|done].
Qed.

Lemma indexOf_app_l (c : Element) (l k : list Element) (i : nat) :
  indexOf c l = Some i → indexOf c (l ++ k) = Some i.
Proof.
  revert i. induction l as [|x l IH]; intros i; simpl; [done|].
  case_bool_decide; [done|].
  destruct (indexOf c l) as [j|]; simpl; [|done].
  intros [= <-]. by rewrite (IH j).
Qed.

Lemma indexOf_snoc_fresh (c : Element) (l : list Element) :
  c ∉ l → indexOf c (l ++ [c]) = Some (length l).
Proof.
  induction l as [|x l IH]; simpl.
  - intros _. by rewrite bool_decide_true.
  - intros [Hne Hnin]%not_elem_of_cons. rewrite bool_decide_false by done.
    by rewrite IH.
Qed.

Lemma indexOf_lt (c : Element) (l : list Element) (i : nat) :
  indexOf c l = Some i → (i < length l)%nat.
Proof.
  revert i. induction l as [|x l IH]; intros i; simpl; [done|].
  case_bool_decide; [intros [= <-]; lia|].
  destruct (indexOf c l) as [j|]; simpl; [|done].
  intros [= <-]. specialize (IH j eq_refl). lia.
Qed.

Lemma splice1_app_l (i : nat) (l k : list Element) :
  (i < length l)%nat → splice1 i (l ++ k) = splice1 i l ++ k.
Proof.
  intros Hi. unfold splice1.
  rewrite take_app_le, drop_app_le by lia. by rewrite app_assoc.
Qed.

Lemma splice1_last (l : list Element) (c : Element) :
  splice1 (length l) (l ++ [c]) = l.
Proof.
  unfold splice1. rewrite take_app_length.
  rewrite drop_app_ge by lia.
  replace (S (length l) - length l)%nat with 1%nat by lia.
  simpl. by rewrite app_nil_r.
Qed.

(** X4: activating a trap and cleaning it up gives the stack back as it
    was when its container was not on it; when the container was on the
    stack already, it is the older entry that the cleanup takes out. *)
Theorem activate_then_cleanup (found : list Element) (t : Trap) (g : Global) :
  let r := activateFocusTrap found t g in
  activeFocusTraps (cleanup r.1 r.2)
  = match indexOf (container t) (activeFocusTraps g) with
    | Some index => splice1 index (activeFocusTraps g) ++ [container t]
    | None => activeFocusTraps g
    end
  ∧ (container t ∉ activeFocusTraps g →
     activeFocusTraps (cleanup r.1 r.2) = activeFocusTraps g).
Proof.
  intros r. subst r.
  destruct (activateFocusTrap_spec found t g) as (Hc & Ha & _ & _ & Hs).
  assert (activeFocusTraps
            (cleanup (activateFocusTrap found t g).1
                     (activateFocusTrap found t g).2)
          = match indexOf (container t) (activeFocusTraps g) with
            | Some index => splice1 index (activeFocusTraps g) ++ [container t]
            | None => activeFocusTraps g
            end) as Hmain.
  { rewrite cleanup_stack, Ha, Hc, Hs.
    destruct (indexOf (container t) (activeFocusTraps g)) as [i|] eqn:Hi.
    - rewrite (indexOf_app_l _ _ _ i Hi).
      apply splice1_app_l. by eapply indexOf_lt.
    - apply indexOf_None in Hi.
      rewrite indexOf_snoc_fresh by done. apply splice1_last. }
  split; [done|]. intros Hnin. rewrite Hmain.
  apply indexOf_None in Hnin. by rewrite Hnin.
Qed.

Lemma default_last_elem (l : list Element) (d : Element) :
  l ≠ [] → List.last l d ∈ l.
Proof.
  induction l as [|x l IH]; [done|]. intros _.
  destruct l as [|y l]; [by left|].
  right. by apply IH.
Qed.

(** X5: [handleKeyDown] never changes the stack; when it does not prevent
    the default it changes nothing at all, and when it does, the key was
    Tab, the trap was the activated top of the stack, and focus went from
    one cached element of the trap to another. *)
Theorem handler_stays_inside (t : Trap) (e : KeyboardEvent) (g : Global) :
  let r := handleKeyDown t e g in
  activeFocusTraps r.1 = activeFocusTraps g
  ∧ (r.2 = false → r.1 = g)
  ∧ (r.2 = true →
     key e = "Tab" ∧ trapActive t = true
     ∧ last (activeFocusTraps g) = Some (container t)
     ∧ (∃ from, activeElement g = Some from ∧ from ∈ focusableElementsRef t)
     ∧ ∃ to, activeElement r.1 = Some to ∧ to ∈ focusableElementsRef t).
Proof.
  simpl. split; [apply handleKeyDown_stack|].
  unfold handleKeyDown.
  case_bool_decide as Hkey; simpl; [|done].
  destruct (trapActive t); simpl; [|done].
  case_bool_decide as Htop; simpl; [|done].
  destruct (focusableElementsRef t) as [|firstElement rest] eqn:Hel; [done|].
  pose proof (default_last_elem (firstElement :: rest) firstElement
                ltac:(done)) as Hlast.
  set (lastElement := List.last (firstElement :: rest) firstElement) in *.
  destruct (shiftKey e); simpl.
  - case_bool_decide as Hf; simpl; [|done]. split; [done|]. intros _.
    repeat split; try done.
    + exists firstElement. split; [done|by left].
    + rewrite focus_activeElement. case_bool_decide.
      * exists firstElement. split; [done|by left].
      * by exists lastElement.
  - case_bool_decide as Hl; simpl; [|done]. split; [done|]. intros _.
    repeat split; try done.
    + by exists lastElement.
    + rewrite focus_activeElement. case_bool_decide.
      * by exists lastElement.
      * exists firstElement. split; [done|by left].
Qed.

(** X6: a keydown of any key but Tab passes every mounted trap: focus and
    stack stay, the default is not prevented. *)
Theorem other_keys_pass (ts : list (nat * Trap)) (e : KeyboardEvent)
    (g : Global) :
  key e ≠ "Tab" → dispatch ts e g = (g, false).
Proof.
  intros Hkey. apply dispatch_nothing. intros h t _.
  unfold handleKeyDown. by rewrite bool_decide_false.
Qed.

Lemma lookupTrap_elem (h : nat) (t : Trap) (ts : list (nat * Trap)) :
  NoDup ts.*1 → (h, t) ∈ ts → lookupTrap h ts = Some t.
Proof.
  induction ts as [|[h0 t0] ts IH]; simpl.
  - by intros _ ?%elem_of_nil.
  - intros [Hnin Hnd]%NoDup_cons [[= -> ->]|Hin]%elem_of_cons.
    + by rewrite bool_decide_true.
    + rewrite bool_decide_false; [by apply IH|].
      intros ->. apply Hnin. apply list_elem_of_fmap. by exists (h, t).
Qed.

(** Under the invariant no two mounted traps share a container. *)
Lemma Inv_containers_NoDup (sys : System) (order : list nat) :
  Inv sys order → NoDup ((λ p, container p.2) <$> traps sys).
Proof.
  intros [Hhooks Hinj _ _ _ _].
  apply NoDup_fmap_2_strong; [|by eapply NoDup_fmap_1].
  intros [h1 t1] [h2 t2] H1 H2 Hc. simpl in Hc.
  pose proof (lookupTrap_elem h1 t1 _ Hhooks H1) as L1.
  pose proof (lookupTrap_elem h2 t2 _ Hhooks H2) as L2.
  assert (h1 = h2) as -> by (by apply (Hinj h1 h2 t1 t2)).
  congruence.
Qed.

Lemma dispatch_top (ts : list (nat * Trap)) (e : KeyboardEvent) (g : Global)
    (c : Element) :
  last (activeFocusTraps g) = Some c →
  NoDup ((λ p, container p.2) <$> ts) →
  dispatch ts e g
  = match snd <$> head (filter (λ p, container p.2 = c) ts) with
    | Some t => handleKeyDown t e g
    | None => (g, false)
    end.
Proof.
  intros Htop. induction ts as [|[h t] ts IH]; [done|].
  rewrite fmap_cons. intros [Hnin Hnd]%NoDup_cons.
  cbn [dispatch]. destruct (decide (container t = c)) as [Hc|Hc].
  - rewrite filter_cons_True by done. simpl.
    pose proof (handleKeyDown_stack t e g) as Hst.
    destruct (handleKeyDown t e g) as [g1 p1]. simpl in Hst.
    rewrite dispatch_nothing; [by rewrite orb_false_r|].
    intros h' t' Hin. apply handleKeyDown_not_top.
    rewrite Hst, Htop. intros [= Heq]. apply Hnin.
    apply list_elem_of_fmap. exists (h', t'). simpl in *. split; [congruence|done].
  - rewrite filter_cons_False by done.
    rewrite handleKeyDown_not_top by (rewrite Htop; congruence).
    rewrite IH by done.
    by destruct (snd <$> head (filter (λ p, container p.2 = c) ts)) as [t'|];
      [destruct (handleKeyDown t' e g)|].
Qed.

(** X7: on every page that events lead to, what a keydown does is what
    the handler of the trap on top of the stack does alone; with an empty
    stack it does nothing. *)
Theorem dispatch_is_top_handler (evs : list Event) (e : KeyboardEvent) :
  wf_trace init evs = true →
  let sys := run init evs in
  dispatch (traps sys) e (global sys)
  = match topTrap sys with
    | Some t => handleKeyDown t e (global sys)
    | None => (global sys, false)
    end.
Proof.
  intros Hwf sys.
  pose proof (Inv_run init [] evs Inv_init Hwf) as HI. fold sys in HI.
  unfold topTrap.
  destruct (last (activeFocusTraps (global sys))) as [c|] eqn:Htop.
  - apply dispatch_top; [done|]. by eapply Inv_containers_NoDup.
  - apply dispatch_nothing. intros h t _. apply handleKeyDown_not_top.
    by rewrite Htop.
Qed.

Lemma lookupTrap_In (h : nat) (t : Trap) (ts : list (nat * Trap)) :
  lookupTrap h ts = Some t → (h, t) ∈ ts.
Proof.
  induction ts as [|[h0 t0] ts IH]; simpl; [done|].
  case_bool_decide.
  - intros [= ->]. subst. by left.
  - intros Hl. right. by apply IH.
Qed.

Lemma Forall_updateTrap (P : nat * Trap → Prop) (h : nat) (t' : Trap)
    (ts : list (nat * Trap)) :
  Forall P ts → P (h, t') → Forall P (updateTrap h t' ts).
Proof.
  intros Hall Hnew. induction Hall as [|[h0 t0] ts H0 Hall IH]; simpl;
    [constructor|].
  case_bool_decide; [subst|]; by constructor.
Qed.

Lemma Forall_removeTrap (P : nat * Trap → Prop) (h : nat)
    (ts : list (nat * Trap)) :
  Forall P ts → Forall P (removeTrap h ts).
Proof.
  intros Hall. induction Hall as [|[h0 t0] ts H0 Hall IH]; simpl;
    [constructor|].
  case_bool_decide; [done|by constructor].
Qed.

Lemma lookupTrap_remove_ne (h h' : nat) (ts : list (nat * Trap)) :
  h ≠ h' → lookupTrap h (removeTrap h' ts) = lookupTrap h ts.
Proof.
  intros Hne. induction ts as [|[h0 t0] ts IH]; simpl; [done|].
  destruct (decide (h0 = h')) as [->|Hne'].
  - rewrite bool_decide_true by done. by rewrite bool_decide_false.
  - rewrite (bool_decide_false (h0 = h')) by done. simpl. by rewrite IH.
Qed.

(** What activation leaves of a trap. *)
Lemma activateFocusTrap_keeps (found : list Element) (t : Trap) (g : Global) :
  options (activateFocusTrap found t g).1 = options t
  ∧ previousFocusRef (activateFocusTrap found t g).1 = previousFocusRef t
  ∧ (initialFocus (options t) = false →
     activeElement (activateFocusTrap found t g).2 = activeElement g).
Proof.
  unfold activateFocusTrap. destruct found as [|first rest]; [done|].
  destruct (initialFocus (options t)); done.
Qed.

Lemma modal_step_focus (sys : System) (ev : Event) :
  Forall noFocusOptions (traps sys) →
  modalLifecycle ev = true →
  activeElement (global (exec sys ev)) = activeElement (global sys)
  ∧ Forall noFocusOptions (traps (exec sys ev)).
Proof.
  intros Hall Hev.
  destruct ev as [h isActive cref opts found|h found|h found|e|h|el|dom];
    simpl in *; try done.
  - apply andb_prop in Hev as [Hi Hr].
    apply negb_true_iff in Hi, Hr.
    unfold effect. destruct cref as [c|]; [|done].
    destruct isActive; simpl; [|done].
    set (t0 := {| container := c; options := opts; trapActive := false;
                  timeoutId := false |}).
    destruct (activateFocusTrap_keeps found t0 (global sys))
      as (Ho & _ & Hf).
    destruct (activateFocusTrap found t0 (global sys)) as [t g'] eqn:Hact.
    simpl in *.
    assert (Forall noFocusOptions (traps sys ++ [(h, t)])) as Hact'.
    { apply Forall_app. split; [done|]. constructor; [|constructor].
      unfold noFocusOptions. simpl. by rewrite Ho. }
    destruct (delayMs opts) as [d|]; [case_bool_decide|]; simpl.
    + split; [done|]. apply Forall_app. split; [done|].
      by constructor; [|constructor].
    + split; [by apply Hf|done].
    + split; [by apply Hf|done].
  - destruct (lookupTrap h (traps sys)) as [t|] eqn:Ht; [|done].
    pose proof (lookupTrap_In h t _ Ht) as Hin.
    rewrite Forall_forall in Hall. destruct (Hall _ Hin) as [Hi Hr].
    unfold onTimeout. destruct (timeoutId t).
    + destruct (activateFocusTrap_keeps found t (global sys))
        as (Ho & _ & Hf).
      destruct (activateFocusTrap found t (global sys)) as [t' g'].
      simpl in *. split; [by apply Hf|].
      apply Forall_updateTrap; [by apply Forall_forall|].
      unfold noFocusOptions. simpl. by rewrite Ho.
    + simpl. split; [done|].
      apply Forall_updateTrap; [by apply Forall_forall|done].
  - destruct (lookupTrap h (traps sys)) as [t|] eqn:Ht; [|done].
    pose proof (lookupTrap_In h t _ Ht) as Hin.
    rewrite Forall_forall in Hall. destruct (Hall _ Hin) as [Hi Hr].
    simpl. split; [done|].
    apply Forall_updateTrap; [by apply Forall_forall|].
    unfold noFocusOptions, onMutation. simpl. by destruct (trapActive t).
  - destruct (lookupTrap h (traps sys)) as [t|] eqn:Ht; [|done].
    pose proof (lookupTrap_In h t _ Ht) as Hin.
    pose proof Hall as Hall'.
    rewrite Forall_forall in Hall'. destruct (Hall' _ Hin) as [Hi Hr].
    simpl in *. split; [|by apply Forall_removeTrap].
    unfold cleanup. rewrite Hr.
    by destruct (trapActive t),
      (indexOf (container t) (activeFocusTraps (global sys))).
Qed.

(** X8: traps that run with the options of GenericModal, which has
    neither [initialFocus] nor [restoreFocus], never move focus when they
    are mounted, activated, refreshed or cleaned up. *)
Theorem modal_traps_leave_focus (sys : System) (evs : list Event) :
  Forall noFocusOptions (traps sys) →
  forallb modalLifecycle evs = true →
  activeElement (global (run sys evs)) = activeElement (global sys).
Proof.
  revert sys. induction evs as [|ev evs IH]; intros sys Hall Hevs; [done|].
  simpl in Hevs. apply andb_prop in Hevs as [Hev Hevs].
  destruct (modal_step_focus sys ev Hall Hev) as [Hf Hall'].
  simpl. rewrite (IH _ Hall' Hevs). done.
Qed.

Lemma previous_focus_step (h : nat) (el : Element) (sys : System)
    (ev : Event) :
  keepsPreviousFocus h el sys → isCleanupOf h ev = false →
  keepsPreviousFocus h el (exec sys ev).
Proof.
  unfold keepsPreviousFocus. intros (t & Ht & Hp & Hr) Hev.
  destruct ev
    as [h' isActive cref opts found|h' found|h' found|e|h'|el'|dom];
    simpl in *.
  - destruct (effect _ _ _ _ _ _ _) as [[t'|] g']; simpl.
    + exists t. by rewrite lookupTrap_app, Ht.
    + by exists t.
  - destruct (lookupTrap h' (traps sys)) as [u|] eqn:Hu; [|by exists t].
    destruct (onTimeout found u (global sys)) as [u' g'] eqn:Hto. simpl.
    destruct (decide (h = h')) as [<-|Hne].
    + exists u'. rewrite lookupTrap_update, bool_decide_true, Ht by done.
      split; [done|]. assert (u = t) as -> by congruence.
      unfold onTimeout in Hto. destruct (timeoutId t).
      * destruct (activateFocusTrap_keeps found t (global sys))
          as (Ho & Hpf & _).
        rewrite Hto in Ho, Hpf. simpl in *. by rewrite Ho, Hpf.
      * by injection Hto as <- <-.
    + exists t. by rewrite lookupTrap_update, bool_decide_false.
  - destruct (lookupTrap h' (traps sys)) as [u|] eqn:Hu; [|by exists t].
    simpl. destruct (decide (h = h')) as [<-|Hne].
    + exists (onMutation found u).
      rewrite lookupTrap_update, bool_decide_true, Ht by done.
      split; [done|]. assert (u = t) as -> by congruence.
      unfold onMutation. by destruct (trapActive t).
    + exists t. by rewrite lookupTrap_update, bool_decide_false.
  - by exists t.
  - apply bool_decide_eq_false in Hev.
    destruct (lookupTrap h' (traps sys)) as [u|] eqn:Hu; [|by exists t].
    simpl. exists t. rewrite lookupTrap_remove_ne by done. done.
  - by exists t.
  - by exists t.
Qed.

(** X3: with [restoreFocus], the cleanup of a hook's effect calls
    [focus()] on the element that had focus when the effect ran, whatever
    happened in between, with or without a delay: focus goes back to that
    element if it can still take focus when the cleanup runs, and stays
    where it is otherwise. *)
Theorem focus_restored_on_cleanup (sys : System) (h : nat) (c el : Element)
    (opts : FocusTrapOptions) (found : list Element) (evs : list Event) :
  lookupTrap h (traps sys) = None →
  activeElement (global sys) = Some el →
  restoreFocus opts = true →
  forallb (λ ev, negb (isCleanupOf h ev)) evs = true →
  let before := run sys (RunEffect h true (Some c) opts found :: evs) in
  let after := run sys (RunEffect h true (Some c) opts found
                          :: evs ++ [Cleanup h]) in
  (el ∉ unfocusable (global before) →
   activeElement (global after) = Some el)
  ∧ (el ∈ unfocusable (global before) →
     activeElement (global after) = activeElement (global before)).
Proof.
  intros Hfree Hel Hr Hevs.
  set (sys1 := exec sys (RunEffect h true (Some c) opts found)).
  assert (keepsPreviousFocus h el sys1) as H1.
  { subst sys1. unfold keepsPreviousFocus. simpl. unfold effect. simpl.
    rewrite Hr, Hel.
    set (t0 := {| container := c; options := opts; trapActive := false;
                  timeoutId := false |}).
    destruct (activateFocusTrap_keeps found t0 (global sys))
      as (Ho & Hpf & _).
    destruct (activateFocusTrap found t0 (global sys)) as [t g'].
    simpl in *.
    destruct (delayMs opts) as [d|]; [case_bool_decide|]; simpl;
      eexists; rewrite lookupTrap_app, Hfree, bool_decide_true by done;
      (split; [reflexivity|]); simpl; rewrite ?Ho, ?Hpf; done. }
  assert (∀ s, keepsPreviousFocus h el s →
               keepsPreviousFocus h el (run s evs)) as Hrun.
  { clear H1. induction evs as [|ev evs IH]; intros s Hs; [done|].
    simpl in Hevs. apply andb_prop in Hevs as [Hev Hevs].
    apply negb_true_iff in Hev. simpl. apply IH; [done|].
    by apply previous_focus_step. }
  destruct (Hrun sys1 H1) as (t & Ht & Hp & Hrf).
  change (run sys (RunEffect h true (Some c) opts found
                     :: evs ++ [Cleanup h]))
    with (run sys1 (evs ++ [Cleanup h])).
  change (run sys (RunEffect h true (Some c) opts found :: evs))
    with (run sys1 evs).
  unfold run in *. rewrite foldl_app.
  set (sys2 := foldl exec sys1 evs) in *. cbn [foldl exec].
  rewrite Ht. cbn [global]. unfold cleanup. rewrite Hrf, Hp.
  rewrite focus_activeElement.
  assert (∀ g1 : Global,
            unfocusable g1 = unfocusable (global sys2) →
            activeElement g1 = activeElement (global sys2) →
            (el ∉ unfocusable (global sys2) →
             (if bool_decide (el ∈ unfocusable g1)
              then activeElement g1 else Some el) = Some el)
            ∧ (el ∈ unfocusable (global sys2) →
               (if bool_decide (el ∈ unfocusable g1)
                then activeElement g1 else Some el)
               = activeElement (global sys2))) as Hboth.
  { intros g1 -> ->. split; intros Hin.
    - by rewrite bool_decide_false.
    - by rewrite bool_decide_true. }
  destruct (trapActive t); [|by apply Hboth].
  destruct (indexOf (container t) _); by apply Hboth.
Qed.

Lemma delayed_trap_waits_witness :
  trapActive
    <$> (effect true (Some 2%nat) (genericModalTrapOptions true) [] None
           [20; 21]%nat (focusOn 11%nat)).1
  = Some false.
Proof.
  destruct (delayed_trap_waits 2%nat (genericModalTrapOptions true) [] None
              [20; 21]%nat (focusOn 11%nat) 500)
    as (t & He & _ & Ha & _); [reflexivity|lia|].
  pose proof (f_equal (λ r, trapActive <$> r.1) He) as Hr.
  simpl in Hr. rewrite Ha in Hr. exact Hr.
Defined.

Lemma cleanup_cancels_delay_witness :
  global (run focusOnFive
            [ RunEffect 1 true (Some 2%nat) (genericModalTrapOptions true)
                [20; 21]%nat;
              Cleanup 1; Timeout 1 [20; 21]%nat ])
  = global focusOnFive.
Proof.
  apply (cleanup_cancels_delay focusOnFive 1 2%nat
           (genericModalTrapOptions true) [20; 21]%nat [20; 21]%nat 500);
    [reflexivity|reflexivity|lia].
Defined.

Lemma focus_restored_on_cleanup_witness :
  activeElement
    (global (run focusOnFive
               (RunEffect 0 true (Some 1%nat)
                  {| initialFocus := true; restoreFocus := true;
                     delayMs := None |} [10; 11]%nat
                :: [MoveFocus (Some 11%nat); KeyDown tabKey]
                   ++ [Cleanup 0])))
  = Some 5%nat.
Proof.
  apply (focus_restored_on_cleanup focusOnFive 0 1%nat 5%nat);
    try reflexivity.
  intros Hin. vm_compute in Hin. discriminate.
Defined.

Lemma other_keys_pass_witness :
  dispatch (traps twoModals) enterKeyDown (global twoModals)
  = (global twoModals, false).
Proof. apply other_keys_pass. discriminate. Defined.

Lemma dispatch_is_top_handler_witness :
  dispatch (traps (run init delayedThird)) tabKey
    (global (run init delayedThird))
  = match topTrap (run init delayedThird) with
    | Some t => handleKeyDown t tabKey (global (run init delayedThird))
    | None => (global (run init delayedThird), false)
    end.
Proof. exact (dispatch_is_top_handler delayedThird tabKey eq_refl). Defined.

Lemma modal_traps_leave_focus_witness :
  activeElement
    (global (run focusOnFive
               (pendingSecond ++ [Timeout 1 [20; 21]%nat; Cleanup 0])))
  = Some 5%nat.
Proof.
  apply (modal_traps_leave_focus focusOnFive); [constructor|reflexivity].
Defined.

End FocusTrapMore.


(** ** getFocusableElements and isElementVisible *)
Module FocusableFacts.
Import Focusable.

Lemma walk_Forall (chain : list Node) :
  walk chain = true ↔ Forall (λ n, hides n = false) chain.
Proof.
  induction chain as [|n chain IH]; simpl.
  - split; [constructor|done].
  - destruct (hides n) eqn:Hn.
    + split; [done|]. intros Hall. inversion Hall. congruence.
    + rewrite IH. split; [by constructor|]. intros Hall. by inversion Hall.
Qed.

(** X9: [isElementVisible] holds exactly of an element whose rectangle
    is not 0 by 0 and that, like each of its ancestors, has neither
    [display: none], [visibility: hidden], [pointer-events: none] nor the
    [hidden] attribute. *)
Theorem visible_iff (element : Element) :
  isElementVisible element = true
  ↔ ¬ (rectWidth (self element) = 0 ∧ rectHeight (self element) = 0)
    ∧ Forall (λ n,
        display (computedStyle n) ≠ "none"
        ∧ visibility (computedStyle n) ≠ "hidden"
        ∧ pointerEvents (computedStyle n) ≠ "none"
        ∧ attributes n !! "hidden" = None)
        (self element :: ancestors element).
Proof.
  unfold isElementVisible.
  assert (∀ n, hides n = false
               ↔ display (computedStyle n) ≠ "none"
                 ∧ visibility (computedStyle n) ≠ "hidden"
                 ∧ pointerEvents (computedStyle n) ≠ "none"
                 ∧ attributes n !! "hidden" = None) as Hh.
  { intros n. unfold hides, hasAttribute.
    rewrite !orb_false_iff, !bool_decide_eq_false.
    rewrite <- eq_None_not_Some. tauto. }
  destruct (Z.eqb_spec (rectWidth (self element)) 0) as [Hw|Hw];
    destruct (Z.eqb_spec (rectHeight (self element)) 0) as [Hht|Hht];
    cbn [andb].
  - split; [done|]. intros [Hn _]. by destruct Hn.
  - rewrite walk_Forall. split.
    + intros Hall. split; [tauto|]. eapply Forall_impl; [done|].
      intros n. apply Hh.
    + intros [_ Hall]. eapply Forall_impl; [done|]. intros n. apply Hh.
  - rewrite walk_Forall. split.
    + intros Hall. split; [tauto|]. eapply Forall_impl; [done|].
      intros n. apply Hh.
    + intros [_ Hall]. eapply Forall_impl; [done|]. intros n. apply Hh.
  - rewrite walk_Forall. split.
    + intros Hall. split; [tauto|]. eapply Forall_impl; [done|].
      intros n. apply Hh.
    + intros [_ Hall]. eapply Forall_impl; [done|]. intros n. apply Hh.
Qed.

Lemma matches_tabindex (n : Node) (v : string) :
  attributes n !! "tabindex" = Some v → v ≠ "-1" → matchesSelector n = true.
Proof.
  intros Ht Hv. unfold matchesSelector, hasAttribute. rewrite Ht.
  rewrite (bool_decide_true (is_Some (Some v))) by (by eexists).
  rewrite (bool_decide_false (Some v = Some "-1")) by congruence.
  simpl. by rewrite !orb_true_r.
Qed.

Lemma matches_link (n : Node) :
  tagName n = "a" → is_Some (attributes n !! "href") →
  matchesSelector n = true.
Proof.
  intros Ha Hhref. unfold matchesSelector, hasAttribute.
  rewrite (bool_decide_true (tagName n = "a")) by done.
  by rewrite (bool_decide_true (is_Some (attributes n !! "href"))).
Qed.

Lemma disabled_control_no_match (n : Node) :
  tagName n ∈ ["button"; "input"; "select"; "textarea"] →
  is_Some (attributes n !! "disabled") →
  attributes n !! "tabindex" = None ∨ attributes n !! "tabindex" = Some "-1" →
  matchesSelector n = false.
Proof.
  intros Htag Hd Ht. unfold matchesSelector, hasAttribute.
  rewrite (bool_decide_true (is_Some (attributes n !! "disabled"))) by done.
  assert (bool_decide (tagName n = "a") = false) as ->.
  { apply bool_decide_eq_false. intros Ha. rewrite Ha in Htag.
    repeat (apply elem_of_cons in Htag as [Htag|Htag]; [discriminate|]).
    by apply elem_of_nil in Htag. }
  simpl. rewrite !andb_false_r. simpl.
  destruct Ht as [-> | ->].
  - by rewrite (bool_decide_false (is_Some None)) by (by intros [? ?]).
  - rewrite (bool_decide_true (Some "-1" = Some "-1")) by done.
    by rewrite andb_false_r.
Qed.

(** X10: among the descendants of the container, a visible element with a
    [tabindex] other than -1 is returned whatever its tag and even when
    disabled, and a visible link with [href] is returned even with
    [tabindex="-1"]; a disabled button, input, select or textarea with no
    [tabindex] or with -1 is never returned, nor is an element that is not
    visible. *)
Theorem focusable_edges (descendants : list Element) (e : Element) :
  (∀ v, e ∈ descendants → isElementVisible e = true →
        attributes (self e) !! "tabindex" = Some v → v ≠ "-1" →
        e ∈ getFocusableElements descendants)
  ∧ (e ∈ descendants → isElementVisible e = true →
     tagName (self e) = "a" → is_Some (attributes (self e) !! "href") →
     e ∈ getFocusableElements descendants)
  ∧ (tagName (self e) ∈ ["button"; "input"; "select"; "textarea"] →
     is_Some (attributes (self e) !! "disabled") →
     attributes (self e) !! "tabindex" = None
     ∨ attributes (self e) !! "tabindex" = Some "-1" →
     e ∉ getFocusableElements descendants)
  ∧ (isElementVisible e = false → e ∉ getFocusableElements descendants).
Proof.
  unfold getFocusableElements, querySelectorAll.
  split; [|split; [|split]].
  - intros v Hin Hvis Ht Hv. rewrite !list_elem_of_filter.
    split; [done|]. split; [|done]. by eapply matches_tabindex.
  - intros Hin Hvis Ha Hhref. rewrite !list_elem_of_filter.
    split; [done|]. split; [|done]. by apply matches_link.
  - intros Htag Hd Ht. rewrite !list_elem_of_filter.
    intros (_ & Hm & _). by rewrite disabled_control_no_match in Hm.
  - intros Hvis. rewrite !list_elem_of_filter. intros (Hv & _). congruence.
Qed.
End FocusableFacts.


(** ** useStackedModal *)
Module StackedModalMore.
Import StackedModal StackedModalFacts.

Lemma write_length (i : nat) (f : Node → Node) (doc : Document) :
  length (write i f doc) = length doc.
Proof. unfold write. destruct (doc !! i); [apply length_insert|done]. Qed.

Lemma hasClass_write (cls : string) (i j : nat) (f : Node → Node)
    (doc : Document) :
  (∀ n, doc !! i = Some n → className (f n) = className n) →
  hasClass cls (write i f doc) j = hasClass cls doc j.
Proof.
  intros Hf. unfold hasClass. destruct (decide (j = i)) as [->|Hne].
  - rewrite write_lookup.
    destruct (doc !! i) as [n|] eqn:Hn; simpl; [by rewrite Hf|done].
  - by rewrite write_lookup_ne.
Qed.

Lemma querySelectorAll_write (cls : string) (i : nat) (f : Node → Node)
    (doc : Document) :
  (∀ n, doc !! i = Some n → className (f n) = className n) →
  querySelectorAll cls (write i f doc) = querySelectorAll cls doc.
Proof.
  intros Hf. unfold querySelectorAll. rewrite write_length.
  apply list_filter_iff. intros j. by rewrite hasClass_write.
Qed.

Lemma last_query_lookup (cls : string) (doc : Document) (b : nat) :
  last (querySelectorAll cls doc) = Some b → is_Some (doc !! b).
Proof.
  intros Hl. apply last_Some_elem_of in Hl.
  unfold querySelectorAll in Hl. apply list_elem_of_filter in Hl as [Hc _].
  unfold hasClass in Hc. destruct (doc !! b); [by eexists|done].
Qed.

Lemma openAndClose_with_backdrop (doc : Document) (b : nat) (n : Node) :
  last (querySelectorAll "modal-backdrop" doc) = Some b →
  doc !! b = Some n →
  openAndClose (Some doc)
  = Some (<[b := {| className := className n;
                    style := {| zIndex := js_or (zIndex (style n)) "1040";
                                opacity := js_or (opacity (style n)) "0.5";
                                transition := "opacity 150ms ease-in-out" |}
                 |}]> doc).
Proof.
  intros Hlast Hn. unfold openAndClose, mount.
  rewrite (open_with_backdrop doc b n (initial true) Hlast Hn).
  unfold unmount, runCleanup, cleanup. simpl.
  rewrite !bool_decide_false by (by apply js_or_nonempty). simpl.
  f_equal. apply list_eq. intros j. destruct (decide (j = b)) as [->|Hne].
  - rewrite !write_lookup, Hn. simpl.
    symmetry. apply list_lookup_insert_eq. by eapply lookup_lt_Some.
  - rewrite !write_lookup_ne by done.
    symmetry. by apply list_lookup_insert_ne.
Qed.

Lemma openAndClose_without_backdrop (doc : Document) :
  querySelectorAll "modal-backdrop" doc = [] →
  openAndClose (Some doc) = Some doc.
Proof.
  intros Hq. unfold openAndClose, mount, layoutEffect, adjustBackdrop. simpl.
  rewrite Hq. reflexivity.
Qed.

(** X11: opening and unmounting a stacked modal a second time leaves the
    page exactly as the first time did: after one life of a stacked modal
    the backdrop's inline styles no longer change. *)
Theorem openAndClose_idempotent (document : option Document) :
  openAndClose (openAndClose document) = openAndClose document.
Proof.
  destruct document as [doc|]; [|reflexivity].
  destruct (last (querySelectorAll "modal-backdrop" doc)) as [b|] eqn:Hlast.
  - destruct (last_query_lookup _ _ _ Hlast) as [n Hn].
    rewrite (openAndClose_with_backdrop doc b n Hlast Hn).
    set (n' := {| className := className n; style := _ |}).
    assert (<[b:=n']> doc = write b (λ _, n') doc) as Hw.
    { unfold write. by rewrite Hn. }
    rewrite (openAndClose_with_backdrop (<[b:=n']> doc) b n').
    + f_equal. etrans; [apply list_insert_insert_eq|].
      f_equal. subst n'. simpl. unfold js_or at 1 3.
      by rewrite !bool_decide_false by (by apply js_or_nonempty).
    + rewrite Hw, querySelectorAll_write; [done|].
      intros m Hm. assert (m = n) as -> by congruence. done.
    + apply list_lookup_insert_eq. by eapply lookup_lt_Some.
  - apply last_None in Hlast.
    by rewrite !openAndClose_without_backdrop.
Qed.

(** X12: a modal that is not stacked never touches the page, renders its
    own backdrop and gets no z-index, however often it is opened, closed
    and finally unmounted. *)
Theorem not_stacked_is_inert (opens : list bool) (isOpen : bool)
    (document : option Document) :
  let r := rerenders false opens (mount false isOpen document).1
             (mount false isOpen document).2 in
  r.2 = document
  ∧ useStackedModal false r.1
    = {| res_shouldRenderBackdrop := true; modalStyle := None |}
  ∧ unmount r.1 r.2 = document.
Proof.
  assert (∀ h d, pendingCleanup h = false → shouldRenderBackdrop h = true →
    let r := rerenders false opens h d in
    r.2 = d ∧ pendingCleanup r.1 = false ∧ shouldRenderBackdrop r.1 = true)
    as Hinv.
  { induction opens as [|o opens IH]; intros h d Hp Hs; [done|].
    unfold rerenders. simpl. unfold update, runCleanup. rewrite Hp. simpl.
    apply (IH _ d); done. }
  intros r. destruct (Hinv (mount false isOpen document).1
                         (mount false isOpen document).2)
    as (Hd & Hp & Hs); [done..|].
  fold r in Hd, Hp, Hs. split; [done|]. split.
  - unfold useStackedModal. by rewrite Hs.
  - unfold unmount, runCleanup. by rewrite Hp.
Qed.

(** X13: on a page without any backdrop a stacked modal writes no style,
    through every series of openings and closings and at unmount. *)
Theorem no_backdrop_no_writes (opens : list bool) (doc : Document) :
  querySelectorAll "modal-backdrop" doc = [] →
  (rerenders true opens (initial true) (Some doc)).2 = Some doc
  ∧ unmount (rerenders true opens (initial true) (Some doc)).1
            (rerenders true opens (initial true) (Some doc)).2 = Some doc.
Proof.
  intros Hq.
  assert (∀ h, backdropRef h = None →
    let r := rerenders true opens h (Some doc) in
    r.2 = Some doc ∧ backdropRef r.1 = None) as Hinv.
  { induction opens as [|o opens IH]; intros h Hb; [done|].
    unfold rerenders. simpl.
    assert (runCleanup h (Some doc) = (h, Some doc)) as Hc.
    { unfold runCleanup, cleanup. rewrite Hb. by destruct (pendingCleanup h). }
    unfold update. rewrite Hc.
    destruct o; unfold layoutEffect, adjustBackdrop; simpl; rewrite ?Hq; simpl;
      by apply IH. }
  destruct (Hinv (initial true) eq_refl) as [Hd Hb].
  split; [done|]. unfold unmount, runCleanup, cleanup. rewrite Hb, Hd.
  by destruct (pendingCleanup _).
Qed.

(** X14: after each run of the layout effect the z-index in [modalStyle]
    is 1060 for an open stacked modal, 1050 for a closed one, and absent
    for a modal that is not stacked, whatever the page and the earlier
    state. *)
Theorem modal_zindex_by_state (isStacked isOpen : bool) (h : Hook)
    (document : option Document) :
  modalStyle (useStackedModal isStacked (update isStacked isOpen h document).1)
  = if isStacked then Some (if isOpen then 1060 else 1050)
    else None.
Proof.
  unfold useStackedModal. destruct isStacked; [|done]. f_equal.
  unfold update. destruct (runCleanup h document) as [h1 d1].
  unfold layoutEffect. destruct isOpen; simpl; [|done].
  unfold adjustBackdrop. destruct d1 as [doc|]; [|done].
  destruct (last _) as [pb|]; [|done]. by destruct (doc !! pb).
Qed.
Lemma no_backdrop_no_writes_witness :
  (rerenders true [true; false; true] (initial true)
     (Some pageWithoutBackdrop)).2
  = Some pageWithoutBackdrop.
Proof.
  apply (no_backdrop_no_writes [true; false; true] pageWithoutBackdrop).
  reflexivity.
Defined.

End StackedModalMore.


(** ** FooterPagination and useMeasurePunchouts *)
Module PaginationMore.
Import Pagination NumberFacts PaginationFacts.

(** X15: for a total that is a safe integer, on every page from 0 to the
    last the legend shows a non-empty range within the total; every page
    before the last shows exactly [itemsPerPage] items and ends where the
    next begins, and the last page ends at the total. *)
Theorem pages_tile_the_items (p t k : Z) :
  1 ≤ t ≤ MAX_SAFE_INTEGER → 1 ≤ k → 0 ≤ p ≤ (t - 1) / k →
  totalPages t k = Finite ((t - 1) / k)
  ∧ legend (FooterPagination p t k)
    = Some (startCount p k + 1, endCount p t k, t)
  ∧ startCount p k = p * k
  ∧ startCount p k + 1 ≤ endCount p t k ≤ t
  ∧ (p < (t - 1) / k →
     endCount p t k = startCount p k + k
     ∧ endCount p t k = startCount (p + 1) k)
  ∧ (p = (t - 1) / k → endCount p t k = t).
Proof.
  intros Ht Hk [Hp0 Hp].
  pose proof (proj1 (last_page_first_item p t k Hp0 ltac:(lia) Hk) Hp)
    as Hfirst.
  assert (0 ≤ p * k) as Hpk by nia.
  assert (startCount p k = p * k) as Hstart.
  { apply startCount_exact.
    unfold isSafeInteger, MIN_SAFE_INTEGER, MAX_SAFE_INTEGER in *. lia. }
  assert (endCount p t k = Z.min (p * k + k) t) as Hend.
  { apply endCount_exact; lia. }
  split; [by apply totalPages_floor|]. split.
  { unfold FooterPagination. simpl. rewrite bool_decide_true by lia.
    rewrite jsAdd_exact; [done|]. rewrite Hstart.
    unfold isSafeInteger, MIN_SAFE_INTEGER, MAX_SAFE_INTEGER in *. lia. }
  split; [done|]. rewrite Hend, Hstart.
  split; [lia|]. split.
  - intros Hlt.
    assert (p + 1 ≤ (t - 1) / k) as Hnext by lia.
    apply (last_page_first_item (p + 1) t k) in Hnext; [|lia..].
    rewrite startCount_exact
      by (unfold isSafeInteger, MIN_SAFE_INTEGER, MAX_SAFE_INTEGER in *;
          lia).
    lia.
  - intros Heq.
    assert (¬ (p + 1 ≤ (t - 1) / k)) as Hno by lia.
    rewrite (last_page_first_item (p + 1) t k) in Hno by lia.
    lia.
Qed.

(** X16: for a total that is a safe integer, Next is disabled exactly
    when the current page reaches the last item, that is when no item is
    left for a further page. *)
Theorem next_disabled_iff_last_items (p t k : Z) :
  0 ≤ p → 1 ≤ t ≤ MAX_SAFE_INTEGER → 1 ≤ k →
  nextDisabled (FooterPagination p t k) = true ↔ t ≤ p * k + k.
Proof.
  intros Hp Ht Hk. simpl. rewrite totalPages_floor by done. simpl.
  rewrite Z.geb_leb, Z.leb_le.
  split.
  - intros Hle.
    assert (¬ (p + 1 ≤ (t - 1) / k)) as Hno by lia.
    rewrite (last_page_first_item (p + 1) t k) in Hno by lia.
    lia.
  - intros Hend.
    assert (¬ (p + 1 ≤ (t - 1) / k)) as Hno; [|lia].
    rewrite (last_page_first_item (p + 1) t k) by lia.
    lia.
Qed.

(** X17: with a total of 0 there is no legend and Next is disabled on
    every page, for every page size, also for size 1 where the last page
    index is -1; Previous is disabled on page 0 only. *)
Theorem nothing_to_page (p k : Z) :
  0 ≤ p → 1 ≤ k →
  legend (FooterPagination p 0 k) = None
  ∧ nextDisabled (FooterPagination p 0 k) = true
  ∧ (prevDisabled (FooterPagination p 0 k) = true ↔ p = 0).
Proof.
  intros Hp Hk. unfold FooterPagination, totalPages. simpl.
  split; [done|]. split.
  - destruct (Z.eqb_spec k 0); [lia|]. simpl.
    rewrite Z.geb_leb. apply Z.leb_le.
    change (jsSub 0 1) with (-1).
    pose proof (jsTruncDiv_sign (-1) k ltac:(lia) ltac:(lia)). lia.
  - rewrite Z.leb_le. lia.
Qed.

(** X28: with an [itemsPerPage] of 0 the last page index is not a number
    of pages: for a total of 2 or more it is [Infinity] and for a total of
    1 it is [NaN], and Next is enabled on every page; for a total of 0 or
    less it is [-Infinity], and Next is disabled on every page. *)
Theorem zero_page_size (p t : Z) :
  isSafeInteger (t - 1) →
  (2 ≤ t → totalPages t 0 = PlusInfinity
           ∧ nextDisabled (FooterPagination p t 0) = false)
  ∧ (t = 1 → totalPages t 0 = NotANumber
             ∧ nextDisabled (FooterPagination p t 0) = false)
  ∧ (t ≤ 0 → totalPages t 0 = MinusInfinity
             ∧ nextDisabled (FooterPagination p t 0) = true).
Proof.
  intros Hsafe. unfold FooterPagination, totalPages. simpl.
  rewrite jsSub_exact by done.
  destruct (Z.ltb_spec 0 (t - 1)), (Z.ltb_spec (t - 1) 0);
    repeat split; intros; (done || lia).
Qed.

Lemma zero_page_size_witness :
  nextDisabled (FooterPagination 7 5 0) = false.
Proof.
  destruct (zero_page_size 7 5) as (Hmany & _).
  - vm_compute. split; discriminate.
  - by apply Hmany.
Defined.

Lemma pages_tile_the_items_witness :
  endCount 1 25 10 = startCount 2 10 ∧ endCount 2 25 10 = 25.
Proof.
  destruct (pages_tile_the_items 1 25 10) as (_ & _ & _ & _ & Hfull & _);
    [vm_compute; split; discriminate|lia
    |vm_compute; split; discriminate|].
  destruct (pages_tile_the_items 2 25 10) as (_ & _ & _ & _ & _ & Hlast);
    [vm_compute; split; discriminate|lia
    |vm_compute; split; discriminate|].
  split; [apply Hfull; reflexivity|apply Hlast; reflexivity].
Defined.

Lemma next_disabled_iff_last_items_witness :
  nextDisabled (FooterPagination 2 25 10) = true.
Proof.
  apply (next_disabled_iff_last_items 2 25 10);
    [lia|vm_compute; split; discriminate|lia|lia].
Defined.

Lemma nothing_to_page_witness :
  nextDisabled (FooterPagination 0 0 1) = true.
Proof. apply (nothing_to_page 0 1); lia. Defined.

End PaginationMore.

Module PunchoutsMore.
Import Punchouts NumberFacts PunchoutsFacts.

Lemma extend_min_max (b : Bounds) (r : DOMRect.t) :
  extend b r
  = {| minX := Z.min (DOMRect.x r) (minX b);
       minY := Z.min (DOMRect.y r) (minY b);
       maxX := Z.max (rightEdge r) (maxX b);
       maxY := Z.max (bottomEdge r) (maxY b) |}.
Proof.
  unfold extend, rightEdge, bottomEdge. rewrite !Z.gtb_ltb. f_equal.
  - destruct (Z.ltb_spec (DOMRect.x r) (minX b)); lia.
  - destruct (Z.ltb_spec (DOMRect.y r) (minY b)); lia.
  - destruct (Z.ltb_spec (maxX b) (jsAdd (DOMRect.x r) (DOMRect.width r)));
      lia.
  - destruct (Z.ltb_spec (maxY b) (jsAdd (DOMRect.y r) (DOMRect.height r)));
      lia.
Qed.

Lemma extend_comm (b : Bounds) (r1 r2 : DOMRect.t) :
  extend (extend b r1) r2 = extend (extend b r2) r1.
Proof. rewrite !extend_min_max. simpl. f_equal; lia. Qed.

Lemma scan_perm (document : gmap string DOMRect.t) (ids ids' : list string) :
  ids ≡ₚ ids' → ∀ b, scan document ids b = scan document ids' b.
Proof.
  induction 1 as [|id ids ids' _ IH|id1 id2 ids|? ? ? _ IH1 _ IH2];
    intros b; simpl.
  - done.
  - destruct (document !! id); [apply IH|done].
  - destruct (document !! id1), (document !! id2); try done.
    by rewrite extend_comm.
  - by rewrite IH1.
Qed.

(** X18: the order in which the element ids are given does not change
    what the hook returns, null included. *)
Theorem order_of_ids_is_irrelevant (document : gmap string DOMRect.t)
    (ids ids' : list string) (offset : option PunchOutOffset.t) :
  ids ≡ₚ ids' →
  useMeasurePunchouts document ids offset
  = useMeasurePunchouts document ids' offset.
Proof.
  intros Hp. unfold useMeasurePunchouts. by rewrite (scan_perm _ _ _ Hp).
Qed.

Lemma foldl_extend_covers (rs : list DOMRect.t) (b : Bounds) :
  (minX (foldl extend b rs) ≤ minX b ∧ minY (foldl extend b rs) ≤ minY b
   ∧ maxX b ≤ maxX (foldl extend b rs) ∧ maxY b ≤ maxY (foldl extend b rs))
  ∧ ∀ r, r ∈ rs →
      minX (foldl extend b rs) ≤ DOMRect.x r
      ∧ minY (foldl extend b rs) ≤ DOMRect.y r
      ∧ rightEdge r ≤ maxX (foldl extend b rs)
      ∧ bottomEdge r ≤ maxY (foldl extend b rs).
Proof.
  revert b. induction rs as [|r0 rs IH]; intros b; simpl.
  - split; [lia|]. by intros r ?%elem_of_nil.
  - destruct (IH (extend b r0)) as [Hb Hin].
    assert (minX (extend b r0) = Z.min (DOMRect.x r0) (minX b)
            ∧ minY (extend b r0) = Z.min (DOMRect.y r0) (minY b)
            ∧ maxX (extend b r0) = Z.max (rightEdge r0) (maxX b)
            ∧ maxY (extend b r0) = Z.max (bottomEdge r0) (maxY b))
      as (H1 & H2 & H3 & H4) by (by rewrite extend_min_max).
    set (b' := extend b r0) in *.
    split; [lia|].
    intros r [->|Hr]%elem_of_cons; [lia|by apply Hin].
Qed.

Lemma mapM_lookup_None (document : gmap string DOMRect.t)
    (ids : list string) :
  mapM (λ i, document !! i) ids = None →
  ∃ id, id ∈ ids ∧ document !! id = None.
Proof.
  induction ids as [|i ids IH]; [done|]. intros Hm.
  destruct (document !! i) as [ri|] eqn:Hi.
  - destruct (mapM (λ i, document !! i) ids) as [rs|] eqn:Hrs.
    + exfalso. apply mapM_Some in Hrs.
      assert (mapM (λ i, document !! i) (i :: ids) = Some (ri :: rs))
        as Hc by (apply mapM_Some; by constructor).
      congruence.
    + destruct (IH eq_refl) as (j & Hj & Hn). exists j.
      split; [by right|done].
  - exists i. split; [by left|done].
Qed.

(** A scan that ends has found a rectangle for every id, and folded
    [extend] over them. *)
Lemma scan_rects (document : gmap string DOMRect.t) (ids : list string)
    (b : Bounds) :
  scan document ids start = Some b →
  ∃ rs, Forall2 (λ id r, document !! id = Some r) ids rs
        ∧ b = foldl extend start rs.
Proof.
  intros Hb.
  destruct (mapM (λ i, document !! i) ids) as [rs|] eqn:Hm.
  - rewrite (scan_found _ _ rs start Hm) in Hb. injection Hb as <-.
    exists rs. split; [by apply mapM_Some|done].
  - exfalso. apply mapM_lookup_None in Hm.
    apply scan_None with (b := start) in Hm. congruence.
Qed.

(** The loop variables at the end of a scan that found every element. *)
Lemma scan_covers (document : gmap string DOMRect.t) (ids : list string)
    (b : Bounds) :
  scan document ids start = Some b →
  ∀ id r, id ∈ ids → document !! id = Some r →
    minX b ≤ DOMRect.x r ∧ minY b ≤ DOMRect.y r
    ∧ rightEdge r ≤ maxX b ∧ bottomEdge r ≤ maxY b.
Proof.
  intros Hb id r Hid Hr.
  destruct (scan_rects document ids b Hb) as (rs & Hm & ->).
  destruct (foldl_extend_covers rs start) as [_ Hin]. apply Hin.
  apply list_elem_of_lookup in Hid as [i Hi].
  destruct (Forall2_lookup_l _ _ _ _ _ Hm Hi) as (r' & Hr' & Heq).
  rewrite Hr in Heq. injection Heq as <-.
  apply list_elem_of_lookup. by exists i.
Qed.

(** Rectangles within the layout range keep the loop variables between
    that range and the sentinels. *)
Lemma fold_within (rs : list DOMRect.t) (b : Bounds) :
  Forall withinLayout rs →
  - LAYOUT_LIMIT ≤ minX b → - LAYOUT_LIMIT ≤ minY b →
  maxX b ≤ LAYOUT_LIMIT → maxY b ≤ LAYOUT_LIMIT →
  - LAYOUT_LIMIT ≤ minX (foldl extend b rs)
  ∧ - LAYOUT_LIMIT ≤ minY (foldl extend b rs)
  ∧ maxX (foldl extend b rs) ≤ LAYOUT_LIMIT
  ∧ maxY (foldl extend b rs) ≤ LAYOUT_LIMIT.
Proof.
  intros Hrs. revert b.
  induction Hrs as [|r rs Hr _ IH]; intros b H1 H2 H3 H4; simpl; [done|].
  assert (safeRectangle r) as Hsafe.
  { destruct Hr as (? & ? & ? & ?).
    unfold safeRectangle, isSafeInteger, MIN_SAFE_INTEGER, MAX_SAFE_INTEGER,
      LAYOUT_LIMIT in *. lia. }
  destruct (safe_edges r Hsafe) as [Hre Hbe].
  destruct Hr as (? & ? & ? & ?).
  apply IH; rewrite extend_min_max; simpl; rewrite ?Hre, ?Hbe; lia.
Qed.

(** What the hook returns for elements within the layout range, one of
    which is [r]: the numbers of the box are exact, and the box reaches
    from the least left and top edge to the greatest right and bottom
    edge. *)
Lemma measured_box (document : gmap string DOMRect.t) (ids : list string)
    (b : Bounds) (id : string) (r : DOMRect.t) :
  (∀ id r, id ∈ ids → document !! id = Some r → withinLayout r) →
  scan document ids start = Some b →
  id ∈ ids → document !! id = Some r →
  useMeasurePunchouts document ids None
  = Some {| Props.x := Some (px (minX b)); Props.y := Some (px (minY b));
            Props.width := px (maxX b - minX b);
            Props.height := px (maxY b - minY b) |}
  ∧ (- LAYOUT_LIMIT ≤ minX b ≤ LAYOUT_LIMIT
     ∧ - LAYOUT_LIMIT ≤ minY b ≤ LAYOUT_LIMIT
     ∧ - LAYOUT_LIMIT ≤ maxX b ≤ LAYOUT_LIMIT
     ∧ - LAYOUT_LIMIT ≤ maxY b ≤ LAYOUT_LIMIT)
  ∧ ∀ id' r', id' ∈ ids → document !! id' = Some r' →
      minX b ≤ DOMRect.x r' ∧ minY b ≤ DOMRect.y r'
      ∧ right r' ≤ maxX b ∧ bottom r' ≤ maxY b.
Proof.
  intros Hlay Hb Hid Hr.
  assert (∀ id' r', id' ∈ ids → document !! id' = Some r' →
            minX b ≤ DOMRect.x r' ∧ minY b ≤ DOMRect.y r'
            ∧ right r' ≤ maxX b ∧ bottom r' ≤ maxY b) as Hcov.
  { intros id' r' Hid' Hr'.
    pose proof (scan_covers document ids b Hb id' r' Hid' Hr')
      as (Hx & Hy & Hrt & Hbt).
    assert (safeRectangle r') as Hsafe.
    { destruct (Hlay id' r' Hid' Hr') as (? & ? & ? & ?).
      unfold safeRectangle, isSafeInteger, MIN_SAFE_INTEGER,
        MAX_SAFE_INTEGER, LAYOUT_LIMIT in *. lia. }
    destruct (safe_edges r' Hsafe) as [<- <-]. done. }
  assert (- LAYOUT_LIMIT ≤ minX b ∧ - LAYOUT_LIMIT ≤ minY b
          ∧ maxX b ≤ LAYOUT_LIMIT ∧ maxY b ≤ LAYOUT_LIMIT)
    as (Hb1 & Hb2 & Hb3 & Hb4).
  { destruct (scan_rects document ids b Hb) as (rs & Hm & ->).
    apply fold_within; [|by vm_compute..].
    apply Forall_forall. intros r' Hr'.
    apply list_elem_of_lookup in Hr' as [i Hi].
    destruct (Forall2_lookup_r _ _ _ _ _ Hm Hi) as (id' & Hid' & Hlook).
    apply (Hlay id' r'); [|done].
    apply list_elem_of_lookup. by exists i. }
  destruct (Hcov id r Hid Hr) as (Hc1 & Hc2 & Hc3 & Hc4).
  destruct (Hlay id r Hid Hr) as (Hl1 & Hl2 & Hl3 & Hl4).
  split; [|split; [lia|done]].
  unfold useMeasurePunchouts. rewrite Hb.
  rewrite !jsSub_exact, !jsAdd_exact, ?Z.add_0_r;
    try (unfold isSafeInteger, MIN_SAFE_INTEGER, MAX_SAFE_INTEGER,
           LAYOUT_LIMIT in *; lia).
  reflexivity.
Qed.

(** X19: whenever the hook returns a box (without offset) for elements
    whose rectangles lie within the layout range, the box covers the
    client rectangle of every listed element. *)
Theorem box_covers_elements (document : gmap string DOMRect.t)
    (elementIds : list string) (p : Props.t) :
  (∀ id r, id ∈ elementIds → document !! id = Some r → withinLayout r) →
  useMeasurePunchouts document elementIds None = Some p →
  ∃ left top boxWidth boxHeight,
    p = {| Props.x := Some (px left); Props.y := Some (px top);
           Props.width := px boxWidth; Props.height := px boxHeight |}
    ∧ ∀ id r, id ∈ elementIds → document !! id = Some r →
        left ≤ DOMRect.x r ∧ top ≤ DOMRect.y r
        ∧ right r ≤ left + boxWidth ∧ bottom r ≤ top + boxHeight.
Proof.
  intros Hlay Hp.
  destruct (scan document elementIds start) as [b|] eqn:Hb.
  2:{ unfold useMeasurePunchouts in Hp. by rewrite Hb in Hp. }
  destruct elementIds as [|id0 ids].
  - unfold useMeasurePunchouts in Hp. rewrite Hb in Hp. injection Hp as <-.
    do 4 eexists. split; [reflexivity|]. by intros id r ?%elem_of_nil.
  - assert (is_Some (document !! id0)) as [r0 Hr0].
    { simpl in Hb. destruct (document !! id0); [by eexists|done]. }
    destruct (measured_box document (id0 :: ids) b id0 r0 Hlay Hb
                ltac:(by left) Hr0) as (Hbox & _ & Hcov).
    rewrite Hbox in Hp. injection Hp as <-.
    exists (minX b), (minY b), (maxX b - minX b), (maxY b - minY b).
    split; [done|].
    intros id r Hid Hr. pose proof (Hcov id r Hid Hr). lia.
Qed.


(** X21: when the box that the hook measured (without offset) for
    elements within the layout range is given to TourTipBackdrop as
    punch-out, no pixel of any measured element is darkened. *)
Theorem measured_elements_show_through (document : gmap string DOMRect.t)
    (elementIds : list string) (p : Props.t) (id : string) (r : DOMRect.t)
    (w h i j : Z) :
  (∀ id r, id ∈ elementIds → document !! id = Some r → withinLayout r) →
  useMeasurePunchouts document elementIds None = Some p →
  id ∈ elementIds → document !! id = Some r →
  TourTipBackdrop.inRectangle (DOMRect.x r) (DOMRect.y r) (DOMRect.width r)
    (DOMRect.height r) i j = true →
  TourTipBackdrop.darkened w h
    (TourTipBackdrop.backdropClip TourTipBackdrop.parsePx w h (Some p)) i j
  = false.
Proof.
  intros Hlay Hp Hid Hr Hin.
  destruct (scan document elementIds start) as [b|] eqn:Hb.
  2:{ unfold useMeasurePunchouts in Hp. by rewrite Hb in Hp. }
  destruct (measured_box document elementIds b id r Hlay Hb Hid Hr)
    as (Hbox & Hbounds & Hcov).
  rewrite Hbox in Hp. injection Hp as <-.
  pose proof (Hcov id r Hid Hr) as (Hx & Hy & Hrt & Hbt).
  unfold right, bottom in *.
  unfold TourTipBackdrop.inRectangle in Hin.
  apply andb_prop in Hin as [Hin Hj2]. apply andb_prop in Hin as [Hin Hj1].
  apply andb_prop in Hin as [Hi1 Hi2].
  apply Z.leb_le in Hi1, Hj1. apply Z.ltb_lt in Hi2, Hj2.
  unfold TourTipBackdrop.darkened, TourTipBackdrop.backdropClip.
  rewrite (TourTipBackdropFacts.evalPolygon_resolved TourTipBackdrop.parsePx
             _ (minX b) (minY b) (maxX b - minX b) (maxY b - minY b) w h)
    by (simpl; apply TourTipBackdropFacts.parsePx_px;
        change (10 ^ 21) with 1000000000000000000000;
        unfold LAYOUT_LIMIT in *; lia).
  destruct (Z.leb_spec 0 i), (Z.ltb_spec i w), (Z.leb_spec 0 j),
    (Z.ltb_spec j h); try done. simpl.
  unfold TourTipBackdrop.inPolygon, TourTipBackdrop.double.
  cbn [fmap list_fmap fst snd].
  rewrite !Z.mul_0_r, !Z.mul_add_distr_l.
  rewrite TourTipBackdropFacts.winding_punch_out by lia.
  rewrite TourTipBackdropFacts.inRectangle_double.
  unfold TourTipBackdrop.inRectangle.
  destruct (Z.leb_spec (minX b) i), (Z.ltb_spec i (minX b + (maxX b - minX b))),
    (Z.leb_spec (minY b) j), (Z.ltb_spec j (minY b + (maxY b - minY b)));
    simpl; (done || lia).
Qed.

(** Beyond the safe integers the box no longer covers the element: for
    an element at x = 2^53 that is one pixel wide the sentinel stays the
    least x, the right edge is rounded to 2^53, the box ends where the
    element begins, and the pixel of the element stays darkened. *)
Lemma far_element_stays_darkened :
  useMeasurePunchouts {[ "far" := farRect ]} ["far"] None
  = Some {| Props.x := Some "9007199254740991px"; Props.y := Some "1px";
            Props.width := "1px"; Props.height := "3px" |}
  ∧ TourTipBackdrop.inRectangle (DOMRect.x farRect) (DOMRect.y farRect)
      (DOMRect.width farRect) (DOMRect.height farRect) 9007199254740992 2
    = true
  ∧ TourTipBackdrop.darkened 9007199254741000 10
      (TourTipBackdrop.backdropClip TourTipBackdrop.parsePx
         9007199254741000 10
         (useMeasurePunchouts {[ "far" := farRect ]} ["far"] None))
      9007199254740992 2
    = true.
Proof. repeat split; vm_compute; reflexivity. Qed.

Lemma order_of_ids_is_irrelevant_witness :
  useMeasurePunchouts twoRects ["channel"; "sidebar"] None
  = useMeasurePunchouts twoRects ["sidebar"; "channel"] None.
Proof. apply order_of_ids_is_irrelevant. apply perm_swap. Defined.

(** The rectangles of [twoRects] lie within the layout range. *)
Lemma twoRects_withinLayout (id : string) (r : DOMRect.t) :
  id ∈ ["channel"; "sidebar"] → twoRects !! id = Some r → withinLayout r.
Proof.
  intros Hid Hr.
  apply elem_of_cons in Hid as [->|Hid].
  { vm_compute in Hr. injection Hr as <-.
    unfold withinLayout; vm_compute; intuition discriminate. }
  apply elem_of_cons in Hid as [->|Hid]; [|by apply elem_of_nil in Hid].
  vm_compute in Hr. injection Hr as <-.
  unfold withinLayout; vm_compute; intuition discriminate.
Defined.

Lemma box_covers_elements_witness :
  ∃ left top boxWidth boxHeight,
    {| Props.x := Some "0px"; Props.y := Some "10px";
       Props.width := "140px"; Props.height := "200px" |}
    = {| Props.x := Some (px left); Props.y := Some (px top);
         Props.width := px boxWidth; Props.height := px boxHeight |}
    ∧ ∀ id r, id ∈ ["channel"; "sidebar"] → twoRects !! id = Some r →
        left ≤ DOMRect.x r ∧ top ≤ DOMRect.y r
        ∧ right r ≤ left + boxWidth ∧ bottom r ≤ top + boxHeight.
Proof.
  apply (box_covers_elements twoRects ["channel"; "sidebar"]).
  - exact twoRects_withinLayout.
  - vm_compute. reflexivity.
Defined.

Lemma measured_elements_show_through_witness :
  TourTipBackdrop.darkened 1000 800
    (TourTipBackdrop.backdropClip TourTipBackdrop.parsePx 1000 800
       (Some {| Props.x := Some "0px"; Props.y := Some "10px";
                Props.width := "140px"; Props.height := "200px" |}))
    50 70
  = false.
Proof.
  apply (measured_elements_show_through twoRects ["channel"; "sidebar"] _
           "channel" {| DOMRect.x := 40; DOMRect.y := 60;
                        DOMRect.width := 100; DOMRect.height := 20 |});
    [exact twoRects_withinLayout|vm_compute; reflexivity|by left
    |reflexivity|reflexivity].
Defined.

End PunchoutsMore.


(** ** Skeleton loaders, TourTip, useElementAvailable, GenericModal *)
Module SkeletonFacts.
Import Skeleton.

(** The falsy sizes: the numbers 0 and [NaN], the empty string and an
    absent size. *)
Lemma falsy_sizes (size : Size) :
  truthySize size = false
  ↔ size = SizeNumber (Int 0) ∨ size = SizeNumber NaN
    ∨ size = SizeString "" ∨ size = SizeAbsent.
Proof.
  destruct size as [[z| |neg]|s|]; simpl.
  - destruct (Z.eqb_spec z 0) as [->|Hz]; simpl.
    + split; [by left|done].
    + split; [done|]. intros [[= ?]|[?|[?|?]]]; done.
  - split; [by right; left|done].
  - split; [done|]. intros [?|[?|[?|?]]]; done.
  - case_bool_decide as Hs; simpl.
    + subst s. split; [by right; right; left|done].
    + split; [done|]. intros [?|[?|[[= ?]|?]]]; done.
  - split; [by right; right; right|done].
Qed.


(** X23: RectangleSkeletonLoader always has a width, '100%' when the prop
    is 0, NaN, empty or absent, and has no height exactly when the height
    prop is 0, NaN, empty or absent; a border radius of 0 is kept as
    '0px', where an absent one becomes '8px' and NaN is printed as
    'NaNpx'. *)
Theorem rectangle_zero_props (props : RectangleSkeletonLoaderProps) :
  is_Some (css_width (RectangleSkeletonLoader props))
  ∧ (truthySize (width props) = false →
     css_width (RectangleSkeletonLoader props) = Some "100%")
  ∧ (css_height (RectangleSkeletonLoader props) = None
     ↔ truthySize (height props) = false)
  ∧ (css_height (RectangleSkeletonLoader props) = None
     ↔ height props = SizeNumber (Int 0) ∨ height props = SizeNumber NaN
       ∨ height props = SizeString "" ∨ height props = SizeAbsent)
  ∧ (borderRadius props = Some (Int 0) →
     css_borderRadius (RectangleSkeletonLoader props) = "0px")
  ∧ (borderRadius props = None →
     css_borderRadius (RectangleSkeletonLoader props) = "8px")
  ∧ (borderRadius props = Some NaN →
     css_borderRadius (RectangleSkeletonLoader props) = "NaNpx").
Proof.
  assert (css_height (RectangleSkeletonLoader props) = None
          ↔ truthySize (height props) = false) as Hheight.
  { unfold RectangleSkeletonLoader, getCorrectSizeDimension. simpl.
    destruct (height props) as [n|s|]; simpl;
      repeat case_match; split; done. }
  split; [|split; [|split; [done|split; [|split; [|split]]]]].
  - unfold RectangleSkeletonLoader, getCorrectSizeDimension. simpl.
    destruct (width props) as [n|s|]; simpl;
      repeat case_match; by eexists.
  - unfold RectangleSkeletonLoader, getCorrectSizeDimension. simpl.
    intros Hf. destruct (width props); by rewrite ?Hf.
  - rewrite Hheight. apply falsy_sizes.
  - unfold RectangleSkeletonLoader. simpl. by intros ->.
  - unfold RectangleSkeletonLoader. simpl. by intros ->.
  - unfold RectangleSkeletonLoader. simpl. by intros ->.
Qed.

End SkeletonFacts.

Module TourTipFacts.
Import TourTip.

Lemma dotsFrom_length (step dot : Z) (count : nat) :
  length (dotsFrom step dot count) = count.
Proof.
  revert dot. induction count as [|count IH]; intros dot; simpl; [done|].
  by rewrite IH.
Qed.

Lemma dotsFrom_lookup (step dot : Z) (count i : nat) :
  (i < count)%nat →
  dotsFrom step dot count !! i = Some (makeDot step (dot + Z.of_nat i)).
Proof.
  revert dot i. induction count as [|count IH]; intros dot i Hi; [lia|].
  destruct i as [|i]; simpl.
  - by rewrite Z.add_0_r.
  - rewrite IH by lia. do 2 f_equal. lia.
Qed.

(** X24: TourTip renders one dot fewer than there are tour steps, for
    the steps 0, 1, ... in order; a dot is active only if it is the dot of
    [step], so there is an active dot exactly when [step] is not the last
    step (or out of range); a single tip, and a tip without steps, has no
    dots. *)
Theorem one_dot_fewer_than_steps (tourSteps : list Z) (step : Z) :
  let ds := dots false (Some tourSteps) step in
  length ds = (length tourSteps - 1)%nat
  ∧ (∀ i, (i < length ds)%nat →
       ds !! i = Some {| dataScreen := Z.of_nat i;
                         active := bool_decide (Z.of_nat i = step) |})
  ∧ (∀ d, d ∈ ds → active d = true → dataScreen d = step)
  ∧ ((∃ d, d ∈ ds ∧ active d = true)
     ↔ 0 ≤ step < Z.of_nat (length tourSteps) - 1)
  ∧ dots true (Some tourSteps) step = []
  ∧ dots false None step = [].
Proof.
  simpl. set (count := Z.to_nat (Z.of_nat (length tourSteps) - 1)).
  assert (count = (length tourSteps - 1)%nat) as Hc by lia.
  assert (∀ i, (i < count)%nat →
            dotsFrom step 0 count !! i
            = Some {| dataScreen := Z.of_nat i;
                      active := bool_decide (Z.of_nat i = step) |}) as Hl.
  { intros i Hi. by rewrite dotsFrom_lookup. }
  split; [by rewrite dotsFrom_length|].
  split; [intros i; rewrite dotsFrom_length; apply Hl|].
  split; [|split; [|done]].
  - intros d [i Hi]%list_elem_of_lookup.
    pose proof (lookup_lt_Some _ _ _ Hi) as Hlt.
    rewrite dotsFrom_length in Hlt. rewrite Hl in Hi by done.
    injection Hi as <-. simpl. by intros ?%bool_decide_eq_true.
  - split.
    + intros (d & [i Hi]%list_elem_of_lookup & Ha).
      pose proof (lookup_lt_Some _ _ _ Hi) as Hlt.
      rewrite dotsFrom_length in Hlt. rewrite Hl in Hi by done.
      injection Hi as <-. simpl in Ha. apply bool_decide_eq_true in Ha. lia.
    + intros Hs. exists (makeDot step step). split.
      * apply list_elem_of_lookup. exists (Z.to_nat step).
        rewrite Hl by lia. unfold makeDot. f_equal.
        rewrite Z2Nat.id by lia. done.
      * simpl. by apply bool_decide_eq_true.
Qed.
End TourTipFacts.

Module ElementAvailableFacts.
Import ElementAvailable.

Lemma tick_fixed (elementIds : list string) (h : Hook)
    (documents : list (gset string)) :
  checkAvailableInterval h = false →
  foldl (tick elementIds) h documents = h.
Proof.
  intros Hoff. induction documents as [|d documents IH]; simpl; [done|].
  unfold tick at 2. by rewrite Hoff.
Qed.

Lemma polling (elementIds : list string) (documents : list (gset string)) :
  let h := foldl (tick elementIds)
             {| available := false; checkAvailableInterval := true |}
             documents in
  (available h = true ↔ ∃ d, d ∈ documents ∧ allPresent elementIds d = true)
  ∧ checkAvailableInterval h = negb (available h).
Proof.
  induction documents as [|d documents IH]; simpl.
  - split; [|done]. split; [done|]. by intros (d & ?%elem_of_nil & _).
  - unfold tick at 2 4 6. simpl. unfold onInterval at 1 2 3.
    destruct (allPresent elementIds d) eqn:Hd.
    + rewrite tick_fixed by done. simpl. split; [|done].
      split; [|done]. intros _. exists d. split; [by left|done].
    + destruct IH as [IH1 IH2]. split; [|done]. rewrite IH1.
      split.
      * intros (d' & Hin & Hp). exists d'. split; [by right|done].
      * intros (d' & [->|Hin]%elem_of_cons & Hp); [congruence|by exists d'].
Qed.

(** X25: [useElementAvailable] reports true exactly when, at one of the
    periods of its interval so far, every id had an element; the interval
    is registered as long as it reports false, and before the first
    period it reports false even for an empty list of ids. *)
Theorem available_iff_seen (elementIds : list string)
    (documents : list (gset string)) :
  (available (useElementAvailable elementIds documents) = true
   ↔ ∃ d, d ∈ documents ∧ ∀ id, id ∈ elementIds → id ∈ d)
  ∧ checkAvailableInterval (useElementAvailable elementIds documents)
    = negb (available (useElementAvailable elementIds documents))
  ∧ available (useElementAvailable elementIds []) = false.
Proof.
  unfold useElementAvailable. change (effect initial)
    with {| available := false; checkAvailableInterval := true |}.
  destruct (polling elementIds documents) as [H1 H2].
  split; [|split; [done|done]].
  rewrite H1. apply exist_proper. intros d. apply and_iff_compat_l.
  unfold allPresent. rewrite forallb_forall.
  split.
  - intros Hall id Hid. apply list_elem_of_In in Hid.
    specialize (Hall id Hid). by apply bool_decide_eq_true in Hall.
  - intros Hall id Hid. apply bool_decide_eq_true, Hall.
    by apply list_elem_of_In.
Qed.

(** X26: once [useElementAvailable] has reported true nothing changes
    any more, also when the elements disappear again. *)
Theorem available_is_sticky (elementIds : list string)
    (documents later : list (gset string)) :
  available (useElementAvailable elementIds documents) = true →
  useElementAvailable elementIds (documents ++ later)
  = useElementAvailable elementIds documents.
Proof.
  intros Ha. unfold useElementAvailable in *. rewrite foldl_app.
  apply tick_fixed.
  change (effect initial)
    with {| available := false; checkAvailableInterval := true |} in *.
  destruct (polling elementIds documents) as [_ H2].
  rewrite H2, Ha. done.
Qed.
Lemma available_is_sticky_witness :
  useElementAvailable ["tip"] ([∅; {[ "tip" ]}] ++ [∅; ∅])
  = useElementAvailable ["tip"] [∅; {[ "tip" ]}].
Proof. apply available_is_sticky. reflexivity. Defined.

End ElementAvailableFacts.

Module VisibilityFacts.
Import GenericModal.

(** X27: after [onHideCallback] the modal stays hidden through every
    render in which the parent passes the same [show] as before, also
    [show = true]; only a render with another value of [show] sets
    [showState] again. *)
Theorem hidden_until_show_changes (v : Visibility)
    (renders : list bool) :
  Forall (λ s, s = lastShow v) renders →
  foldl render (hide v) renders = hide v
  ∧ shownState (foldl render (hide v) renders) = false
  ∧ (∀ s, s ≠ lastShow v →
       shownState (render (foldl render (hide v) renders) s) = s).
Proof.
  intros Hall.
  assert (foldl render (hide v) renders = hide v) as ->.
  { induction Hall as [|s renders Hs Hall IH]; simpl; [done|].
    unfold render at 2. simpl. by rewrite bool_decide_true. }
  split; [done|]. split; [done|].
  intros s Hs. unfold render. simpl. by rewrite bool_decide_false.
Qed.
Lemma hidden_until_show_changes_witness :
  shownState (foldl render (hide (firstRender true)) [true; true]) = false.
Proof.
  apply (hidden_until_show_changes (firstRender true) [true; true]).
  repeat constructor.
Defined.

End VisibilityFacts.
